(** * Networkgraph series: a shallow embedding of
      js/modules/networkgraph/networkgraph.src.js

    The development follows the source file top to bottom: the point
    class ([getDegree], [getMass]), node generation ([generatePoints]),
    layout registration ([deferLayout]), the drag handlers
    ([onMouseDown], [onMouseMove], [onMouseUp]) and the chart-level event
    handlers ([updatedData], [predraw], [render]).

    Conventions.
    - Pointer and plot coordinates are rationals ([Q]); a value that may
      be [undefined] (and so [NaN] under arithmetic) is an [option Q].
    - The arithmetic of [getMass] is that of the language: IEEE 754
      binary64, rounding to nearest with ties to even ([Number],
      [add64], [sub64], [div64]).
    - Objects that are shared and mutated (nodes, layouts) live in a
      store, a [list] indexed by a reference ([ref]); an object that is
      created is appended to its store.
    - A plain object used as a dictionary ([nodeLookup],
      [graphLayoutsStorage]) is a [gmap string _] of its own properties
      together with the properties every plain object inherits.
    - A statement that can throw returns a [Result]. *)

From Stdlib Require Import QArith Qabs Qround Qpower Lqa.
From stdpp Require Import base option list gmap strings.

Local Open Scope list_scope.

(** ** JavaScript preliminaries *)

(** A reference into a store of objects. *)
Abbreviation ref := nat (only parsing).

(** The outcome of a statement: a value, or a thrown [TypeError] (reading
    a property of [undefined], calling what is not a function). *)
Inductive Result (A : Type) : Type :=
| Ok (a : A)
| TypeError.
Arguments Ok {A} a.
Arguments TypeError {A}.

#[global] Instance Result_ret : MRet Result := fun _ a => Ok a.
#[global] Instance Result_bind : MBind Result := fun _ _ f m =>
  match m with
  | Ok a => f a
  | TypeError => TypeError
  end.

(** [defined(x)] of Utilities.js: neither [undefined] nor [null]. *)
Definition defined {A} (x : option A) : bool :=
  match x with Some _ => true | None => false end.

(** [o.f] where [o] may be [undefined]: reading through it throws. *)
Definition deref {A} (store : list A) (r : option ref) : Result A :=
  match r with
  | Some i => match store !! i with Some a => Ok a | None => TypeError end
  | None => TypeError
  end.

(** The property names a plain object ([{}]) inherits from
    [Object.prototype]: reading one of them from a dictionary that has
    no own property of that name gives the inherited member, which is
    truthy. *)
Definition Object_prototype_names : list string :=
  [ "constructor"; "toString"; "toLocaleString"; "valueOf";
    "hasOwnProperty"; "isPrototypeOf"; "propertyIsEnumerable";
    "__proto__"; "__defineGetter__"; "__defineSetter__";
    "__lookupGetter__"; "__lookupSetter__" ].

Definition inherited (k : string) : bool :=
  bool_decide (k ∈ Object_prototype_names).

(** What [obj[k]] evaluates to on a plain object holding values of
    type [A]. *)
Inductive Lookup (A : Type) : Type :=
| Own (a : A)        (* an own property, put there by the program *)
| Inherited          (* a member of Object.prototype *)
| Undefined.
Arguments Own {A} a.
Arguments Inherited {A}.
Arguments Undefined {A}.

Definition js_get {A} (obj : gmap string A) (k : string) : Lookup A :=
  match obj !! k with
  | Some a => Own a
  | None => if inherited k then Inherited else Undefined
  end.

(** Truthiness of [obj[k]]: stored objects and inherited members are
    truthy, [undefined] is not. *)
Definition truthy {A} (v : Lookup A) : bool :=
  match v with
  | Undefined => false
  | _ => true
  end.

(** ** The point class *)

(** [point.fixedPosition], as [onMouseDown] records it. *)
Record FixedPosition : Type := mkFixedPosition {
  fp_chartX : Q;
  fp_chartY : Q;
  fp_plotX : option Q;
  fp_plotY : option Q
}.

(** A point of the series. Links (the data points) and nodes are objects
    of the same class; [isNode] tells them apart. [fromNode] and [toNode]
    refer to nodes of [series.nodes], [linksFrom] and [linksTo] to points
    of [series.points]. [dispX] and [dispY] are the velocity the layout
    keeps on a node. *)
Record Point : Type := mkPoint {
  p_isNode : bool;
  p_id : option string;
  p_name : option string;
  p_from : option string;
  p_to : option string;
  p_fromNode : option ref;
  p_toNode : option ref;
  p_linksFrom : list ref;
  p_linksTo : list ref;
  p_mass : Q;
  p_plotX : option Q;
  p_plotY : option Q;
  p_dispX : option Q;
  p_dispY : option Q;
  p_fixedPosition : option FixedPosition;
  p_inDragMode : bool
}.

(** [getDegree] (source lines 484-488). *)
Definition getDegree (this : Point) : nat :=
  let deg :=
    if p_isNode this
    then List.length (p_linksFrom this) + List.length (p_linksTo this)
    else 0 in
  if Nat.eqb deg 0 then 1 else deg.

(** ** Numbers *)

(** A number of the language: an IEEE 754 binary64. A finite number
    other than zero is the rational it stands for; zero and infinity
    have a sign. *)
Inductive Number : Type :=
| NaN
| Infinity (negative : bool)
| Zero (negative : bool)
| Finite (q : Q).

(** [2 ^ k]. *)
Definition pow2 (k : Z) : Q := (2 ^ k)%Q.

(** The exponent of the binade of a positive rational: the [k] with
    [2 ^ k <= a < 2 ^ (k + 1)]. *)
Definition Qlog2 (a : Q) : Z :=
  let k := (Z.log2 (Qnum a) - Z.log2 (Zpos (Qden a)))%Z in
  if Qle_bool (pow2 k) a then k else (k - 1)%Z.

(** The nearest integer, ties to the even one. *)
Definition roundEven (x : Q) : Z :=
  let f := Qfloor x in
  match (x - inject_Z f ?= 1 # 2)%Q with
  | Lt => f
  | Gt => (f + 1)%Z
  | Eq => if Z.even f then f else (f + 1)%Z
  end.

(** The distance between neighbouring binary64 numbers around [q]: 53
    bits of precision, exponents from -1022 on (below, the subnormal
    numbers are 2 ^ -1074 apart). *)
Definition ulp (q : Q) : Q :=
  pow2 (Z.max (Qlog2 (Qabs q)) (-1022) - 52).

(** The multiple of [ulp q] nearest to [q], ties to even. *)
Definition nearest (q : Q) : Q :=
  (inject_Z (roundEven (q / ulp q)) * ulp q)%Q.

(** The binary64 an exact result [q] is rounded to: [nearest q], or an
    infinity from 2 ^ 1024 on; [zero] is the sign of the zero an exact
    zero gives, and a result that underflows keeps its sign. *)
Definition round (zero : bool) (q : Q) : Number :=
  let r := nearest q in
  if Qeq_bool q 0 then Zero zero
  else if Qeq_bool r 0 then Zero (negb (Qle_bool 0 q))
  else if Qle_bool (pow2 1024) (Qabs r) then Infinity (negb (Qle_bool 0 q))
  else Finite (Qred r).

(** A finite number read from a property. *)
Definition number (q : Q) : Number :=
  if Qeq_bool q 0 then Zero false else Finite q.

Definition negative (x : Number) : bool :=
  match x with
  | NaN => false
  | Infinity s | Zero s => s
  | Finite q => negb (Qle_bool 0 q)
  end.

Definition val (x : Number) : Q :=
  match x with
  | Finite q => q
  | _ => 0
  end.

(** [- x]. *)
Definition neg (x : Number) : Number :=
  match x with
  | NaN => NaN
  | Infinity s => Infinity (negb s)
  | Zero s => Zero (negb s)
  | Finite q => Finite (- q)
  end.

(** [x + y]. *)
Definition add64 (x y : Number) : Number :=
  match x, y with
  | NaN, _ | _, NaN => NaN
  | Infinity s, Infinity s' => if Bool.eqb s s' then x else NaN
  | Infinity _, _ => x
  | _, Infinity _ => y
  | Zero s, Zero s' => Zero (s && s')
  | _, _ => round false (val x + val y)
  end.

(** [x - y]. *)
Definition sub64 (x y : Number) : Number := add64 x (neg y).

(** [x / y]. *)
Definition div64 (x y : Number) : Number :=
  let s := xorb (negative x) (negative y) in
  match x, y with
  | NaN, _ | _, NaN => NaN
  | Infinity _, Infinity _ => NaN
  | Infinity _, _ => Infinity s
  | _, Infinity _ => Zero s
  | Zero _, Zero _ => NaN
  | _, Zero _ => Infinity s
  | Zero _, _ => Zero s
  | Finite a, Finite b => round s (a / b)
  end.

(** [x <= y] and [x < y]. *)
Definition leq64 (x y : Number) : bool :=
  match x, y with
  | NaN, _ | _, NaN => false
  | Infinity true, _ => true
  | _, Infinity false => true
  | Infinity false, _ => false
  | _, Infinity true => false
  | _, _ => Qle_bool (val x) (val y)
  end.

Definition lt64 (x y : Number) : bool := leq64 x y && negb (leq64 y x).

(** The object [getMass] returns. *)
Record Mass : Type := mkMass {
  m_fromNode : Number;
  m_toNode : Number
}.

(** [getMass] (source lines 516-525), called on a link; [nodes] is the
    store its [fromNode] and [toNode] refer to. The mass of a node is a
    finite number. *)
Definition getMass (nodes : list Point) (this : Point) : Result Mass :=
  fromNode ← deref nodes (p_fromNode this);
  toNode ← deref nodes (p_toNode this);
  let m1 := number (p_mass fromNode) in
  let m2 := number (p_mass toNode) in
  let sum := add64 m1 m2 in
  Ok {| m_fromNode := sub64 (Finite 1) (div64 m1 sum);
        m_toNode := sub64 (Finite 1) (div64 m2 sum) |}.

(** ** The series *)

(** An entry of [series.options.nodes]. *)
Record NodeOptions : Type := mkNodeOptions {
  no_id : string;
  no_mass : option Q
}.

(** [series.options.layoutAlgorithm], as far as this module reads it. *)
Record LayoutOptions : Type := mkLayoutOptions {
  lo_type : string;
  lo_enableSimulation : bool
}.

Record SeriesOptions : Type := mkSeriesOptions {
  o_nodes : option (list NodeOptions);
  o_layoutAlgorithm : LayoutOptions;
  o_fixedDraggable : bool
}.

(** A networkgraph series. [s_nodes] is [this.nodes] (undefined before
    the first [generatePoints]), [s_points] is [this.points], [s_layout]
    is [this.layout]. *)
Record Series : Type := mkSeries {
  s_index : nat;
  s_visible : bool;
  s_options : SeriesOptions;
  s_layout : option ref;
  s_nodes : option (list Point);
  s_points : list Point
}.

Definition set_nodes_points (nodes : list Point) (points : list Point)
    (this : Series) : Series :=
  {| s_index := s_index this; s_visible := s_visible this;
     s_options := s_options this; s_layout := s_layout this;
     s_nodes := Some nodes; s_points := points |}.

Definition set_layout (layout : ref) (layoutOptions : LayoutOptions)
    (this : Series) : Series :=
  {| s_index := s_index this; s_visible := s_visible this;
     s_options :=
       {| o_nodes := o_nodes (s_options this);
          o_layoutAlgorithm := layoutOptions;
          o_fixedDraggable := o_fixedDraggable (s_options this) |};
     s_layout := Some layout;
     s_nodes := s_nodes this; s_points := s_points this |}.

(** ** The chart and the layouts *)

(** The chart, as far as this module reads and writes it.
    [c_graphLayoutsStorage] is [chart.graphLayoutsStorage], a dictionary
    from an algorithm type to the layout created for it. *)
Record Chart : Type := mkChart {
  c_plotWidth : Q;
  c_plotHeight : Q;
  c_forExport : option bool;
  c_graphLayoutsStorage : option (gmap string ref)
}.

(** The methods of a layout this module calls, with their arguments;
    [AddSeries], [AddNodes] and [AddLinks] carry the index of the series
    whose [this], [this.nodes] and [this.points] are passed. *)
Inductive Call : Type :=
| SetArea (x y w h : Q)
| AddSeries (s : nat)
| AddNodes (s : nat)
| AddLinks (s : nat)
| Stop
| Run
| SetMaxIterations (n : Z)
| SetInitialRendering (b : bool)
| ResetSimulation.

(** The layout classes of layouts.js ([H.layouts]) are not part of this
    module. A layout implementation is a parameter: its state, its
    constructor for an algorithm type ([None] where [H.layouts] has no
    such type), what each method does to the state, and the two
    properties this module reads. *)
Class Layouts : Type := {
  lstate : Type;
  construct : string -> LayoutOptions -> option lstate;
  invoke : Call -> lstate -> lstate;
  simulation : lstate -> bool;
  enableSimulation : lstate -> bool
}.

(** The members of the host the module calls and does not define:
    the base class's [generatePoints], which builds [this.points] from
    the data, the chart's [isInsidePlot], and the mass the options give
    to the node of a key. *)
Class Host : Type := {
  Series_generatePoints : Series -> list Point;
  isInsidePlot : Chart -> option Q -> option Q -> bool;
  nodeMass : string -> Q
}.

(** A layout object: the state of its implementation and the method
    calls it has received, oldest first. *)
Record Layout `{Layouts} : Type := mkLayout {
  l_state : lstate;
  l_calls : list Call
}.

(** The chart together with the store of the layouts created so far. *)
Record World `{Layouts} : Type := mkWorld {
  w_chart : Chart;
  w_layouts : list Layout
}.

(** [layout.m(args)]: the method acts on the layout and is recorded. *)
Definition receive `{Layouts} (c : Call) (l : Layout) : Layout :=
  {| l_state := invoke c (l_state l); l_calls := l_calls l ++ [c] |}.

Definition call `{Layouts} (c : Call) (layout : ref) (w : World) : World :=
  {| w_chart := w_chart w;
     w_layouts := alter (receive c) layout (w_layouts w) |}.

(** [series.layout.m(args)]: throws when the series has no layout. *)
Definition callOn `{Layouts} (layout : option ref) (c : Call) (w : World)
    : Result World :=
  match layout with
  | Some r => Ok (call c r w)
  | None => TypeError
  end.

(** The calls a layout has received; none for a reference that is not
    in the store. *)
Definition calls `{Layouts} (w : World) (layout : ref) : list Call :=
  match w_layouts w !! layout with
  | Some l => l_calls l
  | None => []
  end.

Definition storage `{Layouts} (w : World) : gmap string ref :=
  default ∅ (c_graphLayoutsStorage (w_chart w)).

(** ** Node generation *)

(** Modelled from the spec: [createNode] of the nodes mixin, which is
    not part of this module. "Adding a node with an existing key is a
    no-op returning the existing node"; otherwise a node of that key,
    with no links and no position yet, is added to [this.nodes]. The
    result is the reference of the node and the new [this.nodes]. *)
Definition createNode `{Host} (id : string) (nodes : list Point)
    : ref * list Point :=
  match list_find (λ node, p_id node = Some id) nodes with
  | Some (i, _) => (i, nodes)
  | None =>
      (List.length nodes,
       nodes ++ [ {| p_isNode := true; p_id := Some id; p_name := Some id;
                     p_from := None; p_to := None;
                     p_fromNode := None; p_toNode := None;
                     p_linksFrom := []; p_linksTo := [];
                     p_mass := nodeMass id;
                     p_plotX := None; p_plotY := None;
                     p_dispX := None; p_dispY := None;
                     p_fixedPosition := None; p_inDragMode := false |} ])
  end.

(** [node.linksFrom.length = 0; node.linksTo.length = 0]. *)
Definition resetLinks (node : Point) : Point :=
  {| p_isNode := p_isNode node; p_id := p_id node; p_name := p_name node;
     p_from := p_from node; p_to := p_to node;
     p_fromNode := p_fromNode node; p_toNode := p_toNode node;
     p_linksFrom := []; p_linksTo := [];
     p_mass := p_mass node;
     p_plotX := p_plotX node; p_plotY := p_plotY node;
     p_dispX := p_dispX node; p_dispY := p_dispY node;
     p_fixedPosition := p_fixedPosition node;
     p_inDragMode := p_inDragMode node |}.

(** [node.linksFrom.push(point)] and [node.linksTo.push(point)]. *)
Definition pushLinksFrom (point : ref) (node : Point) : Point :=
  {| p_isNode := p_isNode node; p_id := p_id node; p_name := p_name node;
     p_from := p_from node; p_to := p_to node;
     p_fromNode := p_fromNode node; p_toNode := p_toNode node;
     p_linksFrom := p_linksFrom node ++ [point];
     p_linksTo := p_linksTo node;
     p_mass := p_mass node;
     p_plotX := p_plotX node; p_plotY := p_plotY node;
     p_dispX := p_dispX node; p_dispY := p_dispY node;
     p_fixedPosition := p_fixedPosition node;
     p_inDragMode := p_inDragMode node |}.

Definition pushLinksTo (point : ref) (node : Point) : Point :=
  {| p_isNode := p_isNode node; p_id := p_id node; p_name := p_name node;
     p_from := p_from node; p_to := p_to node;
     p_fromNode := p_fromNode node; p_toNode := p_toNode node;
     p_linksFrom := p_linksFrom node;
     p_linksTo := p_linksTo node ++ [point];
     p_mass := p_mass node;
     p_plotX := p_plotX node; p_plotY := p_plotY node;
     p_dispX := p_dispX node; p_dispY := p_dispY node;
     p_fixedPosition := p_fixedPosition node;
     p_inDragMode := p_inDragMode node |}.

(** [point.fromNode = node], [point.toNode = node] and
    [point.name = point.name || point.id] on a data point. *)
Definition set_fromNode (node : ref) (point : Point) : Point :=
  {| p_isNode := p_isNode point; p_id := p_id point; p_name := p_name point;
     p_from := p_from point; p_to := p_to point;
     p_fromNode := Some node; p_toNode := p_toNode point;
     p_linksFrom := p_linksFrom point; p_linksTo := p_linksTo point;
     p_mass := p_mass point;
     p_plotX := p_plotX point; p_plotY := p_plotY point;
     p_dispX := p_dispX point; p_dispY := p_dispY point;
     p_fixedPosition := p_fixedPosition point;
     p_inDragMode := p_inDragMode point |}.

Definition set_toNode (node : ref) (point : Point) : Point :=
  {| p_isNode := p_isNode point; p_id := p_id point; p_name := p_name point;
     p_from := p_from point; p_to := p_to point;
     p_fromNode := p_fromNode point; p_toNode := Some node;
     p_linksFrom := p_linksFrom point; p_linksTo := p_linksTo point;
     p_mass := p_mass point;
     p_plotX := p_plotX point; p_plotY := p_plotY point;
     p_dispX := p_dispX point; p_dispY := p_dispY point;
     p_fixedPosition := p_fixedPosition point;
     p_inDragMode := p_inDragMode point |}.

Definition set_name (point : Point) : Point :=
  {| p_isNode := p_isNode point; p_id := p_id point;
     p_name := match p_name point with
               | Some n => if String.eqb n "" then p_id point else Some n
               | None => p_id point
               end;
     p_from := p_from point; p_to := p_to point;
     p_fromNode := p_fromNode point; p_toNode := p_toNode point;
     p_linksFrom := p_linksFrom point; p_linksTo := p_linksTo point;
     p_mass := p_mass point;
     p_plotX := p_plotX point; p_plotY := p_plotY point;
     p_dispX := p_dispX point; p_dispY := p_dispY point;
     p_fixedPosition := p_fixedPosition point;
     p_inDragMode := p_inDragMode point |}.

(** The variables [generatePoints] threads through its loops: the local
    [nodeLookup] and [this.nodes]. *)
Record GenState : Type := mkGenState {
  g_lookup : gmap string ref;
  g_nodes : list Point
}.

(** [if (!nodeLookup[key]) { nodeLookup[key] = this.createNode(key); }] *)
Definition ensureNode `{Host} (key : string) (st : GenState) : GenState :=
  if negb (truthy (js_get (g_lookup st) key)) then
    let '(node, nodes) := createNode key (g_nodes st) in
    {| g_lookup := <[key := node]> (g_lookup st); g_nodes := nodes |}
  else st.

(** [nodeLookup[key].linksFrom.push(point)] (or [linksTo]), giving the
    node [nodeLookup[key]]: an inherited member has no [linksFrom], and
    pushing to [undefined] throws. *)
Definition pushLink (push : ref -> Point -> Point) (key : string)
    (point : ref) (st : GenState) : Result (ref * GenState) :=
  match js_get (g_lookup st) key with
  | Own node =>
      Ok (node, {| g_lookup := g_lookup st;
                   g_nodes := alter (push point) node (g_nodes st) |})
  | Inherited => TypeError
  | Undefined => TypeError
  end.

(** The body of [this.points.forEach] (source lines 258-287) for the
    point of index [i]. The colour a link takes from its [fromNode] is
    left out: it touches neither the nodes nor the lookup. *)
Definition linkPoint `{Host} (i : ref) (point : Point) (st : GenState)
    : Result (Point * GenState) :=
  '(point, st) ←
    match p_from point with
    | Some from =>
        let st := ensureNode from st in
        '(node, st) ← pushLink pushLinksFrom from i st;
        Ok (set_fromNode node point, st)
    | None => Ok (point, st)
    end;
  '(point, st) ←
    match p_to point with
    | Some to =>
        let st := ensureNode to st in
        '(node, st) ← pushLink pushLinksTo to i st;
        Ok (set_toNode node point, st)
    | None => Ok (point, st)
    end;
  Ok (set_name point, st).

Fixpoint linkPoints `{Host} (i : ref) (points : list Point) (st : GenState)
    : Result (list Point * GenState) :=
  match points with
  | [] => Ok ([], st)
  | point :: rest =>
      '(point, st) ← linkPoint i point st;
      '(rest, st) ← linkPoints (S i) rest st;
      Ok (point :: rest, st)
  end.

(** The body of [this.options.nodes.forEach] (source lines 291-299). *)
Definition declareNodes `{Host} (nodes : list NodeOptions) (st : GenState)
    : GenState :=
  foldl (λ st nodeOptions, ensureNode (no_id nodeOptions) st) st nodes.

(** [generatePoints] (source lines 240-301). *)
Definition generatePoints `{Host} (this : Series) : Result Series :=
  let nodeLookup : gmap string ref := ∅ in
  let points := Series_generatePoints this in
  let nodes := default [] (s_nodes this) in
  let nodes := resetLinks <$> nodes in
  '(points, st) ← linkPoints 0 points
                    {| g_lookup := nodeLookup; g_nodes := nodes |};
  let st := match o_nodes (s_options this) with
            | Some nodeOptions => declareNodes nodeOptions st
            | None => st
            end in
  Ok (set_nodes_points (g_nodes st) points this).

(** ** Layout registration *)

(** The four calls that end [deferLayout] (source lines 364-367). *)
Definition register `{Layouts} (this : Series) (layout : ref) (w : World)
    : World :=
  let chart := w_chart w in
  let w := call (SetArea 0 0 (c_plotWidth chart) (c_plotHeight chart))
                layout w in
  let w := call (AddSeries (s_index this)) layout w in
  let w := call (AddNodes (s_index this)) layout w in
  call (AddLinks (s_index this)) layout w.

(** [layoutOptions.enableSimulation] as source lines 354-356 assign it. *)
Definition exportAware (chart : Chart) (layoutOptions : LayoutOptions)
    : LayoutOptions :=
  {| lo_type := lo_type layoutOptions;
     lo_enableSimulation :=
       if negb (defined (c_forExport chart))
       then lo_enableSimulation layoutOptions
       else negb (default false (c_forExport chart)) |}.

Definition set_storage `{Layouts} (st : gmap string ref)
    (layouts : list Layout) (w : World) : World :=
  {| w_chart :=
       {| c_plotWidth := c_plotWidth (w_chart w);
          c_plotHeight := c_plotHeight (w_chart w);
          c_forExport := c_forExport (w_chart w);
          c_graphLayoutsStorage := Some st |};
     w_layouts := layouts |}.

(** [deferLayout] (source lines 337-368). The new layout is appended to
    the store of layouts, so its reference is the store's length. When
    [graphLayoutsStorage[type]] is an inherited member, [layout] is that
    member and [layout.setArea] is not a function. *)
Definition deferLayout `{Layouts} (this : Series) (w : World)
    : Result (Series * World) :=
  let layoutOptions := o_layoutAlgorithm (s_options this) in
  let chart := w_chart w in
  if negb (s_visible this) then Ok (this, w) else
  let graphLayoutsStorage := storage w in
  let layout := js_get graphLayoutsStorage (lo_type layoutOptions) in
  if negb (truthy layout) then
    let layoutOptions := exportAware chart layoutOptions in
    match construct (lo_type layoutOptions) layoutOptions with
    | Some state =>
        let layout := List.length (w_layouts w) in
        let w := set_storage
                   (<[lo_type layoutOptions := layout]> graphLayoutsStorage)
                   (w_layouts w ++ [ {| l_state := state; l_calls := [] |} ])
                   w in
        Ok (set_layout layout layoutOptions this, register this layout w)
    | None => TypeError
    end
  else
    match layout with
    | Own layout =>
        let w := set_storage graphLayoutsStorage (w_layouts w) w in
        Ok (set_layout layout layoutOptions this, register this layout w)
    | Inherited => TypeError
    | Undefined => TypeError
    end.

(** [translate] (source lines 316-335): the points are generated, then
    the layout is registered. The flags it sets on nodes and links
    afterwards ([isInside], [shapeType], [y]) are not modelled. *)
Definition translate `{Layouts} `{Host} (this : Series) (w : World)
    : Result (Series * World) :=
  this ← generatePoints this;
  deferLayout this w.

(** ** Dragging *)

(** The normalised event ([chart.pointer.normalize(event)]). *)
Record MouseEvent : Type := mkMouseEvent {
  e_chartX : Q;
  e_chartY : Q
}.

Definition set_drag (fixedPosition : option FixedPosition)
    (inDragMode : bool) (point : Point) : Point :=
  {| p_isNode := p_isNode point; p_id := p_id point; p_name := p_name point;
     p_from := p_from point; p_to := p_to point;
     p_fromNode := p_fromNode point; p_toNode := p_toNode point;
     p_linksFrom := p_linksFrom point; p_linksTo := p_linksTo point;
     p_mass := p_mass point;
     p_plotX := p_plotX point; p_plotY := p_plotY point;
     p_dispX := p_dispX point; p_dispY := p_dispY point;
     p_fixedPosition := fixedPosition;
     p_inDragMode := inDragMode |}.

Definition set_plot (plotX plotY : option Q) (point : Point) : Point :=
  {| p_isNode := p_isNode point; p_id := p_id point; p_name := p_name point;
     p_from := p_from point; p_to := p_to point;
     p_fromNode := p_fromNode point; p_toNode := p_toNode point;
     p_linksFrom := p_linksFrom point; p_linksTo := p_linksTo point;
     p_mass := p_mass point;
     p_plotX := plotX; p_plotY := plotY;
     p_dispX := p_dispX point; p_dispY := p_dispY point;
     p_fixedPosition := p_fixedPosition point;
     p_inDragMode := p_inDragMode point |}.

(** [a > b] on numbers. *)
Definition Qgtb (a b : Q) : bool := negb (Qle_bool a b).

(** [a - b] where [a] may be undefined: the difference is then [NaN]. *)
Definition minus (a : option Q) (b : Q) : option Q :=
  (λ a, (a - b)%Q) <$> a.

(** [onMouseDown] (source lines 415-426). *)
Definition onMouseDown (point : Point) (normalizedEvent : MouseEvent)
    : Point :=
  set_drag
    (Some {| fp_chartX := e_chartX normalizedEvent;
             fp_chartY := e_chartY normalizedEvent;
             fp_plotX := p_plotX point;
             fp_plotY := p_plotY point |})
    true point.

(** Source lines 448-463: start a new simulation, or extend the current
    one. *)
Definition runOrExtend `{Layouts} (series : Series) (w : World)
    : Result World :=
  layout ← deref (w_layouts w) (s_layout series);
  if negb (simulation (l_state layout)) then
    w ← (if negb (enableSimulation (l_state layout))
         then callOn (s_layout series) (SetMaxIterations 1) w
         else Ok w);
    w ← callOn (s_layout series) (SetInitialRendering false) w;
    w ← callOn (s_layout series) Run w;
    callOn (s_layout series) (SetInitialRendering true) w
  else
    callOn (s_layout series) ResetSimulation w.

(** The calls [runOrExtend] makes on a layout in state [l]. *)
Definition dragCalls `{Layouts} (l : Layout) : list Call :=
  if simulation (l_state l) then [ResetSimulation]
  else (if enableSimulation (l_state l) then [] else [SetMaxIterations 1])
       ++ [SetInitialRendering false; Run; SetInitialRendering true].

(** [onMouseMove] (source lines 427-467). [series.redrawHalo()] is
    called without a point and so does nothing. *)
Definition onMouseMove `{Layouts} `{Host} (series : Series) (point : Point)
    (normalizedEvent : MouseEvent) (w : World) : Result (Point * World) :=
  match p_fixedPosition point with
  | Some fixedPosition =>
      if p_inDragMode point then
        let chart := w_chart w in
        let diffX := (fp_chartX fixedPosition - e_chartX normalizedEvent)%Q in
        let diffY := (fp_chartY fixedPosition - e_chartY normalizedEvent)%Q in
        if Qgtb (Qabs diffX) 5 || Qgtb (Qabs diffY) 5 then
          let newPlotX := minus (fp_plotX fixedPosition) diffX in
          let newPlotY := minus (fp_plotY fixedPosition) diffY in
          if isInsidePlot chart newPlotX newPlotY then
            let point := set_plot newPlotX newPlotY point in
            w ← runOrExtend series w;
            Ok (point, w)
          else Ok (point, w)
        else Ok (point, w)
      else Ok (point, w)
  | None => Ok (point, w)
  end.

(** [onMouseUp] (source lines 468-476). *)
Definition onMouseUp `{Layouts} (this : Series) (point : Point) (w : World)
    : Result (Point * World) :=
  match p_fixedPosition point with
  | Some fixedPosition =>
      w ← callOn (s_layout this) Run w;
      let point := set_drag (Some fixedPosition) false point in
      if negb (o_fixedDraggable (s_options this))
      then Ok (set_drag None false point, w)
      else Ok (point, w)
  | None => Ok (point, w)
  end.


(** A drag gesture after the button went down: the moves, in order. *)
Fixpoint drag `{Layouts} `{Host} (series : Series) (point : Point)
    (moves : list MouseEvent) (w : World) : Result (Point * World) :=
  match moves with
  | [] => Ok (point, w)
  | e :: moves =>
      '(point, w) ← onMouseMove series point e w;
      drag series point moves w
  end.

(** ** Event handlers *)

(** [H.objectEach(obj, fn)]: [fn] on the value of each own property. *)
Definition objectEach `{Layouts} (fn : ref -> World -> World)
    (obj : gmap string ref) (w : World) : World :=
  foldl (λ w kv, fn (snd kv) w) w (map_to_list obj).

(** The [updatedData] handler of the series (source lines 565-569). *)
Definition on_updatedData `{Layouts} (this : Series) (w : World) : World :=
  match s_layout this with
  | Some layout => call Stop layout w
  | None => w
  end.

(** The [predraw] handler of the chart (source lines 585-594). *)
Definition on_predraw `{Layouts} (w : World) : World :=
  match c_graphLayoutsStorage (w_chart w) with
  | Some graphLayoutsStorage => objectEach (call Stop) graphLayoutsStorage w
  | None => w
  end.

(** The [render] handler of the chart (source lines 595-605);
    [H.setAnimation] does not touch the layouts. *)
Definition on_render `{Layouts} (w : World) : World :=
  match c_graphLayoutsStorage (w_chart w) with
  | Some graphLayoutsStorage => objectEach (call Run) graphLayoutsStorage w
  | None => w
  end.

(** [translate] on each series of the chart, in order. *)
Fixpoint translateAll `{Layouts} `{Host} (series : list Series) (w : World)
    : Result (list Series * World) :=
  match series with
  | [] => Ok ([], w)
  | s :: rest =>
      '(s, w) ← translate s w;
      '(rest, w) ← translateAll rest w;
      Ok (s :: rest, w)
  end.

(** Modelled from the spec: the redraw of the host chart, which is not
    part of this module. It fires [predraw], translates the series, and
    fires [render] last ("reset always precedes the next run"). *)
Definition redraw `{Layouts} `{Host} (series : list Series) (w : World)
    : Result (list Series * World) :=
  let w := on_predraw w in
  '(series, w) ← translateAll series w;
  Ok (series, on_render w).

(** The plot area changes size (the chart is resized). *)
Definition resize `{Layouts} (plotWidth plotHeight : Q) (w : World)
    : World :=
  {| w_chart :=
       {| c_plotWidth := plotWidth; c_plotHeight := plotHeight;
          c_forExport := c_forExport (w_chart w);
          c_graphLayoutsStorage := c_graphLayoutsStorage (w_chart w) |};
     w_layouts := w_layouts w |}.

(** ** Reference instances

    A layout implementation and a host to evaluate the definitions on:
    one registered algorithm, methods that only get recorded, a plot
    that contains the points between its edges, and every node of
    mass 4. *)

Definition recordingLayouts : Layouts :=
  {| lstate := bool * bool;
     construct := λ type layoutOptions,
       if String.eqb type "reingold-fruchterman"
       then Some (false, lo_enableSimulation layoutOptions)
       else None;
     invoke := λ _ st, st;
     simulation := fst;
     enableSimulation := snd |}.

Definition inside (lo hi : Q) (x : option Q) : bool :=
  match x with
  | Some x => Qle_bool lo x && Qle_bool x hi
  | None => false
  end.

Definition plainHost : Host :=
  {| Series_generatePoints := s_points;
     isInsidePlot := λ chart plotX plotY,
       inside 0 (c_plotWidth chart) plotX
       && inside 0 (c_plotHeight chart) plotY;
     nodeMass := λ _, 4%Q |}.

(** A link of the data, before [generatePoints] has seen it. *)
Definition link (from to : option string) : Point :=
  {| p_isNode := false; p_id := None; p_name := None;
     p_from := from; p_to := to;
     p_fromNode := None; p_toNode := None;
     p_linksFrom := []; p_linksTo := [];
     p_mass := 0;
     p_plotX := None; p_plotY := None;
     p_dispX := None; p_dispY := None;
     p_fixedPosition := None; p_inDragMode := false |}.

(** A node of the given mass at the given position. *)
Definition node (id : string) (mass : Q) (plotX plotY : option Q)
    (linksFrom linksTo : list ref) : Point :=
  {| p_isNode := true; p_id := Some id; p_name := Some id;
     p_from := None; p_to := None;
     p_fromNode := None; p_toNode := None;
     p_linksFrom := linksFrom; p_linksTo := linksTo;
     p_mass := mass;
     p_plotX := plotX; p_plotY := plotY;
     p_dispX := None; p_dispY := None;
     p_fixedPosition := None; p_inDragMode := false |}.

(** A series of the default algorithm type. *)
Definition series (index : nat) (visible : bool) (type : string)
    (nodes : option (list NodeOptions)) (points : list Point) : Series :=
  {| s_index := index; s_visible := visible;
     s_options :=
       {| o_nodes := nodes;
          o_layoutAlgorithm :=
            {| lo_type := type; lo_enableSimulation := false |};
          o_fixedDraggable := false |};
     s_layout := None; s_nodes := None; s_points := points |}.

(** A chart that has not laid out any graph yet. *)
Definition freshWorld `{Layouts} (plotWidth plotHeight : Q) : World :=
  {| w_chart :=
       {| c_plotWidth := plotWidth; c_plotHeight := plotHeight;
          c_forExport := None; c_graphLayoutsStorage := None |};
     w_layouts := [] |}.

(** ** Invariants and vocabulary of the statements *)

(** The layouts of a chart are well formed when every stored reference
    is in the store of layouts and no two algorithm types share one. *)
Definition wf `{Layouts} (w : World) : Prop :=
  (∀ k r, storage w !! k = Some r → r < List.length (w_layouts w))
  ∧ (∀ k1 k2 r,
       storage w !! k1 = Some r → storage w !! k2 = Some r → k1 = k2).

(** The calls [deferLayout] makes. *)
Definition isRegistration (c : Call) : Prop :=
  match c with
  | SetArea _ _ _ _ | AddSeries _ | AddNodes _ | AddLinks _ => True
  | _ => False
  end.

(** The calls [register] makes on the layout, in order. *)
Definition registration `{Layouts} (this : Series) (w : World) : list Call :=
  [ SetArea 0 0 (c_plotWidth (w_chart w)) (c_plotHeight (w_chart w));
    AddSeries (s_index this); AddNodes (s_index this);
    AddLinks (s_index this) ].

(** The type a series asks for. *)
Definition layoutType (this : Series) : string :=
  lo_type (o_layoutAlgorithm (s_options this)).

(** One layout per algorithm type and area: two visible series that
    register one after the other, the plot being [plotWidth] by
    [plotHeight] at the second registration, share their layout when
    type and area agree and have distinct layouts when either differs. *)
Definition layoutPerTypeAndArea `{Layouts} : Prop :=
  ∀ (s1 s2 s1' s2' : Series) (w w1 w2 : World) (plotWidth plotHeight : Q),
    wf w → s_visible s1 = true → s_visible s2 = true →
    deferLayout s1 w = Ok (s1', w1) →
    deferLayout s2 (resize plotWidth plotHeight w1) = Ok (s2', w2) →
    let sameArea :=
      (plotWidth == c_plotWidth (w_chart w))%Q
      ∧ (plotHeight == c_plotHeight (w_chart w))%Q in
    (layoutType s1 = layoutType s2 ∧ sameArea →
       s_layout s1' = s_layout s2')
    ∧ (layoutType s1 ≠ layoutType s2 ∨ ¬ sameArea →
       s_layout s1' ≠ s_layout s2').


(** The lighter endpoint receives the larger share: on a link between
    two nodes of positive masses, the share [getMass] returns for the
    node of smaller mass is greater than the share of the other. *)
Definition lighterGetsMore : Prop :=
  ∀ (nodes : list Point) (this fromNode toNode : Point) (i j : ref)
    (m : Mass),
    p_fromNode this = Some i → nodes !! i = Some fromNode →
    p_toNode this = Some j → nodes !! j = Some toNode →
    (0 < p_mass fromNode)%Q → (p_mass fromNode < p_mass toNode)%Q →
    getMass nodes this = Ok m →
    lt64 (m_toNode m) (m_fromNode m) = true.

(** All of a node but its links. *)
Definition body (node : Point) : Point := resetLinks node.

(** The keys the data and the [nodes] option of a series name. *)
Definition dataKeys (points : list Point) : list string :=
  omap p_from points ++ omap p_to points.

Definition optionKeys (this : Series) : list string :=
  no_id <$> default [] (o_nodes (s_options this)).

(** A point refers to the nodes its keys name. *)
Definition resolved (nodes : list Point) (point : Point) : Prop :=
  (∀ k, p_from point = Some k →
     ∃ r n, p_fromNode point = Some r ∧ nodes !! r = Some n
            ∧ p_id n = Some k)
  ∧ (∀ k, p_to point = Some k →
       ∃ r n, p_toNode point = Some r ∧ nodes !! r = Some n
              ∧ p_id n = Some k).

(** The bodies of the nodes of a state of [generatePoints]. *)
Definition bodies (st : GenState) : list Point := body <$> g_nodes st.

(** The lookup is sound: node keys are unique, and a key is mapped to a
    node of that key. *)
Definition lookupOk (st : GenState) : Prop :=
  NoDup (p_id <$> bodies st)
  ∧ ∀ k r, g_lookup st !! k = Some r →
           ∃ b, bodies st !! r = Some b ∧ p_id b = Some k.

(** A later state: the lookup has grown, and so has the list of nodes,
    the bodies of the earlier nodes being as they were. *)
Definition extends (st st' : GenState) : Prop :=
  g_lookup st ⊆ g_lookup st' ∧ bodies st `prefix_of` bodies st'.

(** A point refers to the nodes the lookup has for its keys. *)
Definition linked (st : GenState) (point : Point) : Prop :=
  (∀ k, p_from point = Some k →
     ∃ r, p_fromNode point = Some r ∧ g_lookup st !! k = Some r)
  ∧ (∀ k, p_to point = Some k →
       ∃ r, p_toNode point = Some r ∧ g_lookup st !! k = Some r).

(** The keys of a point are not names a plain object inherits. *)
Definition plainKeys (point : Point) : Prop :=
  (∀ k, p_from point = Some k → inherited k = false)
  ∧ (∀ k, p_to point = Some k → inherited k = false).

(** No node has a key that is a name a plain object inherits. *)
Definition plainIds (nodes : list Point) : Prop :=
  ∀ k, Some k ∈ p_id <$> nodes → inherited k = false.

(** No name a plain object inherits is an own property of the lookup
    or the key of a node. *)
Definition ownPlain (st : GenState) : Prop :=
  (∀ k, inherited k = true → g_lookup st !! k = None)
  ∧ plainIds (g_nodes st).

(** ** Sample data *)

(** A chart of 400 by 300 with one layout, no simulation running and
    live simulation off, and a series registered with it. *)
Definition dragWorld : @World recordingLayouts :=
  {| w_chart :=
       {| c_plotWidth := 400; c_plotHeight := 300; c_forExport := None;
          c_graphLayoutsStorage := Some {[ "reingold-fruchterman" := 0 ]} |};
     w_layouts := [ @mkLayout recordingLayouts (false, false) [] ] |}.

Definition dragSeries : Series :=
  set_layout 0
    {| lo_type := "reingold-fruchterman"; lo_enableSimulation := false |}
    (series 0 true "reingold-fruchterman" None []).

(** A node at (100, 100) on which the button went down at (110, 120). *)
Definition dragStart : FixedPosition :=
  {| fp_chartX := 110; fp_chartY := 120;
     fp_plotX := Some 100%Q; fp_plotY := Some 100%Q |}.

Definition dragPoint : Point :=
  onMouseDown (node "a" 4 (Some 100%Q) (Some 100%Q) [] [])
              {| e_chartX := 110; e_chartY := 120 |}.

(** The value of a statement that does not throw. *)
Definition fromOk {A} (d : A) (r : Result A) : A :=
  match r with
  | Ok a => a
  | TypeError => d
  end.

(** Two series of the same algorithm type on a chart of 400 by 300; the
    second registers after the plot has grown to 800 by 600. *)
Definition sampleA : Series :=
  series 0 true "reingold-fruchterman" None [].

Definition sampleB : Series :=
  series 1 true "reingold-fruchterman" None [].

Definition afterA : Series * @World recordingLayouts :=
  fromOk (sampleA, freshWorld 400 300)
         (deferLayout sampleA (freshWorld 400 300)).

Definition afterB : Series * @World recordingLayouts :=
  fromOk (sampleB, resize 800 600 (snd afterA))
         (deferLayout sampleB (resize 800 600 (snd afterA))).

(** The chart is redrawn once the first series has registered. *)
Definition afterRedraw : list Series * @World recordingLayouts :=
  fromOk ([], snd afterA)
         (@redraw recordingLayouts plainHost [fst afterA] (snd afterA)).

(** A series whose only link starts at a node called "constructor", and
    a series that declares such a node next to a link from "a" to "b". *)
Definition linkFromConstructor : Series :=
  series 0 true "reingold-fruchterman" None
    [ link (Some "constructor") (Some "b") ].

Definition declaresConstructor : Series :=
  series 0 true "reingold-fruchterman"
    (Some [ {| no_id := "constructor"; no_mass := None |} ])
    [ link (Some "a") (Some "b") ].

(** ** Vocabulary of the further properties *)

(** The node [createNode] adds for a key that has none. *)
Definition freshNode `{Host} (id : string) : Point :=
  {| p_isNode := true; p_id := Some id; p_name := Some id;
     p_from := None; p_to := None;
     p_fromNode := None; p_toNode := None;
     p_linksFrom := []; p_linksTo := [];
     p_mass := nodeMass id;
     p_plotX := None; p_plotY := None;
     p_dispX := None; p_dispY := None;
     p_fixedPosition := None; p_inDragMode := false |}.

(** The indices, counted from [i], of the points whose key [sel] (their
    [from] or their [to]) is [k]. *)
Fixpoint incident (sel : Point → option string) (k : string) (i : nat)
    (points : list Point) : list nat :=
  match points with
  | [] => []
  | point :: rest =>
      (if decide (sel point = Some k) then [i] else [])
      ++ incident sel k (S i) rest
  end.

(** The number of link ends at the key [k]: a link from a node to
    itself counts twice. *)
Definition linkCount (k : string) (points : list Point) : nat :=
  List.length (filter (λ point, p_from point = Some k) points)
  + List.length (filter (λ point, p_to point = Some k) points).

(** The links the nodes hold: a node of key [k] holds [F k] and [T k], a
    node without a key holds none, and a key that is not in the lookup
    has no link yet. *)
Definition linksOk (F T : string → list nat) (st : GenState) : Prop :=
  (∀ r n, g_nodes st !! r = Some n →
     match p_id n with
     | Some k => p_linksFrom n = F k ∧ p_linksTo n = T k
     | None => p_linksFrom n = [] ∧ p_linksTo n = []
     end)
  ∧ (∀ k, g_lookup st !! k = None → F k = [] ∧ T k = []).

(** Every node is one of those there were at the start, or has a key
    that has been seen and is not a name a plain object inherits. *)
Definition namedOnly (ids0 : list (option string)) (seen : list string)
    (st : GenState) : Prop :=
  ∀ x, x ∈ p_id <$> g_nodes st →
       x ∈ ids0 ∨ ∃ k, x = Some k ∧ k ∈ seen ∧ inherited k = false.

(** The invariants of the loops of [generatePoints]; the last one says
    that no name a plain object inherits is put in the lookup. *)
Definition rebuilt (ids0 : list (option string)) (F T : string → list nat)
    (seen : list string) (st : GenState) : Prop :=
  lookupOk st ∧ linksOk F T st ∧ namedOnly ids0 seen st
  ∧ ∀ k, is_Some (g_lookup st !! k) → inherited k = false.

(** The keys [generatePoints] creates a node for: those the data or the
    [nodes] option name, that no node has yet and that are not names a
    plain object inherits, each once. *)
Definition newKeys `{Host} (this : Series) : list string :=
  remove_dups
    (filter (λ k, inherited k = false
                  ∧ Some k ∉ p_id <$> default [] (s_nodes this))
            (dataKeys (Series_generatePoints this) ++ optionKeys this)).

(** The keys of the lookup are not names a plain object inherits. *)
Definition lookupPlain (st : GenState) : Prop :=
  ∀ k, is_Some (g_lookup st !! k) → inherited k = false.

(** ** Links on screen *)

(** An item of an SVG path: the letters [M] and [L], or a number. *)
Inductive PathItem : Type :=
| MoveTo
| LineTo
| Num (v : option Q).

(** [series.options.link], and the attributes made of it. *)
Record LinkOptions : Type := mkLinkOptions {
  lk_width : Q;
  lk_color : string;
  lk_dashStyle : option string
}.

Record LinkAttributes : Type := mkLinkAttributes {
  a_strokeWidth : Q;
  a_stroke : string;
  a_dashstyle : option string
}.

(** The element [renderer.path(d).attr(attributes).add(group)] gives:
    the path and the attributes it was created with, and the paths it
    has been asked to animate to, oldest first. *)
Record Graphic : Type := mkGraphic {
  gr_d : list PathItem;
  gr_attr : LinkAttributes;
  gr_animations : list (list PathItem)
}.

(** A data point together with its [graphic] property. *)
Record LinkPoint : Type := mkLinkPoint {
  lp_point : Point;
  lp_graphic : option Graphic
}.

(** [getLinkPath] (source lines 526-534). *)
Definition getLinkPath (from to : Point) : list PathItem :=
  [ MoveTo; Num (p_plotX from); Num (p_plotY from);
    LineTo; Num (p_plotX to); Num (p_plotY to) ].

(** [getLinkAttribues] (source lines 490-498). *)
Definition getLinkAttribues (linkOptions : LinkOptions) : LinkAttributes :=
  {| a_strokeWidth := lk_width linkOptions;
     a_stroke := lk_color linkOptions;
     a_dashstyle := lk_dashStyle linkOptions |}.

(** [renderLink] (source lines 499-508); [nodes] is the store
    [fromNode] and [toNode] refer to. *)
Definition renderLink (linkOptions : LinkOptions) (nodes : list Point)
    (this : LinkPoint) : Result LinkPoint :=
  if negb (defined (lp_graphic this)) then
    fromNode ← deref nodes (p_fromNode (lp_point this));
    toNode ← deref nodes (p_toNode (lp_point this));
    Ok {| lp_point := lp_point this;
          lp_graphic :=
            Some {| gr_d := getLinkPath fromNode toNode;
                    gr_attr := getLinkAttribues linkOptions;
                    gr_animations := [] |} |}
  else Ok this.

(** [redrawLink] (source lines 509-515). *)
Definition redrawLink (nodes : list Point) (this : LinkPoint)
    : Result LinkPoint :=
  match lp_graphic this with
  | Some graphic =>
      fromNode ← deref nodes (p_fromNode (lp_point this));
      toNode ← deref nodes (p_toNode (lp_point this));
      Ok {| lp_point := lp_point this;
            lp_graphic :=
              Some {| gr_d := gr_d graphic; gr_attr := gr_attr graphic;
                      gr_animations :=
                        gr_animations graphic
                        ++ [getLinkPath fromNode toNode] |} |}
  | None => Ok this
  end.

(** The body of [points.forEach] in [render] (source lines 384-389). *)
Definition renderPoint (linkOptions : LinkOptions) (nodes : list Point)
    (point : LinkPoint) : Result LinkPoint :=
  if defined (p_fromNode (lp_point point))
     && defined (p_toNode (lp_point point)) then
    point ← renderLink linkOptions nodes point;
    redrawLink nodes point
  else Ok point.

(** The loop over the points in [render] (source lines 384-389). The
    markers of the nodes, the halo and the data labels, which [render]
    leaves to the host, are not modelled. *)
Fixpoint renderLinks (linkOptions : LinkOptions) (nodes : list Point)
    (points : list LinkPoint) : Result (list LinkPoint) :=
  match points with
  | [] => Ok []
  | point :: rest =>
      point ← renderPoint linkOptions nodes point;
      rest ← renderLinks linkOptions nodes rest;
      Ok (point :: rest)
  end.

(** [linkFrom.graphic = linkFrom.graphic.destroy()]: the element is
    destroyed and the property cleared. *)
Definition destroyGraphic (linkFrom : LinkPoint) : LinkPoint :=
  if defined (lp_graphic linkFrom) then
    {| lp_point := lp_point linkFrom; lp_graphic := None |}
  else linkFrom.

(** [destroy] of the point class (source lines 550-562), as far as this
    module defines it: a node destroys the graphics of the links it
    starts. What [Point.prototype.destroy] does next is the host's. *)
Definition destroyLinks (this : Point) (points : list LinkPoint)
    : list LinkPoint :=
  if p_isNode this then
    foldl (λ points linkFrom, alter destroyGraphic linkFrom points)
          points (p_linksFrom this)
  else points.

(** The loop over the nodes in [destroy] of the series (source lines
    477-480). *)
Definition destroyNodes (nodes : list Point) (points : list LinkPoint)
    : list LinkPoint :=
  foldl (λ points node, destroyLinks node points) points nodes.

(** The endpoints a point refers to are in the store of nodes. *)
Definition wellLinked (nodes : list Point) (point : Point) : Prop :=
  (∀ r, p_fromNode point = Some r → is_Some (nodes !! r))
  ∧ (∀ r, p_toNode point = Some r → is_Some (nodes !! r)).

(** ** Further sample data *)

(** A graph of three links, from a to b, from a to c and from c to
    itself, with a declared node d; and the series once its points are
    generated. *)
Definition triangle : Series :=
  series 0 true "reingold-fruchterman"
    (Some [ {| no_id := "d"; no_mass := None |} ])
    [ link (Some "a") (Some "b"); link (Some "a") (Some "c");
      link (Some "c") (Some "c") ].

Definition afterGenerate : Series :=
  fromOk triangle (@generatePoints plainHost triangle).

(** The node of index [i] of a series ([link None None] when there is
    none). *)
Definition nodeAt (this : Series) (i : nat) : Point :=
  default (link None None) (default [] (s_nodes this) !! i).

(** A series that still holds a node z, at (1, 2) and with links of an
    earlier run, while its data is a single link from a to b. *)
Definition staleNode : Point :=
  node "z" 4 (Some 1%Q) (Some 2%Q) [5] [6].

Definition staleSeries : Series :=
  set_nodes_points [staleNode] [ link (Some "a") (Some "b") ]
    (series 0 true "reingold-fruchterman" None []).

Definition afterStale : Series :=
  fromOk staleSeries (@generatePoints plainHost staleSeries).

(** A link from a to b, between nodes of masses 2 and 9, and between
    nodes of masses 2 ^ 53 - 1 and 2 ^ 53. *)
Definition linkAB : Point :=
  set_toNode 1 (set_fromNode 0 (link (Some "a") (Some "b"))).

Definition unevenNodes : list Point :=
  [ node "a" 2 None None [0] []; node "b" 9 None None [] [0] ].

Definition closeNodes : list Point :=
  [ node "a" 9007199254740991 None None [0] [];
    node "b" 9007199254740992 None None [] [0] ].

(** Two nodes of mass 4. *)
Definition evenNodes : list Point :=
  [ node "a" 4 None None [0] []; node "b" 4 None None [] [0] ].

(** Two nodes of mass 2 ^ 1023. *)
Definition hugeNodes : list Point :=
  [ node "a" (inject_Z (2 ^ 1023)) None None [0] [];
    node "b" (inject_Z (2 ^ 1023)) None None [] [0] ].

(** A link from b to a next to nodes a, of mass 2, and b, of mass 6. *)
Definition massNodes : list Point :=
  [ node "a" 2 None None [] [0]; node "b" 6 None None [0] [] ].

Definition massLink : Point :=
  set_toNode 0 (set_fromNode 1 (link (Some "b") (Some "a"))).

(** The dragged node after a move to (150, 120) followed by one to
    (160, 130). *)
Definition afterMoves : Point * @World recordingLayouts :=
  fromOk (dragPoint, dragWorld)
    (@drag recordingLayouts plainHost dragSeries dragPoint
       ([ {| e_chartX := 150; e_chartY := 120 |} ]
        ++ [ {| e_chartX := 160; e_chartY := 130 |} ]) dragWorld).

(** The two sample series translated one after the other on a chart
    that has no layout yet. *)
Definition afterTranslate : list Series * @World recordingLayouts :=
  fromOk ([], freshWorld 400 300)
    (@translateAll recordingLayouts plainHost [sampleA; sampleB]
       (freshWorld 400 300)).

(** Nodes a, at (10, 20), and b, at (30, 40), the same nodes once the
    layout has moved them, a link from a to b and a point that only
    has a [to]. *)
Definition drawnNodes : list Point :=
  [ node "a" 4 (Some 10%Q) (Some 20%Q) [0] [];
    node "b" 4 (Some 30%Q) (Some 40%Q) [] [0; 1] ].

Definition movedNodes : list Point :=
  [ node "a" 4 (Some 15%Q) (Some 25%Q) [0] [];
    node "b" 4 (Some 35%Q) (Some 45%Q) [] [0; 1] ].

Definition drawnLink : LinkPoint :=
  {| lp_point := set_toNode 1 (set_fromNode 0 (link (Some "a") (Some "b")));
     lp_graphic := None |}.

Definition looseLink : LinkPoint :=
  {| lp_point := set_toNode 1 (link None (Some "b")); lp_graphic := None |}.

Definition thinLinks : LinkOptions :=
  {| lk_width := 1; lk_color := "grey"; lk_dashStyle := None |}.

Definition thickLinks : LinkOptions :=
  {| lk_width := 3; lk_color := "red"; lk_dashStyle := Some "dot" |}.

(** The link drawn thin, and drawn again with thick links once the
    nodes have moved. *)
Definition drawnOnce : LinkPoint :=
  fromOk drawnLink (renderPoint thinLinks drawnNodes drawnLink).

Definition drawnTwice : LinkPoint :=
  fromOk drawnOnce (renderPoint thickLinks movedNodes drawnOnce).

(** The points of the sample graph, every one of them with a graphic. *)
Definition generatedLinks : list LinkPoint :=
  (λ point,
     {| lp_point := point;
        lp_graphic :=
          Some {| gr_d := []; gr_attr := getLinkAttribues thinLinks;
                  gr_animations := [] |} |})
  <$> s_points afterGenerate.

(** * Properties *)

(** ** The point class *)

(** C5. [getDegree] is the number of incident links of a node that has
    some, and 1 for a node without links and for a point that is not a
    node; it is never below 1. *)
Theorem getDegree_floor (this : Point) :
  let count := List.length (p_linksFrom this) + List.length (p_linksTo this) in
  getDegree this = (if p_isNode this && negb (Nat.eqb count 0)
                    then count else 1)
  ∧ 1 ≤ getDegree this.
Proof.
  unfold getDegree. cbv zeta.
  destruct (p_isNode this); simpl.
  - destruct (Nat.eqb_spec
      (List.length (p_linksFrom this) + List.length (p_linksTo this)) 0);
      simpl; split; auto with lia.
  - split; auto.
Qed.

(** ** Binary64 arithmetic *)

Section Numbers.
Local Open Scope Q_scope.

Lemma pow2_pos k : 0 < pow2 k.
Proof. apply Qpower_0_lt. reflexivity. Qed.

Lemma pow2_add a b : pow2 (a + b) == pow2 a * pow2 b.
Proof. apply Qpower_plus. discriminate. Qed.

Lemma pow2_le a b : (a <= b)%Z → pow2 a <= pow2 b.
Proof. intros Hab. apply Qpower_le_compat_l; [assumption | discriminate]. Qed.

Lemma pow2_lt a b : (a < b)%Z → pow2 a < pow2 b.
Proof. intros Hab. apply Qpower_lt_compat_l; [assumption | reflexivity]. Qed.

Lemma pow2_Z n : (0 <= n)%Z → pow2 n == inject_Z (2 ^ n).
Proof. intros Hn. unfold pow2. rewrite Zpower_Qpower by assumption. reflexivity. Qed.

(** [Qlog2] is the exponent of the binade of a positive rational. *)
Lemma Qlog2_spec a : 0 < a → pow2 (Qlog2 a) <= a ∧ a < pow2 (Qlog2 a + 1).
Proof.
  intros Ha. destruct a as [n d]. unfold Qlog2. cbn [Qnum Qden].
  assert (Hn : (0 < n)%Z).
  { unfold Qlt in Ha. simpl in Ha. lia. }
  set (ln := Z.log2 n). set (ld := Z.log2 (Z.pos d)).
  destruct (Z.log2_spec n Hn) as [Hn1 Hn2]. fold ln in Hn1, Hn2.
  destruct (Z.log2_spec (Z.pos d) eq_refl) as [Hd1 Hd2]. fold ld in Hd1, Hd2.
  assert (Hln : (0 <= ln)%Z) by apply Z.log2_nonneg.
  assert (Hld : (0 <= ld)%Z) by apply Z.log2_nonneg.
  assert (En : pow2 ln <= inject_Z n ∧ inject_Z n < pow2 (ln + 1)).
  { rewrite !pow2_Z by lia. rewrite <- Zle_Qle, <- Zlt_Qlt. split; assumption. }
  assert (Ed : pow2 ld <= inject_Z (Z.pos d)
               ∧ inject_Z (Z.pos d) < pow2 (ld + 1)).
  { rewrite !pow2_Z by lia. rewrite <- Zle_Qle, <- Zlt_Qlt. split; assumption. }
  destruct En as [En1 En2]. destruct Ed as [Ed1 Ed2].
  assert (Hq : n # d == inject_Z n / inject_Z (Z.pos d)) by apply Qmake_Qdiv.
  assert (Hdpos : 0 < inject_Z (Z.pos d)) by reflexivity.
  pose proof (pow2_pos ln) as Pln. pose proof (pow2_pos ld) as Pld.
  pose proof (pow2_pos (ln - ld)) as Pk.
  assert (Hup : n # d < pow2 (ln - ld + 1)).
  { rewrite Hq. apply Qlt_shift_div_r; [assumption |].
    assert (E : pow2 (ln + 1) == pow2 (ln - ld + 1) * pow2 ld).
    { rewrite <- pow2_add. replace (ln - ld + 1 + ld)%Z with (ln + 1)%Z by lia.
      reflexivity. }
    pose proof (pow2_pos (ln - ld + 1)). nra. }
  assert (Hlow : pow2 (ln - ld - 1) <= n # d).
  { rewrite Hq. apply Qle_shift_div_l; [assumption |].
    assert (E : pow2 ln == pow2 (ln - ld - 1) * pow2 (ld + 1)).
    { rewrite <- pow2_add. replace (ln - ld - 1 + (ld + 1))%Z with ln by lia.
      reflexivity. }
    pose proof (pow2_pos (ln - ld - 1)). nra. }
  destruct (Qle_bool (pow2 (ln - ld)) (n # d)) eqn:Eb.
  - apply Qle_bool_iff in Eb. split; assumption.
  - split; [assumption |].
    replace (ln - ld - 1 + 1)%Z with (ln - ld)%Z by lia.
    apply Qnot_le_lt. intros Hc. apply Qle_bool_iff in Hc. congruence.
Qed.

Lemma Qlog2_unique a e : pow2 e <= a → a < pow2 (e + 1) → Qlog2 a = e.
Proof.
  intros H1 H2.
  assert (Ha : 0 < a) by (pose proof (pow2_pos e); lra).
  destruct (Qlog2_spec a Ha) as [S1 S2].
  destruct (Z.lt_trichotomy (Qlog2 a) e) as [Hlt | [E | Hgt]]; [| assumption |].
  - exfalso. assert (pow2 (Qlog2 a + 1) <= pow2 e) by (apply pow2_le; lia). lra.
  - exfalso. assert (pow2 (e + 1) <= pow2 (Qlog2 a)) by (apply pow2_le; lia). lra.
Qed.

Lemma Qlog2_comp a b : 0 < a → a == b → Qlog2 a = Qlog2 b.
Proof.
  intros Ha E. symmetry. destruct (Qlog2_spec a Ha) as [S1 S2].
  apply Qlog2_unique; rewrite <- E; assumption.
Qed.

Lemma Qlog2_mono a b : 0 < a → a <= b → (Qlog2 a <= Qlog2 b)%Z.
Proof.
  intros Ha Hab.
  destruct (Qlog2_spec a Ha) as [A1 A2].
  destruct (Qlog2_spec b ltac:(lra)) as [B1 B2].
  destruct (Z_le_gt_dec (Qlog2 a) (Qlog2 b)) as [Hle | Hgt]; [assumption |].
  exfalso. assert (pow2 (Qlog2 b + 1) <= pow2 (Qlog2 a)) by (apply pow2_le; lia).
  lra.
Qed.

Lemma floor_unique x n :
  inject_Z n <= x → x < inject_Z (n + 1) → Qfloor x = n.
Proof.
  intros H1 H2.
  pose proof (Qfloor_resp_le _ _ H1) as L. rewrite Qfloor_Z in L.
  pose proof (Qfloor_le x) as F.
  assert (U : (Qfloor x < n + 1)%Z)
    by (rewrite Zlt_Qlt; eapply Qle_lt_trans; eassumption).
  lia.
Qed.

Lemma roundEven_range x :
  (Qfloor x <= roundEven x <= Qfloor x + 1)%Z.
Proof.
  unfold roundEven.
  destruct (x - inject_Z (Qfloor x) ?= 1 # 2);
    [destruct (Z.even (Qfloor x)) | |]; lia.
Qed.

Lemma roundEven_comp x y : x == y → roundEven x = roundEven y.
Proof.
  intros E. unfold roundEven. rewrite (Qfloor_comp x y E).
  assert (C : (x - inject_Z (Qfloor y) ?= 1 # 2)
              = (y - inject_Z (Qfloor y) ?= 1 # 2)) by (rewrite E; reflexivity).
  rewrite C. reflexivity.
Qed.

Lemma roundEven_Z n : roundEven (inject_Z n) = n.
Proof.
  unfold roundEven. rewrite Qfloor_Z.
  assert (C : (inject_Z n - inject_Z n ?= 1 # 2) = Lt).
  { apply (proj1 (Qlt_alt _ _)). generalize (inject_Z n). intros z. lra. }
  rewrite C. reflexivity.
Qed.

Lemma roundEven_mono x y : x <= y → (roundEven x <= roundEven y)%Z.
Proof.
  intros Hxy. pose proof (Qfloor_resp_le _ _ Hxy) as Hf.
  pose proof (roundEven_range x) as Rx. pose proof (roundEven_range y) as Ry.
  destruct (Z.eq_dec (Qfloor x) (Qfloor y)) as [E | Hne]; [| lia].
  unfold roundEven in *. rewrite <- E in *.
  destruct (Qcompare_spec (x - inject_Z (Qfloor x)) (1 # 2)) as [Cx | Cx | Cx];
    destruct (Qcompare_spec (y - inject_Z (Qfloor x)) (1 # 2))
      as [Cy | Cy | Cy];
    try destruct (Z.even (Qfloor x)); try lia; exfalso; lra.
Qed.

Lemma roundEven_opp x : roundEven (- x) = (- roundEven x)%Z.
Proof.
  pose proof (Qfloor_le x) as F1. pose proof (Qlt_floor x) as F2.
  set (f := Qfloor x) in *.
  rewrite inject_Z_plus in F2.
  destruct (Qeq_dec x (inject_Z f)) as [E | Hne].
  - rewrite (roundEven_comp (- x) (inject_Z (- f)))
      by (rewrite inject_Z_opp, E; reflexivity).
    rewrite (roundEven_comp x (inject_Z f)) by assumption.
    rewrite !roundEven_Z. reflexivity.
  - assert (Hlt : inject_Z f < x).
    { apply Qle_lteq in F1 as [F1 | F1]; [assumption |].
      exfalso. apply Hne. symmetry. assumption. }
    assert (Ef : Qfloor (- x) = (- f - 1)%Z).
    { apply floor_unique.
      - replace (- f - 1)%Z with (- (f + 1))%Z by lia.
        rewrite inject_Z_opp, inject_Z_plus. lra.
      - replace (- f - 1 + 1)%Z with (- f)%Z by lia.
        rewrite inject_Z_opp. lra. }
    unfold roundEven. rewrite Ef. fold f.
    assert (Ei : inject_Z (- f - 1) == - inject_Z f - 1).
    { replace (- f - 1)%Z with (- (f + 1))%Z by lia.
      rewrite inject_Z_opp, inject_Z_plus. ring. }
    destruct (Qcompare_spec (x - inject_Z f) (1 # 2)) as [C | C | C];
      destruct (Qcompare_spec (- x - inject_Z (- f - 1)) (1 # 2))
        as [C' | C' | C']; rewrite Ei in C'; try (exfalso; lra); try lia.
    replace (- f - 1)%Z with (- (f + 1))%Z by lia.
    rewrite Z.even_opp, Z.even_add. simpl.
    destruct (Z.even f); simpl; lia.
Qed.

Lemma ulp_pos q : 0 < ulp q.
Proof. apply pow2_pos. Qed.

Lemma Qabs_opp_eq q : Qabs (- q) = Qabs q.
Proof. destruct q as [n d]. unfold Qabs, Qopp. simpl. rewrite Z.abs_opp. reflexivity. Qed.

Lemma ulp_opp q : ulp (- q) = ulp q.
Proof. unfold ulp. rewrite Qabs_opp_eq. reflexivity. Qed.

Lemma ulp_comp q q' : ¬ q == 0 → q == q' → ulp q = ulp q'.
Proof.
  intros Hq E. unfold ulp.
  rewrite (Qlog2_comp (Qabs q) (Qabs q')); [reflexivity | | rewrite E; reflexivity].
  pose proof (Qabs_nonneg q) as Hn.
  apply Qle_lteq in Hn as [Hn | Hn]; [assumption |].
  exfalso. apply Hq. destruct (Qabs_Qle_condition q 0) as [Hc _].
  destruct Hc as [H1 H2]; [rewrite <- Hn; apply Qle_refl |]. lra.
Qed.

Lemma nearest_opp q : nearest (- q) == - nearest q.
Proof.
  unfold nearest. rewrite ulp_opp.
  rewrite (roundEven_comp (- q / ulp q) (- (q / ulp q)))
    by (field; pose proof (ulp_pos q); lra).
  rewrite roundEven_opp, inject_Z_opp. ring.
Qed.

Lemma roundEven_nonneg x : 0 <= x → (0 <= roundEven x)%Z.
Proof.
  intros Hx. change 0%Z with (roundEven (inject_Z 0)) at 1 || idtac.
  pose proof (roundEven_mono (inject_Z 0) x Hx) as H.
  rewrite roundEven_Z in H. exact H.
Qed.

Lemma nearest_nonneg q : 0 <= q → 0 <= nearest q.
Proof.
  intros Hq. unfold nearest. pose proof (ulp_pos q) as Hu.
  assert (Hr : (0 <= roundEven (q / ulp q))%Z).
  { apply roundEven_nonneg. apply Qle_shift_div_l; [assumption | lra]. }
  rewrite Zle_Qle in Hr. apply Qmult_le_0_compat; [exact Hr | lra].
Qed.

Lemma nearest_mono_pos a b : 0 < a → a <= b → nearest a <= nearest b.
Proof.
  intros Ha Hab. assert (Hb : 0 < b) by lra.
  unfold nearest, ulp.
  rewrite (Qlog2_comp (Qabs a) a), (Qlog2_comp (Qabs b) b);
    try (apply Qabs_pos; lra); try (rewrite Qabs_pos; lra).
  pose proof (Qlog2_mono a b Ha Hab) as Hl.
  destruct (Qlog2_spec a Ha) as [A1 A2]. destruct (Qlog2_spec b Hb) as [B1 B2].
  set (ea := Z.max (Qlog2 a) (-1022)). set (eb := Z.max (Qlog2 b) (-1022)).
  pose proof (pow2_pos (ea - 52)) as Pa. pose proof (pow2_pos (eb - 52)) as Pb.
  destruct (Z.eq_dec ea eb) as [E | Hne].
  - rewrite <- E.
    assert (Hr : (roundEven (a / pow2 (ea - 52))
                  <= roundEven (b / pow2 (ea - 52)))%Z).
    { apply roundEven_mono. apply Qle_shift_div_l; [assumption |].
      assert (Ea : a / pow2 (ea - 52) * pow2 (ea - 52) == a) by (field; lra).
      lra. }
    rewrite Zle_Qle in Hr. apply Qmult_le_compat_r; [exact Hr | lra].
  - assert (Hlt : (ea < eb)%Z) by lia.
    assert (Eb : eb = Qlog2 b) by lia.
    (* nearest a <= pow2 (ea + 1) *)
    assert (Ua : inject_Z (roundEven (a / pow2 (ea - 52))) * pow2 (ea - 52)
                 <= pow2 (ea + 1)).
    { assert (Hr : (roundEven (a / pow2 (ea - 52)) <= 2 ^ 53)%Z).
      { rewrite <- (roundEven_Z (2 ^ 53)). apply roundEven_mono.
        apply Qle_shift_div_r; [assumption |].
        rewrite <- pow2_Z by lia. rewrite <- pow2_add.
        replace (53 + (ea - 52))%Z with (ea + 1)%Z by lia.
        assert (pow2 (Qlog2 a + 1) <= pow2 (ea + 1)) by (apply pow2_le; lia).
        lra. }
      rewrite Zle_Qle in Hr. rewrite <- pow2_Z in Hr by lia.
      assert (E : pow2 (ea + 1) == pow2 53 * pow2 (ea - 52)).
      { rewrite <- pow2_add. replace (53 + (ea - 52))%Z with (ea + 1)%Z by lia.
        reflexivity. }
      rewrite E. apply Qmult_le_compat_r; [exact Hr | lra]. }
    assert (Lb : pow2 eb
                 <= inject_Z (roundEven (b / pow2 (eb - 52))) * pow2 (eb - 52)).
    { assert (Hr : (2 ^ 52 <= roundEven (b / pow2 (eb - 52)))%Z).
      { rewrite <- (roundEven_Z (2 ^ 52)) at 1. apply roundEven_mono.
        apply Qle_shift_div_l; [assumption |].
        rewrite <- pow2_Z by lia. rewrite <- pow2_add.
        replace (52 + (eb - 52))%Z with eb by lia. rewrite Eb. assumption. }
      rewrite Zle_Qle in Hr. rewrite <- pow2_Z in Hr by lia.
      assert (E : pow2 eb == pow2 52 * pow2 (eb - 52)).
      { rewrite <- pow2_add. replace (52 + (eb - 52))%Z with eb by lia.
        reflexivity. }
      rewrite E. apply Qmult_le_compat_r; [exact Hr | lra]. }
    assert (pow2 (ea + 1) <= pow2 eb) by (apply pow2_le; lia).
    lra.
Qed.

Lemma nearest_mono a b : a <= b → nearest a <= nearest b.
Proof.
  intros Hab. destruct (Qlt_le_dec 0 a) as [Ha | Ha].
  - apply nearest_mono_pos; assumption.
  - assert (Na : nearest a <= 0).
    { pose proof (nearest_nonneg (- a) ltac:(lra)) as H.
      rewrite nearest_opp in H. lra. }
    destruct (Qlt_le_dec b 0) as [Hb | Hb].
    + pose proof (nearest_mono_pos (- b) (- a) ltac:(lra) ltac:(lra)) as H.
      rewrite !nearest_opp in H. lra.
    + pose proof (nearest_nonneg b Hb). lra.
Qed.

Lemma nearest_0 q : q == 0 → nearest q == 0.
Proof.
  intros E. unfold nearest.
  rewrite (roundEven_comp (q / ulp q) (inject_Z 0)).
  - rewrite roundEven_Z. ring.
  - generalize (ulp q). intros u. unfold Qdiv. rewrite E. ring.
Qed.

Lemma nearest_nonpos q : q <= 0 → nearest q <= 0.
Proof.
  intros Hq. pose proof (nearest_nonneg (- q) ltac:(lra)) as H.
  rewrite nearest_opp in H. lra.
Qed.

(** What [round] returns, by the nearest value. *)
Lemma round_cases zero q :
  (nearest q == 0 ∧ ∃ s, round zero q = Zero s)
  ∨ (pow2 1024 <= nearest q ∧ round zero q = Infinity false)
  ∨ (nearest q <= - pow2 1024 ∧ round zero q = Infinity true)
  ∨ (¬ nearest q == 0 ∧ - pow2 1024 < nearest q ∧ nearest q < pow2 1024
     ∧ round zero q = Finite (Qred (nearest q))).
Proof.
  unfold round. pose proof (pow2_pos 1024) as P.
  destruct (Qeq_bool q 0) eqn:E0.
  { apply Qeq_bool_iff in E0. left. split; [apply nearest_0; assumption | eauto]. }
  destruct (Qeq_bool (nearest q) 0) eqn:Er.
  { apply Qeq_bool_iff in Er. left. split; [assumption | eauto]. }
  assert (Hr : ¬ nearest q == 0).
  { intros Hc. apply Qeq_bool_iff in Hc. congruence. }
  destruct (Qle_bool 0 q) eqn:Es.
  - apply Qle_bool_iff in Es. pose proof (nearest_nonneg q Es) as Hn.
    destruct (Qle_bool (pow2 1024) (Qabs (nearest q))) eqn:Eo.
    + apply Qle_bool_iff in Eo. rewrite Qabs_pos in Eo by assumption.
      right. left. split; [assumption | reflexivity].
    + right. right. right. split; [assumption |]. split; [lra |].
      split; [| reflexivity].
      apply Qnot_le_lt. intros Hc. rewrite <- (Qabs_pos (nearest q)) in Hc
        by assumption.
      apply Qle_bool_iff in Hc. congruence.
  - assert (Hq : q <= 0).
    { apply Qlt_le_weak, Qnot_le_lt. intros Hc. apply Qle_bool_iff in Hc.
      congruence. }
    pose proof (nearest_nonpos q Hq) as Hn.
    destruct (Qle_bool (pow2 1024) (Qabs (nearest q))) eqn:Eo.
    + apply Qle_bool_iff in Eo. rewrite Qabs_neg in Eo by assumption.
      right. right. left. split; [lra | reflexivity].
    + right. right. right. split; [assumption |]. split; [| split; [lra | reflexivity]].
      apply Qnot_le_lt. intros Hc.
      assert (Hc' : pow2 1024 <= Qabs (nearest q))
        by (rewrite Qabs_neg by assumption; lra).
      apply Qle_bool_iff in Hc'. congruence.
Qed.

Lemma round_mono z1 z2 a b :
  a <= b → leq64 (round z1 a) (round z2 b) = true.
Proof.
  intros Hab. pose proof (nearest_mono a b Hab) as Hn.
  pose proof (pow2_pos 1024) as P.
  destruct (round_cases z1 a)
    as [[Ha [sa ->]] | [[Ha ->] | [[Ha ->] | (Ha0 & Ha1 & Ha2 & ->)]]];
    destruct (round_cases z2 b)
      as [[Hb [sb ->]] | [[Hb ->] | [[Hb ->] | (Hb0 & Hb1 & Hb2 & ->)]]];
    simpl; try reflexivity; try (exfalso; lra);
    try (apply Qle_bool_iff; rewrite ?Qred_correct; lra).
Qed.

Lemma round_comp zero q q' : q == q' → round zero q = round zero q'.
Proof.
  intros E. unfold round.
  assert (E0 : Qeq_bool q 0 = Qeq_bool q' 0).
  { destruct (Qeq_bool q 0) eqn:A; destruct (Qeq_bool q' 0) eqn:B;
      try reflexivity.
    - apply Qeq_bool_iff in A. rewrite E in A. apply Qeq_bool_iff in A.
      congruence.
    - apply Qeq_bool_iff in B. rewrite <- E in B. apply Qeq_bool_iff in B.
      congruence. }
  rewrite <- E0. destruct (Qeq_bool q 0) eqn:A; [reflexivity |].
  assert (Hq : ¬ q == 0).
  { intros Hc. apply Qeq_bool_iff in Hc. congruence. }
  assert (En : nearest q = nearest q').
  { unfold nearest. rewrite <- (ulp_comp q q' Hq E).
    rewrite (roundEven_comp (q / ulp q) (q' / ulp q)); [reflexivity |].
    generalize (ulp q). intros u. rewrite E. reflexivity. }
  assert (Es : Qle_bool 0 q = Qle_bool 0 q') by (rewrite E; reflexivity).
  rewrite <- En, <- Es. reflexivity.
Qed.

Lemma round_zero zero zero' q : ¬ q == 0 → round zero q = round zero' q.
Proof.
  intros Hq. unfold round. destruct (Qeq_bool q 0) eqn:A; [| reflexivity].
  apply Qeq_bool_iff in A. contradiction.
Qed.

Lemma add64_comm x y : add64 x y = add64 y x.
Proof.
  destruct x as [| s | s | a], y as [| s' | s' | b]; simpl;
    try reflexivity;
    try (destruct s, s'; reflexivity);
    apply round_comp; ring.
Qed.

Lemma number_pos m :
  0 < m → number m = Finite m ∧ Qle_bool 0 m = true.
Proof.
  intros Hm. unfold number. split.
  - destruct (Qeq_bool m 0) eqn:A; [| reflexivity].
    apply Qeq_bool_iff in A. lra.
  - apply Qle_bool_iff. lra.
Qed.

Lemma leq64_round_below zero q : leq64 (Infinity true) (round zero q) = true.
Proof.
  destruct (round_cases zero q)
    as [[A [s ->]] | [[A ->] | [[A ->] | (A0 & A1 & A2 & ->)]]]; reflexivity.
Qed.

(** [1 - x] turns the order round. *)
Lemma sub64_antitone z1 z2 a b :
  0 <= a → a <= b →
  leq64 (sub64 (Finite 1) (round z2 b)) (sub64 (Finite 1) (round z1 a)) = true.
Proof.
  intros Ha Hab. pose proof (nearest_mono a b Hab) as Hn.
  pose proof (nearest_nonneg a Ha) as Na.
  pose proof (nearest_nonneg b ltac:(lra)) as Nb.
  pose proof (pow2_pos 1024) as P.
  destruct (round_cases z1 a)
    as [[A [sa ->]] | [[A ->] | [[A ->] | (A0 & A1 & A2 & ->)]]];
    destruct (round_cases z2 b)
      as [[B [sb ->]] | [[B ->] | [[B ->] | (B0 & B1 & B2 & ->)]]];
    try (exfalso; lra); unfold sub64; cbn [neg add64 val negb];
    try reflexivity; try apply leq64_round_below;
    apply round_mono; rewrite ?Qred_correct; lra.
Qed.

Lemma shares_order m1 m2 :
  0 < m1 → m1 <= m2 →
  let sum := add64 (number m1) (number m2) in
  leq64 (sub64 (Finite 1) (div64 (number m2) sum))
        (sub64 (Finite 1) (div64 (number m1) sum)) = true.
Proof.
  intros H1 H12.
  destruct (number_pos m1 H1) as [-> S1].
  destruct (number_pos m2 ltac:(lra)) as [-> S2].
  cbn [add64 val]. cbv zeta.
  pose proof (nearest_nonneg (m1 + m2) ltac:(lra)) as Ns.
  pose proof (pow2_pos 1024) as P.
  destruct (round_cases false (m1 + m2))
    as [[A [s ->]] | [[A ->] | [[A ->] | (A0 & A1 & A2 & ->)]]].
  - cbn [div64 negative]. rewrite S1, S2. destruct s; reflexivity.
  - cbn [div64 negative]. rewrite S1, S2. cbn [negb xorb].
    unfold sub64. cbn [neg add64 val]. apply round_mono. lra.
  - exfalso. lra.
  - cbn [div64]. apply sub64_antitone.
    + apply Qle_shift_div_l; rewrite ?Qred_correct; lra.
    + assert (Hr : 0 < Qred (nearest (m1 + m2))) by (rewrite Qred_correct; lra).
      apply Qle_shift_div_l; [assumption |].
      assert (E : m1 / Qred (nearest (m1 + m2)) * Qred (nearest (m1 + m2))
                  == m1) by (field; lra).
      lra.
Qed.

Lemma shares_overflow m1 m2 :
  0 < m1 → 0 < m2 → pow2 1024 <= nearest (m1 + m2) →
  let sum := add64 (number m1) (number m2) in
  sub64 (Finite 1) (div64 (number m1) sum) = Finite 1
  ∧ sub64 (Finite 1) (div64 (number m2) sum) = Finite 1.
Proof.
  intros H1 H2 Ho.
  destruct (number_pos m1 H1) as [-> S1].
  destruct (number_pos m2 H2) as [-> S2].
  cbn [add64 val]. cbv zeta. pose proof (pow2_pos 1024) as P.
  destruct (round_cases false (m1 + m2))
    as [[A [s ->]] | [[A ->] | [[A ->] | (A0 & A1 & A2 & ->)]]];
    try (exfalso; lra).
  cbn [div64 negative]. rewrite S1, S2. split; vm_compute; reflexivity.
Qed.

Lemma shares_half m1 m2 :
  0 < m1 → m1 == m2 →
  nearest (m1 + m2) == m1 + m2 → m1 + m2 < pow2 1024 →
  let sum := add64 (number m1) (number m2) in
  sub64 (Finite 1) (div64 (number m1) sum) = Finite (1 # 2)
  ∧ sub64 (Finite 1) (div64 (number m2) sum) = Finite (1 # 2).
Proof.
  intros H1 E He Hb.
  destruct (number_pos m1 H1) as [-> S1].
  destruct (number_pos m2 ltac:(lra)) as [-> S2].
  cbn [add64 val]. cbv zeta. pose proof (pow2_pos 1024) as P.
  destruct (round_cases false (m1 + m2))
    as [[A [s ->]] | [[A ->] | [[A ->] | (A0 & A1 & A2 & ->)]]];
    try (exfalso; lra).
  cbn [div64].
  assert (Hhalf : ∀ m zero, m + m == m1 + m2 →
            sub64 (Finite 1)
              (round zero (m / Qred (nearest (m1 + m2)))) = Finite (1 # 2)).
  { intros m zero Em.
    rewrite (round_comp zero _ (1 # 2))
      by (rewrite Qred_correct, He, <- Em; field; lra).
    vm_compute. reflexivity. }
  split; apply Hhalf; lra.
Qed.
End Numbers.

(** C2. On a link whose endpoints have positive masses, [getMass]
    returns the binary64 values of [1 - m1/(m1+m2)] for [fromNode] and
    of [1 - m2/(m1+m2)] for [toNode], the sum being computed once; the
    endpoint of smaller mass never has the smaller share. *)
Theorem getMass_shares (nodes : list Point) (this fromNode toNode : Point)
    (i j : ref) :
  p_fromNode this = Some i → nodes !! i = Some fromNode →
  p_toNode this = Some j → nodes !! j = Some toNode →
  (0 < p_mass fromNode)%Q → (0 < p_mass toNode)%Q →
  let m1 := number (p_mass fromNode) in
  let m2 := number (p_mass toNode) in
  ∃ m,
    getMass nodes this = Ok m
    ∧ m_fromNode m = sub64 (Finite 1) (div64 m1 (add64 m1 m2))
    ∧ m_toNode m = sub64 (Finite 1) (div64 m2 (add64 m1 m2))
    ∧ ((p_mass fromNode <= p_mass toNode)%Q →
         leq64 (m_toNode m) (m_fromNode m) = true)
    ∧ ((p_mass toNode <= p_mass fromNode)%Q →
         leq64 (m_fromNode m) (m_toNode m) = true).
Proof.
  intros Hf Hi Ht Hj H1 H2 m1 m2. subst m1 m2.
  eexists. split.
  - unfold getMass, deref. rewrite Hf, Hi. cbn [mbind Result_bind].
    rewrite Ht, Hj. reflexivity.
  - cbn [m_fromNode m_toNode].
    split; [reflexivity |]. split; [reflexivity |]. split.
    + intros Hle. apply shares_order; assumption.
    + intros Hle.
      rewrite (add64_comm (number (p_mass fromNode))
                          (number (p_mass toNode))).
      apply shares_order; assumption.
Qed.

(** C2 on a link from a node of mass 2 to a node of mass 9: the shares
    are the binary64 numbers 0.8181818181818181 and
    0.18181818181818177. *)
Lemma getMass_shares_witness :
  ∃ m,
    getMass unevenNodes linkAB = Ok m
    ∧ m_fromNode m = Finite (3684763331484951 # 4503599627370496)
    ∧ m_toNode m = Finite (1637672591771089 # 9007199254740992)
    ∧ leq64 (m_toNode m) (m_fromNode m) = true
    ∧ leq64 (m_fromNode m) (m_toNode m) = false.
Proof.
  destruct (getMass_shares unevenNodes linkAB
              (node "a" 2 None None [0] []) (node "b" 9 None None [] [0])
              0 1 eq_refl eq_refl eq_refl eq_refl eq_refl eq_refl)
    as (m & Hm & Hf & Ht & Hle & _).
  exists m. split; [exact Hm |].
  split; [rewrite Hf; vm_compute; reflexivity |].
  split; [rewrite Ht; vm_compute; reflexivity |].
  split; [apply Hle; vm_compute; discriminate |].
  rewrite Hf, Ht. vm_compute. reflexivity.
Defined.

(** C2 as stated fails: between nodes of masses 2 ^ 53 - 1 and 2 ^ 53
    both shares are 0.5. *)
Lemma lighterGetsMore_fails : ¬ lighterGetsMore.
Proof.
  intros Hclaim.
  assert (E : getMass closeNodes linkAB
              = Ok {| m_fromNode := Finite (1 # 2);
                      m_toNode := Finite (1 # 2) |}).
  { vm_compute. reflexivity. }
  pose proof (Hclaim closeNodes linkAB
                (node "a" 9007199254740991 None None [0] [])
                (node "b" 9007199254740992 None None [] [0]) 0 1
                {| m_fromNode := Finite (1 # 2); m_toNode := Finite (1 # 2) |}
                eq_refl eq_refl eq_refl eq_refl eq_refl eq_refl E) as H.
  discriminate H.
Qed.

(** ** Calls on layouts *)

Lemma Qgtb_lt (a b : Q) : Qgtb a b = true ↔ (b < a)%Q.
Proof.
  unfold Qgtb. rewrite negb_true_iff. split.
  - intros Hb. apply Qnot_le_lt. intros Hle.
    apply Qle_bool_iff in Hle. congruence.
  - intros Hlt. destruct (Qle_bool a b) eqn:E; [| reflexivity].
    apply Qle_bool_iff in E. exfalso. exact (Qlt_not_le _ _ Hlt E).
Qed.

Lemma Qgtb_le (a b : Q) : Qgtb a b = false ↔ (a <= b)%Q.
Proof.
  unfold Qgtb. rewrite negb_false_iff. apply Qle_bool_iff.
Qed.

Section Calls.
Context `{Layouts}.

Lemma call_chart c r w : w_chart (call c r w) = w_chart w.
Proof. reflexivity. Qed.

Lemma call_length c r w :
  List.length (w_layouts (call c r w)) = List.length (w_layouts w).
Proof. unfold call; simpl. apply length_alter. Qed.

Lemma calls_call c r w l :
  w_layouts w !! r = Some l → calls (call c r w) r = calls w r ++ [c].
Proof.
  intros Hl. unfold calls, call; cbn [w_layouts].
  rewrite list_lookup_alter_eq, Hl. reflexivity.
Qed.

Lemma calls_call_ne c r r' w :
  r ≠ r' → calls (call c r w) r' = calls w r'.
Proof.
  intros Hne. unfold calls, call; cbn [w_layouts].
  rewrite list_lookup_alter_ne by assumption. reflexivity.
Qed.

Lemma lookup_call c r w l :
  w_layouts w !! r = Some l →
  w_layouts (call c r w) !! r = Some (receive c l).
Proof.
  intros Hl. unfold call; cbn [w_layouts].
  rewrite list_lookup_alter_eq, Hl. reflexivity.
Qed.

Lemma runOrExtend_calls series w r l :
  s_layout series = Some r → w_layouts w !! r = Some l →
  ∃ w', runOrExtend series w = Ok w'
        ∧ w_chart w' = w_chart w
        ∧ calls w' r = calls w r ++ dragCalls l
        ∧ ∀ r', r' ≠ r → calls w' r' = calls w r'.
Proof.
  intros Hs Hl. unfold runOrExtend, dragCalls. rewrite Hs. simpl.
  rewrite Hl. simpl.
  destruct (simulation (l_state l)); simpl.
  - eexists; split; [reflexivity |]. split; [reflexivity |]. split.
    + apply calls_call with (l := l). assumption.
    + intros r' Hne. apply calls_call_ne. congruence.
  - destruct (enableSimulation (l_state l)); simpl.
    + eexists; split; [reflexivity |]. split; [reflexivity |]. split.
      * erewrite calls_call by (repeat (apply lookup_call || eassumption)).
        erewrite calls_call by (repeat (apply lookup_call || eassumption)).
        erewrite calls_call by eassumption.
        rewrite <- !app_assoc. reflexivity.
      * intros r' Hne. rewrite !calls_call_ne by congruence. reflexivity.
    + eexists; split; [reflexivity |]. split; [reflexivity |]. split.
      * erewrite calls_call by (repeat (apply lookup_call || eassumption)).
        erewrite calls_call by (repeat (apply lookup_call || eassumption)).
        erewrite calls_call by (repeat (apply lookup_call || eassumption)).
        erewrite calls_call by eassumption.
        rewrite <- !app_assoc. reflexivity.
      * intros r' Hne. rewrite !calls_call_ne by congruence. reflexivity.
Qed.

Lemma runOrExtend_chart series w w' :
  runOrExtend series w = Ok w' → w_chart w' = w_chart w.
Proof.
  unfold runOrExtend, deref, callOn.
  destruct (s_layout series) as [r |]; simpl; [| discriminate].
  destruct (w_layouts w !! r) as [l |]; simpl; [| discriminate].
  destruct (simulation (l_state l)), (enableSimulation (l_state l));
    simpl; intros E; inversion E; reflexivity.
Qed.
End Calls.

(** ** Dragging *)

Section Drag.
Context `{Layouts} `{Host}.

(** A move changes the world only through [runOrExtend], which leaves
    the chart alone. *)
Lemma onMouseMove_chart series point e w point' w' :
  onMouseMove series point e w = Ok (point', w') →
  w_chart w' = w_chart w.
Proof.
  unfold onMouseMove.
  destruct (p_fixedPosition point) as [fp |];
    [| intros E; inversion E; reflexivity].
  destruct (p_inDragMode point); [| intros E; inversion E; reflexivity].
  destruct (_ || _); [| intros E; inversion E; reflexivity].
  destruct (isInsidePlot _ _ _); [| intros E; inversion E; reflexivity].
  destruct (runOrExtend series w) as [w1 |] eqn:Er; simpl;
    [| discriminate].
  intros E; inversion E; subst. eapply runOrExtend_chart; eassumption.
Qed.

(** The position after a move is the one before, or one the chart holds
    to be inside the plot. *)
Lemma onMouseMove_position series point e w point' w' :
  onMouseMove series point e w = Ok (point', w') →
  (p_plotX point' = p_plotX point ∧ p_plotY point' = p_plotY point)
  ∨ isInsidePlot (w_chart w) (p_plotX point') (p_plotY point') = true.
Proof.
  unfold onMouseMove.
  destruct (p_fixedPosition point) as [fp |];
    [| intros E; inversion E; left; split; reflexivity].
  destruct (p_inDragMode point);
    [| intros E; inversion E; left; split; reflexivity].
  destruct (_ || _); [| intros E; inversion E; left; split; reflexivity].
  destruct (isInsidePlot _ _ _) eqn:Ei;
    [| intros E; inversion E; left; split; reflexivity].
  destruct (runOrExtend series w) as [w1 |]; simpl; [| discriminate].
  intros E; inversion E; subst. right. exact Ei.
Qed.

(** C6. While a point is dragged, a move whose displacement from the
    start of the gesture is at most 5 pixels on both axes leaves the
    point and the layouts as they are, so no run is triggered; a move
    that changes [plotX] or [plotY] has a displacement above 5 pixels
    on one axis. *)
Theorem onMouseMove_threshold (series : Series) (point : Point)
    (fp : FixedPosition) (e : MouseEvent) (w : World) :
  p_fixedPosition point = Some fp → p_inDragMode point = true →
  let diffX := (fp_chartX fp - e_chartX e)%Q in
  let diffY := (fp_chartY fp - e_chartY e)%Q in
  ((Qabs diffX <= 5)%Q ∧ (Qabs diffY <= 5)%Q →
     onMouseMove series point e w = Ok (point, w))
  ∧ (∀ point' w',
       onMouseMove series point e w = Ok (point', w') →
       p_plotX point' ≠ p_plotX point ∨ p_plotY point' ≠ p_plotY point →
       (5 < Qabs diffX)%Q ∨ (5 < Qabs diffY)%Q).
Proof.
  intros Hf Hd diffX diffY. subst diffX diffY. split.
  - intros [Hx Hy]. unfold onMouseMove. rewrite Hf, Hd.
    apply Qgtb_le in Hx, Hy. rewrite Hx, Hy. reflexivity.
  - intros point' w'. unfold onMouseMove. rewrite Hf, Hd.
    destruct (Qgtb (Qabs (fp_chartX fp - e_chartX e)) 5) eqn:Ex.
    + intros _ _. left. apply Qgtb_lt. exact Ex.
    + destruct (Qgtb (Qabs (fp_chartY fp - e_chartY e)) 5) eqn:Ey.
      * intros _ _. right. apply Qgtb_lt. exact Ey.
      * simpl. intros E; inversion E; subst. intros [Hn | Hn];
          exfalso; apply Hn; reflexivity.
Qed.

(** C7. A move that passes the threshold and stays inside the plot puts
    the point at the dragged position and then, on the layout of the
    series: when no simulation is running, calls
    [setInitialRendering(false)], [run()], [setInitialRendering(true)]
    in this order, preceded by [setMaxIterations(1)] exactly when
    [enableSimulation] is off; when a simulation is running, calls
    [resetSimulation()] alone. No other layout is called. *)
Theorem onMouseMove_run (series : Series) (point : Point)
    (fp : FixedPosition) (e : MouseEvent) (w : World) (r : ref)
    (l : Layout) :
  p_fixedPosition point = Some fp → p_inDragMode point = true →
  let diffX := (fp_chartX fp - e_chartX e)%Q in
  let diffY := (fp_chartY fp - e_chartY e)%Q in
  let newPlotX := minus (fp_plotX fp) diffX in
  let newPlotY := minus (fp_plotY fp) diffY in
  (5 < Qabs diffX)%Q ∨ (5 < Qabs diffY)%Q →
  isInsidePlot (w_chart w) newPlotX newPlotY = true →
  s_layout series = Some r → w_layouts w !! r = Some l →
  ∃ w',
    onMouseMove series point e w
      = Ok (set_plot newPlotX newPlotY point, w')
    ∧ calls w' r =
        calls w r ++
        (if simulation (l_state l) then [ResetSimulation]
         else (if enableSimulation (l_state l) then []
               else [SetMaxIterations 1])
              ++ [SetInitialRendering false; Run;
                  SetInitialRendering true])
    ∧ ∀ r', r' ≠ r → calls w' r' = calls w r'.
Proof.
  intros Hf Hd diffX diffY newPlotX newPlotY Hex Hin Hs Hl.
  subst diffX diffY newPlotX newPlotY.
  destruct (runOrExtend_calls series w r l Hs Hl)
    as (w' & Er & _ & Hc & Ho).
  exists w'. split; [| split; assumption].
  unfold onMouseMove. rewrite Hf, Hd.
  assert (Hb : Qgtb (Qabs (fp_chartX fp - e_chartX e)) 5
               || Qgtb (Qabs (fp_chartY fp - e_chartY e)) 5 = true).
  { apply orb_true_iff. destruct Hex as [Hx | Hy];
      [left | right]; apply Qgtb_lt; assumption. }
  rewrite Hb, Hin, Er. reflexivity.
Qed.


Lemma drag_inside series moves : ∀ point w point' w',
  drag series point moves w = Ok (point', w') →
  isInsidePlot (w_chart w) (p_plotX point) (p_plotY point) = true →
  w_chart w' = w_chart w
  ∧ isInsidePlot (w_chart w) (p_plotX point') (p_plotY point') = true.
Proof.
  induction moves as [| e moves IH]; intros point w point' w'; simpl.
  - intros E Hin; inversion E; subst. split; [reflexivity | assumption].
  - destruct (onMouseMove series point e w) as [[p1 w1] |] eqn:Em; simpl;
      [| discriminate].
    intros Ed Hin.
    pose proof (onMouseMove_chart _ _ _ _ _ _ Em) as Hc.
    assert (Hin1 : isInsidePlot (w_chart w1) (p_plotX p1) (p_plotY p1)
                   = true).
    { rewrite Hc.
      destruct (onMouseMove_position _ _ _ _ _ _ Em) as [[Ex Ey] | Hi];
        [rewrite Ex, Ey |]; assumption. }
    destruct (IH _ _ _ _ Ed Hin1) as [Hc' Hin'].
    rewrite Hc in Hc', Hin'. split; assumption.
Qed.

(** C10. A move whose dragged position the chart holds to be outside
    the plot leaves the point and the layouts as they are; and through
    any sequence of moves a point that was inside the plot stays
    inside it. *)
Theorem drag_stays_inside (series : Series) (point : Point) (w : World) :
  (∀ fp e,
     p_fixedPosition point = Some fp →
     isInsidePlot (w_chart w)
       (minus (fp_plotX fp) (fp_chartX fp - e_chartX e))
       (minus (fp_plotY fp) (fp_chartY fp - e_chartY e)) = false →
     onMouseMove series point e w = Ok (point, w))
  ∧ (∀ moves point' w',
       drag series point moves w = Ok (point', w') →
       isInsidePlot (w_chart w) (p_plotX point) (p_plotY point) = true →
       isInsidePlot (w_chart w') (p_plotX point') (p_plotY point') = true).
Proof.
  split.
  - intros fp e Hf Hout. unfold onMouseMove. rewrite Hf, Hout.
    destruct (p_inDragMode point); [| reflexivity].
    destruct (_ || _); reflexivity.
  - intros moves point' w' Ed Hin.
    destruct (drag_inside _ _ _ _ _ _ Ed Hin) as [Hc Hin'].
    rewrite Hc. exact Hin'.
Qed.
End Drag.

(** C6 on a move of 3 pixels by 4 pixels. *)
Lemma onMouseMove_threshold_witness :
  @onMouseMove recordingLayouts plainHost dragSeries dragPoint
    {| e_chartX := 113; e_chartY := 116 |} dragWorld
  = Ok (dragPoint, dragWorld).
Proof.
  refine (proj1 (@onMouseMove_threshold recordingLayouts plainHost
    dragSeries dragPoint dragStart {| e_chartX := 113; e_chartY := 116 |}
    dragWorld eq_refl eq_refl) _).
  split; vm_compute; discriminate.
Defined.

(** C7 on a move of 30 pixels to the right: one iteration is run. *)
Lemma onMouseMove_run_witness :
  ∃ w',
    @onMouseMove recordingLayouts plainHost dragSeries dragPoint
      {| e_chartX := 140; e_chartY := 120 |} dragWorld
    = Ok (set_plot (Some (100 - (110 - 140))%Q) (Some (100 - (120 - 120))%Q)
            dragPoint, w')
    ∧ calls w' 0 = [SetMaxIterations 1; SetInitialRendering false; Run;
                    SetInitialRendering true].
Proof.
  destruct (@onMouseMove_run recordingLayouts plainHost
    dragSeries dragPoint dragStart {| e_chartX := 140; e_chartY := 120 |}
    dragWorld 0 (@mkLayout recordingLayouts (false, false) [])
    eq_refl eq_refl (or_introl eq_refl) eq_refl eq_refl eq_refl)
    as (w' & Hm & Hc & _).
  exists w'. split; [exact Hm | exact Hc].
Defined.



(** C10 on a move that would leave the plot on the left, and on a
    gesture of three moves, the second of which would leave the plot. *)
Lemma drag_stays_inside_witness :
  @onMouseMove recordingLayouts plainHost dragSeries dragPoint
    {| e_chartX := -100; e_chartY := 120 |} dragWorld
  = Ok (dragPoint, dragWorld)
  ∧ ∀ point' w',
      @drag recordingLayouts plainHost dragSeries dragPoint
        [ {| e_chartX := 150; e_chartY := 120 |};
          {| e_chartX := 150; e_chartY := 900 |};
          {| e_chartX := 160; e_chartY := 130 |} ] dragWorld
      = Ok (point', w') →
      @isInsidePlot plainHost (w_chart w') (p_plotX point') (p_plotY point')
      = true.
Proof.
  pose proof (@drag_stays_inside recordingLayouts plainHost
    dragSeries dragPoint dragWorld) as [Hout Hseq].
  split.
  - apply (Hout dragStart {| e_chartX := -100; e_chartY := 120 |});
      reflexivity.
  - intros point' w' Hd. apply (Hseq _ _ _ Hd). reflexivity.
Defined.

(** ** Layout registration *)

Section Registration.
Context `{Layouts}.

Lemma storage_call c r w : storage (call c r w) = storage w.
Proof. reflexivity. Qed.

Lemma storage_set_storage st ls w : storage (set_storage st ls w) = st.
Proof. reflexivity. Qed.

Lemma storage_register this r w : storage (register this r w) = storage w.
Proof. reflexivity. Qed.

Lemma register_length this r w :
  List.length (w_layouts (register this r w)) = List.length (w_layouts w).
Proof. unfold register. rewrite !call_length. reflexivity. Qed.

Lemma calls_register this r w :
  r < List.length (w_layouts w) →
  calls (register this r w) r = calls w r ++ registration this w.
Proof.
  intros Hr. apply lookup_lt_is_Some in Hr. destruct Hr as [l Hl].
  unfold register, registration. cbv zeta.
  erewrite calls_call by (repeat (apply lookup_call || eassumption)).
  erewrite calls_call by (repeat (apply lookup_call || eassumption)).
  erewrite calls_call by (repeat (apply lookup_call || eassumption)).
  erewrite calls_call by eassumption.
  rewrite <- !app_assoc. reflexivity.
Qed.

Lemma calls_register_ne this r r' w :
  r ≠ r' → calls (register this r w) r' = calls w r'.
Proof.
  intros Hne. unfold register. cbv zeta.
  rewrite !calls_call_ne by assumption. reflexivity.
Qed.

(** A layout put at the end of the store has received no call; nor has
    a reference beyond the store. *)
Lemma calls_set_storage st state w r :
  calls (set_storage st
           (w_layouts w ++ [ {| l_state := state; l_calls := [] |} ]) w) r
  = calls w r.
Proof.
  unfold calls, set_storage; cbn [w_layouts].
  destruct (decide (r < List.length (w_layouts w))) as [Hlt | Hge].
  - rewrite lookup_app_l by assumption. reflexivity.
  - rewrite (lookup_ge_None_2 (w_layouts w) r) by lia.
    destruct (decide (r = List.length (w_layouts w))) as [-> | Hne].
    + rewrite list_lookup_middle by reflexivity. reflexivity.
    + rewrite lookup_ge_None_2; [reflexivity |].
      rewrite length_app; simpl. lia.
Qed.

(** What a registration of a visible series does: the layout of its
    type is the stored one, or a new one at the end of the store. *)
Lemma deferLayout_visible this w this' w' :
  wf w → s_visible this = true →
  deferLayout this w = Ok (this', w') →
  ∃ r,
    s_layout this' = Some r
    ∧ storage w' !! layoutType this = Some r
    ∧ calls w' r = calls w r ++ registration this w
    ∧ (∀ r', r' ≠ r → calls w' r' = calls w r')
    ∧ ((storage w !! layoutType this = Some r
        ∧ storage w' = storage w
        ∧ List.length (w_layouts w') = List.length (w_layouts w))
       ∨ (storage w !! layoutType this = None
          ∧ r = List.length (w_layouts w)
          ∧ storage w' = <[layoutType this := r]> (storage w)
          ∧ List.length (w_layouts w') = S (List.length (w_layouts w)))).
Proof.
  intros [Hvalid _] Hv. unfold deferLayout, js_get, layoutType.
  rewrite Hv. simpl.
  destruct (storage w !! lo_type (o_layoutAlgorithm (s_options this)))
    as [r |] eqn:Es; simpl.
  - intros E; inversion E; subst; clear E.
    pose proof (Hvalid _ _ Es) as Hr.
    exists r. split; [reflexivity |].
    rewrite storage_register, storage_set_storage.
    split; [assumption |]. split; [| split].
    + rewrite calls_register by assumption. reflexivity.
    + intros r' Hne. rewrite calls_register_ne by congruence. reflexivity.
    + left. split; [reflexivity |]. split; [reflexivity |].
      rewrite register_length. reflexivity.
  - destruct (inherited _); simpl; [discriminate |].
    destruct (construct _ _) as [state |]; [| discriminate].
    intros E; inversion E; subst; clear E.
    exists (List.length (w_layouts w)). split; [reflexivity |].
    rewrite storage_register, storage_set_storage.
    split; [apply lookup_insert_eq |]. split; [| split].
    + rewrite calls_register
        by (cbn [set_storage w_layouts]; rewrite length_app; simpl; lia).
      rewrite calls_set_storage. reflexivity.
    + intros r' Hne. rewrite calls_register_ne by congruence.
      apply calls_set_storage.
    + right. split; [reflexivity |]. split; [reflexivity |].
      split; [reflexivity |].
      rewrite register_length. cbn [set_storage w_layouts].
      rewrite length_app; simpl. lia.
Qed.

Lemma deferLayout_hidden this w :
  s_visible this = false → deferLayout this w = Ok (this, w).
Proof. intros Hv. unfold deferLayout. rewrite Hv. reflexivity. Qed.

Lemma wf_fresh plotWidth plotHeight : wf (freshWorld plotWidth plotHeight).
Proof.
  split.
  - intros k r. unfold storage; simpl. rewrite lookup_empty. discriminate.
  - intros k1 k2 r. unfold storage; simpl. rewrite lookup_empty.
    discriminate.
Qed.

Lemma wf_resize plotWidth plotHeight w :
  wf w → wf (resize plotWidth plotHeight w).
Proof. intros Hwf. exact Hwf. Qed.

(** Registration keeps the layouts well formed, keeps what is stored,
    and sends a layout nothing but registration calls. *)
Lemma deferLayout_wf this w this' w' :
  wf w → deferLayout this w = Ok (this', w') →
  wf w'
  ∧ (∀ k r, storage w !! k = Some r → storage w' !! k = Some r)
  ∧ (∀ r, ∃ sent, calls w' r = calls w r ++ sent
                  ∧ Forall isRegistration sent).
Proof.
  intros Hwf Hd. destruct (s_visible this) eqn:Hv.
  - destruct (deferLayout_visible _ _ _ _ Hwf Hv Hd)
      as (r & _ & Hst & Hc & Ho & Hcase).
    destruct Hwf as [Hvalid Hinj].
    split; [| split].
    + destruct Hcase as [(Hs & Hsame & Hlen) | (Hs & Hr & Hnew & Hlen)].
      * split.
        -- intros k r0. rewrite Hsame, Hlen. apply Hvalid.
        -- intros k1 k2 r0. rewrite Hsame. apply Hinj.
      * split.
        -- intros k r0. rewrite Hnew, Hlen.
           destruct (decide (layoutType this = k)) as [-> | Hne].
           ++ rewrite lookup_insert_eq. intros E; inversion E. lia.
           ++ rewrite lookup_insert_ne by assumption.
              intros Hk. apply Hvalid in Hk. lia.
        -- intros k1 k2 r0. rewrite Hnew.
           destruct (decide (layoutType this = k1)) as [<- | Hne1];
             destruct (decide (layoutType this = k2)) as [<- | Hne2];
             try reflexivity.
           ++ rewrite lookup_insert_eq, lookup_insert_ne by assumption.
              intros E1 E2. inversion E1; subst.
              apply Hvalid in E2. lia.
           ++ rewrite lookup_insert_eq, lookup_insert_ne by assumption.
              intros E2 E1. inversion E1; subst.
              apply Hvalid in E2. lia.
           ++ rewrite !lookup_insert_ne by assumption. apply Hinj.
    + intros k r0 Hk.
      destruct Hcase as [(Hs & Hsame & Hlen) | (Hs & Hr & Hnew & Hlen)].
      * rewrite Hsame. assumption.
      * rewrite Hnew.
        destruct (decide (layoutType this = k)) as [E | Hne];
          [rewrite E in Hs; congruence |].
        rewrite lookup_insert_ne by assumption. assumption.
    + intros r0. destruct (decide (r0 = r)) as [-> | Hne].
      * exists (registration this w). split; [assumption |].
        unfold registration. repeat constructor.
      * exists []. rewrite app_nil_r. split; [apply Ho; assumption |].
        constructor.
  - rewrite deferLayout_hidden in Hd by assumption.
    inversion Hd; subst. split; [assumption |]. split; [auto |].
    intros r. exists []. rewrite app_nil_r. split; [reflexivity |].
    constructor.
Qed.

(** C1. One layout per algorithm type: of two visible series that
    register one after the other, whatever the size of the plot at the
    second registration, each gets the layout stored under its type;
    the two share it when their types agree, in which case no layout
    is created for the second and the shared layout is given the area
    of the second registration, and they have distinct layouts when
    their types differ. *)
Theorem deferLayout_shared_by_type (s1 s2 s1' s2' : Series)
    (w w1 w2 : World) (plotWidth plotHeight : Q) :
  wf w → s_visible s1 = true → s_visible s2 = true →
  deferLayout s1 w = Ok (s1', w1) →
  deferLayout s2 (resize plotWidth plotHeight w1) = Ok (s2', w2) →
  ∃ r1 r2,
    s_layout s1' = Some r1 ∧ s_layout s2' = Some r2
    ∧ storage w2 !! layoutType s1 = Some r1
    ∧ storage w2 !! layoutType s2 = Some r2
    ∧ (layoutType s1 = layoutType s2 →
         r1 = r2
         ∧ List.length (w_layouts w2) = List.length (w_layouts w1)
         ∧ calls w2 r2 =
             calls w1 r1 ++
             [ SetArea 0 0 plotWidth plotHeight; AddSeries (s_index s2);
               AddNodes (s_index s2); AddLinks (s_index s2) ])
    ∧ (layoutType s1 ≠ layoutType s2 → r1 ≠ r2).
Proof.
  intros Hwf Hv1 Hv2 Hd1 Hd2.
  destruct (deferLayout_wf _ _ _ _ Hwf Hd1) as (Hwf1 & _ & _).
  destruct (deferLayout_visible _ _ _ _ Hwf Hv1 Hd1)
    as (r1 & Hl1 & Hst1 & _ & _ & _).
  pose proof (wf_resize plotWidth plotHeight _ Hwf1) as Hwf1'.
  destruct (deferLayout_wf _ _ _ _ Hwf1' Hd2) as (_ & Hmono & _).
  destruct (deferLayout_visible _ _ _ _ Hwf1' Hv2 Hd2)
    as (r2 & Hl2 & Hst2 & Hc2 & _ & Hcase).
  exists r1, r2. split; [assumption |]. split; [assumption |].
  split; [apply Hmono; exact Hst1 |]. split; [assumption |].
  destruct Hwf1 as [Hvalid1 Hinj1]. split.
  - intros Heq.
    destruct Hcase as [(Hs & Hsame & Hlen) | (Hs & _)];
      [| change (storage (resize plotWidth plotHeight w1))
           with (storage w1) in Hs; congruence].
    change (storage (resize plotWidth plotHeight w1))
      with (storage w1) in Hs.
    assert (r1 = r2) as -> by congruence.
    split; [reflexivity |]. split; [exact Hlen |]. exact Hc2.
  - intros Hne Heq. subst r2.
    destruct Hcase as [(Hs & _) | (_ & Hr & _)].
    + change (storage (resize plotWidth plotHeight w1))
        with (storage w1) in Hs.
      apply Hne. eapply Hinj1; eassumption.
    + apply Hvalid1 in Hst1.
      change (w_layouts (resize plotWidth plotHeight w1))
        with (w_layouts w1) in Hr. lia.
Qed.
End Registration.

Lemma afterA_eq :
  deferLayout sampleA (freshWorld 400 300) = Ok (fst afterA, snd afterA).
Proof. vm_compute. reflexivity. Qed.

Lemma afterB_eq :
  deferLayout sampleB (resize 800 600 (snd afterA))
  = Ok (fst afterB, snd afterB).
Proof. vm_compute. reflexivity. Qed.

(** C1 on two series of one type, the plot resized between their
    registrations: both get the layout of reference 0. *)
Lemma deferLayout_shared_by_type_witness :
  s_layout (fst afterA) = Some 0 ∧ s_layout (fst afterB) = Some 0
  ∧ List.length (w_layouts (snd afterB)) = 1.
Proof.
  destruct (@deferLayout_shared_by_type recordingLayouts
    sampleA sampleB (fst afterA) (fst afterB)
    (freshWorld 400 300) (snd afterA) (snd afterB) 800 600
    (wf_fresh 400 300) eq_refl eq_refl afterA_eq afterB_eq)
    as (r1 & r2 & H1 & H2 & _ & _ & Hsame & _).
  destruct (Hsame eq_refl) as (Heq & Hlen & _). subst r2.
  assert (r1 = 0) as -> by (vm_compute in H1; congruence).
  split; [exact H1 |]. split; [exact H2 |].
  rewrite Hlen. reflexivity.
Defined.

(** C1 as stated fails: the second series registers with another area
    and still gets the layout of the first. *)
Lemma layoutPerTypeAndArea_fails : ¬ @layoutPerTypeAndArea recordingLayouts.
Proof.
  intros Hclaim.
  destruct (Hclaim sampleA sampleB (fst afterA) (fst afterB)
    (freshWorld 400 300) (snd afterA) (snd afterB) 800%Q 600%Q
    (wf_fresh 400 300) eq_refl eq_refl afterA_eq afterB_eq)
    as [_ Hdistinct].
  apply Hdistinct; [| vm_compute; reflexivity].
  right. intros [Hw _]. vm_compute in Hw. discriminate.
Qed.

(** ** Event handlers *)

Section Events.
Context `{Layouts}.

Lemma eachCall_inv c vs : ∀ w,
  let w' := foldl (λ w v, call c v w) w vs in
  w_chart w' = w_chart w
  ∧ List.length (w_layouts w') = List.length (w_layouts w).
Proof.
  induction vs as [| v vs IH]; intros w; simpl; [split; reflexivity |].
  destruct (IH (call c v w)) as [Hc Hl]. cbv zeta in Hc, Hl.
  rewrite Hc, Hl, call_chart, call_length. split; reflexivity.
Qed.

Lemma eachCall_absent c vs : ∀ w r,
  r ∉ vs → calls (foldl (λ w v, call c v w) w vs) r = calls w r.
Proof.
  induction vs as [| v vs IH]; intros w r Hr; simpl; [reflexivity |].
  apply not_elem_of_cons in Hr as [Hne Hr].
  rewrite IH by assumption. apply calls_call_ne. congruence.
Qed.

Lemma eachCall_once c vs : ∀ w r,
  NoDup vs → r ∈ vs → r < List.length (w_layouts w) →
  calls (foldl (λ w v, call c v w) w vs) r = calls w r ++ [c].
Proof.
  induction vs as [| v vs IH]; intros w r Hnd Hr Hlt; simpl.
  - inversion Hr.
  - apply NoDup_cons in Hnd as [Hv Hnd].
    apply elem_of_cons in Hr as [-> | Hr].
    + rewrite eachCall_absent by assumption.
      apply lookup_lt_is_Some in Hlt as [l Hl].
      apply calls_call with (l := l). assumption.
    + rewrite IH; [| assumption | assumption
                   | rewrite call_length; assumption].
      rewrite calls_call_ne; [reflexivity |].
      intros ->. contradiction.
Qed.

Lemma objectEach_call c obj w :
  objectEach (call c) obj w
  = foldl (λ w v, call c v w) w (snd <$> map_to_list obj).
Proof. unfold objectEach. rewrite foldl_fmap. reflexivity. Qed.

Lemma values_NoDup (obj : gmap string nat) :
  (∀ k1 k2 r, obj !! k1 = Some r → obj !! k2 = Some r → k1 = k2) →
  NoDup (snd <$> map_to_list obj).
Proof.
  intros Hinj. apply NoDup_fmap_2_strong; [| apply NoDup_map_to_list].
  intros [k1 v1] [k2 v2] H1 H2 Heq. simpl in Heq. subst v2.
  apply elem_of_map_to_list in H1, H2.
  rewrite (Hinj _ _ _ H1 H2). reflexivity.
Qed.

(** Each stored layout receives the call once. *)
Lemma objectEach_calls c w st k r :
  wf w → c_graphLayoutsStorage (w_chart w) = Some st →
  st !! k = Some r →
  calls (objectEach (call c) st w) r = calls w r ++ [c].
Proof.
  intros [Hvalid Hinj] Hst Hk.
  assert (Hs : storage w = st) by (unfold storage; rewrite Hst; reflexivity).
  rewrite objectEach_call. apply eachCall_once.
  - apply values_NoDup. rewrite <- Hs. exact Hinj.
  - apply list_elem_of_fmap. exists (k, r). split; [reflexivity |].
    apply elem_of_map_to_list. assumption.
  - apply (Hvalid k). rewrite Hs. assumption.
Qed.

Lemma objectEach_wf c w st :
  wf w → wf (objectEach (call c) st w)
         ∧ storage (objectEach (call c) st w) = storage w.
Proof.
  intros [Hvalid Hinj]. rewrite objectEach_call.
  destruct (eachCall_inv c (snd <$> map_to_list st) w) as [Hc Hl].
  cbv zeta in Hc, Hl.
  assert (Hs : storage (foldl (λ w v, call c v w) w
                          (snd <$> map_to_list st)) = storage w)
    by (unfold storage; rewrite Hc; reflexivity).
  split; [| exact Hs]. split.
  - intros k r. rewrite Hs, Hl. apply Hvalid.
  - intros k1 k2 r. rewrite Hs. apply Hinj.
Qed.

Lemma stored_storage w k r :
  storage w !! k = Some r →
  c_graphLayoutsStorage (w_chart w) = Some (storage w).
Proof.
  unfold storage. destruct (c_graphLayoutsStorage (w_chart w)); simpl.
  - reflexivity.
  - rewrite lookup_empty. discriminate.
Qed.

Lemma predraw_calls w k r :
  wf w → storage w !! k = Some r →
  calls (on_predraw w) r = calls w r ++ [Stop]
  ∧ wf (on_predraw w) ∧ storage (on_predraw w) = storage w.
Proof.
  intros Hwf Hk. pose proof (stored_storage _ _ _ Hk) as Hst.
  unfold on_predraw. rewrite Hst. split.
  - eapply objectEach_calls; eassumption.
  - apply objectEach_wf. assumption.
Qed.

Lemma render_calls w k r :
  wf w → storage w !! k = Some r →
  calls (on_render w) r = calls w r ++ [Run].
Proof.
  intros Hwf Hk. pose proof (stored_storage _ _ _ Hk) as Hst.
  unfold on_render. rewrite Hst. eapply objectEach_calls; eassumption.
Qed.

Context `{Host}.

Lemma translate_wf this w this' w' :
  wf w → translate this w = Ok (this', w') →
  wf w'
  ∧ (∀ k r, storage w !! k = Some r → storage w' !! k = Some r)
  ∧ (∀ r, ∃ sent, calls w' r = calls w r ++ sent
                  ∧ Forall isRegistration sent).
Proof.
  intros Hwf. unfold translate.
  destruct (generatePoints this) as [this1 |]; simpl; [| discriminate].
  apply deferLayout_wf. assumption.
Qed.

Lemma translateAll_wf series : ∀ w series' w',
  wf w → translateAll series w = Ok (series', w') →
  wf w'
  ∧ (∀ k r, storage w !! k = Some r → storage w' !! k = Some r)
  ∧ (∀ r, ∃ sent, calls w' r = calls w r ++ sent
                  ∧ Forall isRegistration sent).
Proof.
  induction series as [| s rest IH]; intros w series' w' Hwf; simpl.
  - intros E; inversion E; subst. split; [assumption |].
    split; [auto |]. intros r. exists []. rewrite app_nil_r.
    split; [reflexivity | constructor].
  - destruct (translate s w) as [[s1 w1] |] eqn:Et; simpl;
      [| discriminate].
    destruct (translateAll rest w1) as [[rest1 w2] |] eqn:Er; simpl;
      [| discriminate].
    intros E; inversion E; subst; clear E.
    destruct (translate_wf _ _ _ _ Hwf Et) as (Hwf1 & Hm1 & Hc1).
    destruct (IH _ _ _ Hwf1 Er) as (Hwf2 & Hm2 & Hc2).
    split; [assumption |]. split; [auto |].
    intros r. destruct (Hc1 r) as (sent1 & E1 & F1).
    destruct (Hc2 r) as (sent2 & E2 & F2).
    exists (sent1 ++ sent2). rewrite E2, E1, app_assoc.
    split; [reflexivity |]. apply Forall_app. split; assumption.
Qed.

(** C9. When the data of a series is replaced, [stop()] is called on
    its layout; and in a redraw, a layout that is stored when the
    redraw begins receives [stop()] first, then nothing but
    registration calls, then [run()]. *)
Theorem stop_precedes_run (w : World) :
  (∀ this r l,
     s_layout this = Some r → w_layouts w !! r = Some l →
     calls (on_updatedData this w) r = calls w r ++ [Stop])
  ∧ (∀ series series' w' k r,
       wf w → storage w !! k = Some r →
       redraw series w = Ok (series', w') →
       ∃ sent,
         calls w' r = calls w r ++ [Stop] ++ sent ++ [Run]
         ∧ Forall isRegistration sent).
Proof.
  split.
  - intros this r l Hs Hl. unfold on_updatedData. rewrite Hs.
    apply calls_call with (l := l). assumption.
  - intros series series' w' k r Hwf Hk. unfold redraw. cbv zeta.
    destruct (predraw_calls _ _ _ Hwf Hk) as (Hp & Hwf0 & Hs0).
    destruct (translateAll series (on_predraw w)) as [[s1 w1] |] eqn:Et;
      simpl; [| discriminate].
    intros E; inversion E; subst; clear E.
    destruct (translateAll_wf _ _ _ _ Hwf0 Et) as (Hwf1 & Hm & Hc).
    destruct (Hc r) as (sent & Es & Fs).
    exists sent. split; [| assumption].
    rewrite (render_calls _ k r Hwf1); [| apply Hm; rewrite Hs0; exact Hk].
    rewrite Es, Hp. rewrite <- !app_assoc. reflexivity.
Qed.
End Events.

(** ** Node generation *)

Section Nodes.
Context `{Host}.

Lemma ids_bodies (nodes : list Point) :
  p_id <$> (body <$> nodes) = p_id <$> nodes.
Proof. rewrite <- list_fmap_compose. reflexivity. Qed.

Lemma bodies_alter (push : nat → Point → Point) i r (nodes : list Point) :
  (∀ n, body (push i n) = body n) →
  body <$> alter (push i) r nodes = body <$> nodes.
Proof.
  intros Hb.
  rewrite (list_fmap_alter body (push i) id)
    by (apply Forall_forall; intros n _; apply Hb).
  apply list_alter_id. reflexivity.
Qed.

Lemma bodies_reset (nodes : list Point) :
  body <$> (resetLinks <$> nodes) = body <$> nodes.
Proof. rewrite <- list_fmap_compose. reflexivity. Qed.

Lemma extends_refl st : extends st st.
Proof. split; reflexivity. Qed.

Lemma extends_trans st1 st2 st3 :
  extends st1 st2 → extends st2 st3 → extends st1 st3.
Proof. intros [A1 B1] [A2 B2]. split; etransitivity; eassumption. Qed.

Lemma linked_extends st st' point :
  extends st st' → linked st point → linked st' point.
Proof.
  intros [Hsub _] [Hf Ht]. split; intros k Hk.
  - destruct (Hf k Hk) as (r & E & L). exists r. split; [assumption |].
    eapply lookup_weaken; eassumption.
  - destruct (Ht k Hk) as (r & E & L). exists r. split; [assumption |].
    eapply lookup_weaken; eassumption.
Qed.

(** [createNode] gives a node of the key, and adds one only when the
    key has none. *)
Lemma createNode_spec k nodes r nodes' :
  NoDup (p_id <$> nodes) → createNode k nodes = (r, nodes') →
  (∃ n, nodes' !! r = Some n ∧ p_id n = Some k)
  ∧ NoDup (p_id <$> nodes')
  ∧ ∃ extra, nodes' = nodes ++ extra.
Proof.
  intros Hnd. unfold createNode.
  destruct (list_find _ nodes) as [[i n] |] eqn:Ef; intros E;
    inversion E; subst; clear E.
  - apply list_find_Some in Ef as (Hi & Hp & _).
    split; [exists n; split; assumption |]. split; [assumption |].
    exists []. rewrite app_nil_r. reflexivity.
  - apply list_find_None in Ef.
    split; [| split].
    + eexists. split; [apply list_lookup_middle; reflexivity |].
      reflexivity.
    + rewrite fmap_app. apply NoDup_app. split; [assumption |].
      split; [| apply NoDup_singleton].
      intros x Hx Hx'. apply list_elem_of_singleton in Hx'. subst x.
      apply list_elem_of_fmap in Hx as (n & Hn & Hin).
      rewrite Forall_forall in Ef. apply (Ef n Hin). symmetry. exact Hn.
    + eexists. reflexivity.
Qed.

(** After [ensureNode] the key is in the lookup. *)
Lemma ensureNode_spec k st :
  inherited k = false → lookupOk st →
  lookupOk (ensureNode k st) ∧ extends st (ensureNode k st)
  ∧ is_Some (g_lookup (ensureNode k st) !! k).
Proof.
  intros Hk [Hnd Hlk]. unfold ensureNode, js_get.
  destruct (g_lookup st !! k) as [r |] eqn:El; simpl.
  - split; [split; assumption |]. split; [apply extends_refl |].
    rewrite El. eauto.
  - rewrite Hk. simpl.
    destruct (createNode k (g_nodes st)) as [r nodes'] eqn:Ec.
    unfold bodies in Hnd. rewrite ids_bodies in Hnd.
    destruct (createNode_spec _ _ _ _ Hnd Ec)
      as ((n & Hr & Hid) & Hnd' & extra & ->).
    split; [| split].
    + split.
      * unfold bodies; cbn [g_nodes]. rewrite ids_bodies. assumption.
      * intros k' r'. cbn [g_lookup]. unfold bodies; cbn [g_nodes].
        destruct (decide (k = k')) as [<- | Hne].
        -- rewrite lookup_insert_eq. intros E; inversion E; subst.
           exists (body n). split; [| exact Hid].
           rewrite list_lookup_fmap, Hr. reflexivity.
        -- rewrite lookup_insert_ne by assumption. intros Hl'.
           destruct (Hlk _ _ Hl') as (b & Hb & Hbid).
           exists b. split; [| assumption].
           rewrite fmap_app. apply lookup_app_l_Some. exact Hb.
    + split.
      * cbn [g_lookup]. apply insert_subseteq. assumption.
      * unfold bodies; cbn [g_nodes]. rewrite fmap_app.
        apply prefix_app_r. reflexivity.
    + cbn [g_lookup]. rewrite lookup_insert_eq. eauto.
Qed.

(** One endpoint of a link: the node of the key is there, and the link
    is pushed on it. *)
Lemma endpoint_spec (push : nat → Point → Point) k i st :
  (∀ n, body (push i n) = body n) →
  inherited k = false → lookupOk st →
  ∃ r st',
    pushLink push k i (ensureNode k st) = Ok (r, st')
    ∧ lookupOk st' ∧ extends st st' ∧ g_lookup st' !! k = Some r.
Proof.
  intros Hb Hk Hok.
  destruct (ensureNode_spec k st Hk Hok) as ([Hnd Hlk] & Hext & [r Hr]).
  exists r. eexists. unfold pushLink, js_get. rewrite Hr.
  split; [reflexivity |].
  assert (Eb : bodies {| g_lookup := g_lookup (ensureNode k st);
                         g_nodes := alter (push i) r
                                      (g_nodes (ensureNode k st)) |}
               = bodies (ensureNode k st))
    by (unfold bodies; cbn [g_nodes]; apply bodies_alter; assumption).
  split; [| split].
  - split; [rewrite Eb; assumption |].
    intros k' r'. cbn [g_lookup]. rewrite Eb. apply Hlk.
  - eapply extends_trans; [eassumption |].
    split; [reflexivity | rewrite Eb; reflexivity].
  - exact Hr.
Qed.

Lemma body_pushLinksFrom i n : body (pushLinksFrom i n) = body n.
Proof. reflexivity. Qed.

Lemma body_pushLinksTo i n : body (pushLinksTo i n) = body n.
Proof. reflexivity. Qed.

(** One round of the loop over the points. *)
Lemma linkPoint_spec i point st :
  plainKeys point → lookupOk st →
  ∃ point' st',
    linkPoint i point st = Ok (point', st')
    ∧ lookupOk st' ∧ extends st st' ∧ linked st' point'
    ∧ p_from point' = p_from point ∧ p_to point' = p_to point.
Proof.
  intros [Kf Kt] Hok. unfold linkPoint.
  destruct (p_from point) as [from |] eqn:Ef;
    destruct (p_to point) as [to |] eqn:Et.
  - destruct (endpoint_spec pushLinksFrom from i st
                (body_pushLinksFrom i) (Kf _ eq_refl) Hok)
      as (r1 & st1 & E1 & Hok1 & Hx1 & Hl1).
    cbv zeta. rewrite E1. simpl. rewrite Et.
    destruct (endpoint_spec pushLinksTo to i st1
                (body_pushLinksTo i) (Kt _ eq_refl) Hok1)
      as (r2 & st2 & E2 & Hok2 & Hx2 & Hl2).
    rewrite E2. simpl. eexists. eexists. split; [reflexivity |].
    split; [assumption |].
    split; [eapply extends_trans; eassumption |].
    split; [| split; simpl; assumption].
    split; simpl; intros k Hk.
    + rewrite Ef in Hk. inversion Hk; subst. exists r1.
      split; [reflexivity |].
      destruct Hx2 as [Hsub _]. eapply lookup_weaken; eassumption.
    + rewrite Et in Hk. inversion Hk; subst. exists r2.
      split; [reflexivity | assumption].
  - destruct (endpoint_spec pushLinksFrom from i st
                (body_pushLinksFrom i) (Kf _ eq_refl) Hok)
      as (r1 & st1 & E1 & Hok1 & Hx1 & Hl1).
    cbv zeta. rewrite E1. simpl. rewrite Et. simpl.
    eexists. eexists. split; [reflexivity |].
    split; [assumption |]. split; [assumption |].
    split; [| split; simpl; assumption].
    split; simpl; intros k Hk.
    + rewrite Ef in Hk. inversion Hk; subst. exists r1.
      split; [reflexivity | assumption].
    + rewrite Et in Hk. discriminate.
  - simpl. rewrite Et.
    destruct (endpoint_spec pushLinksTo to i st
                (body_pushLinksTo i) (Kt _ eq_refl) Hok)
      as (r2 & st2 & E2 & Hok2 & Hx2 & Hl2).
    cbv zeta. rewrite E2. simpl.
    eexists. eexists. split; [reflexivity |].
    split; [assumption |]. split; [assumption |].
    split; [| split; simpl; assumption].
    split; simpl; intros k Hk.
    + rewrite Ef in Hk. discriminate.
    + rewrite Et in Hk. inversion Hk; subst. exists r2.
      split; [reflexivity | assumption].
  - simpl. rewrite Et. simpl.
    eexists. eexists. split; [reflexivity |].
    split; [assumption |]. split; [apply extends_refl |].
    split; [| split; simpl; assumption].
    split; simpl; intros k Hk; congruence.
Qed.

Lemma linkPoints_spec points : ∀ i st,
  Forall plainKeys points → lookupOk st →
  ∃ points' st',
    linkPoints i points st = Ok (points', st')
    ∧ lookupOk st' ∧ extends st st' ∧ Forall (linked st') points'
    ∧ p_from <$> points' = p_from <$> points
    ∧ p_to <$> points' = p_to <$> points.
Proof.
  induction points as [| point rest IH]; intros i st Hk Hok; simpl.
  - exists [], st. split; [reflexivity |]. split; [assumption |].
    split; [apply extends_refl |]. split; [constructor |].
    split; reflexivity.
  - apply Forall_cons in Hk as [Hk Hks].
    destruct (linkPoint_spec i point st Hk Hok)
      as (p1 & st1 & E1 & Hok1 & Hx1 & Hl1 & Hf1 & Ht1).
    destruct (IH (S i) st1 Hks Hok1)
      as (rest2 & st2 & E2 & Hok2 & Hx2 & Hl2 & Hf2 & Ht2).
    rewrite E1. simpl. rewrite E2. simpl.
    exists (p1 :: rest2), st2. split; [reflexivity |].
    split; [assumption |].
    split; [eapply extends_trans; eassumption |].
    split; [constructor;
            [eapply linked_extends; eassumption | assumption] |].
    split; rewrite !fmap_cons;
      [rewrite Hf1, Hf2 | rewrite Ht1, Ht2]; reflexivity.
Qed.

Lemma declareNodes_spec nodeOptions : ∀ st,
  Forall (λ o, inherited (no_id o) = false) nodeOptions → lookupOk st →
  lookupOk (declareNodes nodeOptions st)
  ∧ extends st (declareNodes nodeOptions st)
  ∧ ∀ o, o ∈ nodeOptions →
         is_Some (g_lookup (declareNodes nodeOptions st) !! no_id o).
Proof.
  unfold declareNodes.
  induction nodeOptions as [| o rest IH]; intros st Hk Hok; simpl.
  - split; [assumption |]. split; [apply extends_refl |].
    intros o Ho. inversion Ho.
  - apply Forall_cons in Hk as [Hk Hks].
    destruct (ensureNode_spec (no_id o) st Hk Hok) as (Hok1 & Hx1 & [r Hr]).
    destruct (IH _ Hks Hok1) as (Hok2 & Hx2 & Hin2).
    split; [assumption |].
    split; [eapply extends_trans; eassumption |].
    intros o' Ho'. apply elem_of_cons in Ho' as [-> | Ho'].
    + exists r. destruct Hx2 as [Hsub _].
      eapply lookup_weaken; eassumption.
    + apply Hin2. assumption.
Qed.

(** A key of the lookup has its node among the nodes. *)
Lemma lookupOk_node st k r :
  lookupOk st → g_lookup st !! k = Some r →
  ∃ n, g_nodes st !! r = Some n ∧ p_id n = Some k.
Proof.
  intros [_ Hlk] Hl. destruct (Hlk _ _ Hl) as (b & Hb & Hid).
  unfold bodies in Hb. apply list_lookup_fmap_Some in Hb as (n & -> & Hn).
  exists n. split; [exact Hn | exact Hid].
Qed.

Lemma linked_resolved st point :
  lookupOk st → linked st point → resolved (g_nodes st) point.
Proof.
  intros Hok [Hf Ht]. split; intros k Hk.
  - destruct (Hf k Hk) as (r & E & L).
    destruct (lookupOk_node _ _ _ Hok L) as (n & Hn & Hid).
    exists r, n. auto.
  - destruct (Ht k Hk) as (r & E & L).
    destruct (lookupOk_node _ _ _ Hok L) as (n & Hn & Hid).
    exists r, n. auto.
Qed.

Lemma linked_keys st points k :
  Forall (linked st) points → k ∈ dataKeys points →
  is_Some (g_lookup st !! k).
Proof.
  intros Hl Hk. unfold dataKeys in Hk. rewrite Forall_forall in Hl.
  apply elem_of_app in Hk as [Hk | Hk];
    apply list_elem_of_omap in Hk as (p & Hp & Hpk);
    destruct (Hl p Hp) as [Hf Ht].
  - destruct (Hf k Hpk) as (r & _ & L). eauto.
  - destruct (Ht k Hpk) as (r & _ & L). eauto.
Qed.

Lemma omap_fmap_eq (f : Point → option string) (l' : list Point) :
  ∀ l, f <$> l' = f <$> l → omap f l' = omap f l.
Proof.
  induction l' as [| x' l' IH]; intros [| x l] E; try discriminate;
    [reflexivity |].
  rewrite !fmap_cons in E. inversion E as [[E1 E2]].
  cbn [omap list_omap]. rewrite E1, (IH l E2). reflexivity.
Qed.

Lemma dataKeys_fmap points points' :
  p_from <$> points' = p_from <$> points →
  p_to <$> points' = p_to <$> points →
  dataKeys points' = dataKeys points.
Proof.
  intros Hf Ht. unfold dataKeys.
  rewrite (omap_fmap_eq _ _ _ Hf), (omap_fmap_eq _ _ _ Ht). reflexivity.
Qed.

(** Where no key of the data or of the [nodes] option is a name a
    plain object inherits, [generatePoints] returns; afterwards node
    keys are unique, every key has a node, the nodes there were before
    come first with all but their links as they were, and every point
    refers to the nodes of its keys. *)
Lemma generatePoints_nodes (this : Series) :
  let old := default [] (s_nodes this) in
  let points := Series_generatePoints this in
  NoDup (p_id <$> old) →
  (∀ k, k ∈ dataKeys points ++ optionKeys this → inherited k = false) →
  ∃ this' nodes,
    generatePoints this = Ok this' ∧ s_nodes this' = Some nodes
    ∧ NoDup (p_id <$> nodes)
    ∧ (∀ k, k ∈ dataKeys points ++ optionKeys this →
         ∃ r n, nodes !! r = Some n ∧ p_id n = Some k)
    ∧ body <$> old `prefix_of` body <$> nodes
    ∧ Forall (resolved nodes) (s_points this')
    ∧ dataKeys (s_points this') = dataKeys points.
Proof.
  intros old points Hnd Hkeys.
  assert (Hplain : Forall plainKeys points).
  { apply Forall_forall. intros p Hp. split; intros k Hk;
      apply Hkeys, elem_of_app; left; unfold dataKeys;
      apply elem_of_app; [left | right];
      apply list_elem_of_omap; exists p; auto. }
  assert (Hok0 : lookupOk {| g_lookup := ∅;
                             g_nodes := resetLinks <$> old |}).
  { split.
    - unfold bodies; cbn [g_nodes].
      rewrite bodies_reset, ids_bodies. assumption.
    - intros k r. cbn [g_lookup]. rewrite lookup_empty. discriminate. }
  destruct (linkPoints_spec points 0 _ Hplain Hok0)
    as (points' & st1 & E1 & Hok1 & Hx1 & Hl1 & Hf1 & Ht1).
  assert (Hopt : Forall (λ o, inherited (no_id o) = false)
                   (default [] (o_nodes (s_options this)))).
  { apply Forall_forall. intros o Ho. apply Hkeys, elem_of_app. right.
    unfold optionKeys. apply list_elem_of_fmap. exists o. auto. }
  destruct (declareNodes_spec _ st1 Hopt Hok1) as (Hok2 & Hx2 & Hin2).
  set (st2 := declareNodes (default [] (o_nodes (s_options this))) st1)
    in *.
  assert (Est : match o_nodes (s_options this) with
                | Some nodeOptions => declareNodes nodeOptions st1
                | None => st1
                end = st2).
  { unfold st2. destruct (o_nodes (s_options this)); reflexivity. }
  exists (set_nodes_points (g_nodes st2) points' this), (g_nodes st2).
  split.
  { unfold generatePoints. fold old. fold points. cbv zeta.
    rewrite E1. simpl. rewrite Est. reflexivity. }
  split; [reflexivity |].
  split; [destruct Hok2 as [Hn _]; unfold bodies in Hn;
          rewrite ids_bodies in Hn; exact Hn |].
  split; [| split; [| split]].
  - intros k Hk. apply elem_of_app in Hk as [Hk | Hk].
    + rewrite <- (dataKeys_fmap _ _ Hf1 Ht1) in Hk.
      destruct (linked_keys _ _ _ Hl1 Hk) as [r Hr].
      destruct Hx2 as [Hsub _].
      pose proof (lookup_weaken _ _ _ _ Hr Hsub) as Hr2.
      destruct (lookupOk_node _ _ _ Hok2 Hr2) as (n & Hn & Hid).
      exists r, n. auto.
    + unfold optionKeys in Hk.
      apply list_elem_of_fmap in Hk as (o & -> & Ho).
      destruct (Hin2 o Ho) as [r Hr].
      destruct (lookupOk_node _ _ _ Hok2 Hr) as (n & Hn & Hid).
      exists r, n. auto.
  - destruct (extends_trans _ _ _ Hx1 Hx2) as [_ Hp].
    unfold bodies in Hp; cbn [g_nodes] in Hp.
    rewrite bodies_reset in Hp. exact Hp.
  - cbn [set_nodes_points s_points].
    apply Forall_forall. intros p Hp. rewrite Forall_forall in Hl1.
    apply linked_resolved; [assumption |].
    eapply linked_extends; [exact Hx2 | apply Hl1; assumption].
  - cbn [set_nodes_points s_points]. apply dataKeys_fmap; assumption.
Qed.
End Nodes.

(** A key that a plain object inherits is found in the empty lookup: no
    node is created for it, and pushing a link on what is found throws. *)
Lemma inherited_key `{Host} (push : nat → Point → Point) (k : string)
    (i : nat) (st : GenState) :
  inherited k = true → g_lookup st !! k = None →
  ensureNode k st = st ∧ pushLink push k i st = TypeError.
Proof.
  intros Hk Hl. unfold ensureNode, pushLink, js_get. rewrite Hl, Hk.
  split; reflexivity.
Qed.

Section Inherited.
Context `{Host}.

Lemma ids_alter (push : nat → Point → Point) i r (nodes : list Point) :
  (∀ n, body (push i n) = body n) →
  p_id <$> alter (push i) r nodes = p_id <$> nodes.
Proof.
  intros Hb. rewrite <- (ids_bodies (alter (push i) r nodes)).
  rewrite bodies_alter by assumption. apply ids_bodies.
Qed.

Lemma ensureNode_ownPlain k st : ownPlain st → ownPlain (ensureNode k st).
Proof.
  intros [Hown Hids]. unfold ensureNode, js_get.
  destruct (g_lookup st !! k) as [r |] eqn:El; simpl; [split; assumption |].
  destruct (inherited k) eqn:Hk; simpl; [split; assumption |].
  unfold createNode.
  destruct (list_find _ (g_nodes st)) as [[i n] |]; split; cbn [g_lookup g_nodes].
  - intros k' Hk'. rewrite lookup_insert_ne by congruence.
    apply Hown. assumption.
  - assumption.
  - intros k' Hk'. rewrite lookup_insert_ne by congruence.
    apply Hown. assumption.
  - intros k'. rewrite fmap_app. intros Hin.
    apply elem_of_app in Hin as [Hin | Hin]; [apply Hids; assumption |].
    apply list_elem_of_singleton in Hin. inversion Hin; subst. assumption.
Qed.

Lemma pushLink_ownPlain push k i st r st' :
  (∀ n, body (push i n) = body n) →
  ownPlain st → pushLink push k i st = Ok (r, st') →
  ownPlain st' ∧ is_Some (g_lookup st !! k).
Proof.
  intros Hb [Hown Hids]. unfold pushLink, js_get.
  destruct (g_lookup st !! k) as [r0 |] eqn:El.
  - intros E; inversion E; subst. split; [| eauto].
    split; [exact Hown |]. unfold plainIds; cbn [g_nodes].
    rewrite ids_alter by assumption. exact Hids.
  - destruct (inherited k); discriminate.
Qed.

(** An endpoint that does not throw has a key that is not inherited. *)
Lemma endpoint_ownPlain push k i st r st' :
  (∀ n, body (push i n) = body n) →
  ownPlain st → pushLink push k i (ensureNode k st) = Ok (r, st') →
  ownPlain st' ∧ inherited k = false.
Proof.
  intros Hb Hown Hp.
  pose proof (ensureNode_ownPlain k st Hown) as Hown1.
  destruct (pushLink_ownPlain _ _ _ _ _ _ Hb Hown1 Hp) as [Hown' [r0 Hr0]].
  split; [assumption |].
  destruct (inherited k) eqn:Hk; [| reflexivity].
  rewrite (proj1 Hown1 k Hk) in Hr0. discriminate.
Qed.

Lemma linkPoint_ownPlain i point st point' st' :
  ownPlain st → linkPoint i point st = Ok (point', st') →
  ownPlain st' ∧ plainKeys point.
Proof.
  intros Hown. unfold linkPoint, plainKeys.
  destruct (p_from point) as [from |]; cbv zeta.
  - destruct (pushLink pushLinksFrom from i (ensureNode from st))
      as [[r1 st1] |] eqn:E1; simpl; [| discriminate].
    destruct (endpoint_ownPlain _ _ _ _ _ _ (body_pushLinksFrom i) Hown E1)
      as [Hown1 Hf].
    destruct (p_to point) as [to |].
    + destruct (pushLink pushLinksTo to i (ensureNode to st1))
        as [[r2 st2] |] eqn:E2; simpl; [| discriminate].
      destruct (endpoint_ownPlain _ _ _ _ _ _ (body_pushLinksTo i) Hown1 E2)
        as [Hown2 Ht].
      intros E; inversion E; subst.
      split; [assumption |]. split; intros k Hk; congruence.
    + simpl. intros E; inversion E; subst.
      split; [assumption |]. split; intros k Hk; congruence.
  - simpl. destruct (p_to point) as [to |].
    + destruct (pushLink pushLinksTo to i (ensureNode to st))
        as [[r2 st2] |] eqn:E2; simpl; [| discriminate].
      destruct (endpoint_ownPlain _ _ _ _ _ _ (body_pushLinksTo i) Hown E2)
        as [Hown2 Ht].
      intros E; inversion E; subst.
      split; [assumption |]. split; intros k Hk; congruence.
    + simpl. intros E; inversion E; subst.
      split; [assumption |]. split; intros k Hk; congruence.
Qed.

Lemma linkPoints_ownPlain points : ∀ i st points' st',
  ownPlain st → linkPoints i points st = Ok (points', st') →
  ownPlain st' ∧ Forall plainKeys points.
Proof.
  induction points as [| point rest IH]; intros i st points' st' Hown;
    simpl.
  - intros E; inversion E; subst. split; [assumption | constructor].
  - destruct (linkPoint i point st) as [[p1 st1] |] eqn:E1; simpl;
      [| discriminate].
    destruct (linkPoint_ownPlain _ _ _ _ _ Hown E1) as [Hown1 Hp].
    destruct (linkPoints (S i) rest st1) as [[rest2 st2] |] eqn:E2; simpl;
      [| discriminate].
    destruct (IH _ _ _ _ Hown1 E2) as [Hown2 Hrest].
    intros E; inversion E; subst.
    split; [assumption |]. constructor; assumption.
Qed.

Lemma declareNodes_ownPlain nodeOptions : ∀ st,
  ownPlain st → ownPlain (declareNodes nodeOptions st).
Proof.
  unfold declareNodes.
  induction nodeOptions as [| o rest IH]; intros st Hown; simpl;
    [assumption |].
  apply IH, ensureNode_ownPlain, Hown.
Qed.

(** When [generatePoints] returns, no key of the data and no key of a
    node it has created is a name a plain object inherits. *)
Lemma generatePoints_plain (this this' : Series) :
  plainIds (default [] (s_nodes this)) →
  generatePoints this = Ok this' →
  (∀ k, k ∈ dataKeys (Series_generatePoints this) → inherited k = false)
  ∧ plainIds (default [] (s_nodes this')).
Proof.
  intros Hold. unfold generatePoints. cbv zeta.
  assert (Hown : ownPlain {| g_lookup := ∅;
                             g_nodes := resetLinks <$>
                                          default [] (s_nodes this) |}).
  { split; [intros k' _; apply lookup_empty |].
    unfold plainIds; cbn [g_nodes].
    rewrite <- ids_bodies, bodies_reset, ids_bodies. exact Hold. }
  destruct (linkPoints 0 (Series_generatePoints this) _)
    as [[points' st'] |] eqn:E; simpl; [| discriminate].
  destruct (linkPoints_ownPlain _ _ _ _ _ Hown E) as [Hown1 Hplain].
  intros E'; inversion E'; subst; clear E'.
  split.
  - intros k Hin. rewrite Forall_forall in Hplain. unfold dataKeys in Hin.
    apply elem_of_app in Hin as [Hin | Hin];
      apply list_elem_of_omap in Hin as (p & Hp & Hpk);
      destruct (Hplain p Hp) as [Hf Ht]; auto.
  - cbn [set_nodes_points s_nodes default].
    destruct (o_nodes (s_options this)) as [nodeOptions |].
    + apply (declareNodes_ownPlain nodeOptions st' Hown1).
    + apply Hown1.
Qed.

(** Whenever one key of the data is a name a plain object inherits,
    [generatePoints] throws. *)
Lemma generatePoints_inherited_data (this : Series) (k : string) :
  plainIds (default [] (s_nodes this)) →
  k ∈ dataKeys (Series_generatePoints this) → inherited k = true →
  generatePoints this = TypeError.
Proof.
  intros Hold Hin Hk.
  destruct (generatePoints this) as [this' |] eqn:E; [| reflexivity].
  destruct (generatePoints_plain _ _ Hold E) as [Hd _].
  rewrite (Hd k Hin) in Hk. discriminate.
Qed.
End Inherited.

(** C4. On a link from "constructor" to "b", [generatePoints] throws:
    [nodeLookup["constructor"]] is the inherited member of the empty
    lookup, so no node is created, and the push on its [linksFrom]
    fails. *)
Theorem generatePoints_inherited_key_throws :
  @generatePoints plainHost linkFromConstructor = TypeError.
Proof. vm_compute. reflexivity. Qed.

(** C3. For a series that declares a node "constructor" in its [nodes]
    option, [generatePoints] returns with the nodes "a" and "b" of its
    link and no node for the declared key. *)
Theorem generatePoints_inherited_key_no_node :
  ∃ this',
    @generatePoints plainHost declaresConstructor = Ok this'
    ∧ p_id <$> default [] (s_nodes this') = [Some "a"; Some "b"]
    ∧ "constructor" ∈ optionKeys declaresConstructor.
Proof.
  eexists. split; [vm_compute; reflexivity |].
  split; [reflexivity |]. apply list_elem_of_here.
Qed.

Lemma afterRedraw_eq :
  @redraw recordingLayouts plainHost [fst afterA] (snd afterA)
  = Ok (fst afterRedraw, snd afterRedraw).
Proof. vm_compute. reflexivity. Qed.

Lemma afterA_wf : wf (snd afterA).
Proof.
  exact (proj1 (deferLayout_wf _ _ _ _ (wf_fresh 400 300) afterA_eq)).
Qed.

(** C9 on the chart of the first sample series: its layout is stopped,
    registered with again and run. *)
Lemma stop_precedes_run_witness :
  ∃ sent,
    calls (snd afterRedraw) 0
    = calls (snd afterA) 0 ++ [Stop] ++ sent ++ [Run]
    ∧ Forall isRegistration sent.
Proof.
  exact (proj2 (@stop_precedes_run recordingLayouts plainHost (snd afterA))
    [fst afterA] (fst afterRedraw) (snd afterRedraw)
    "reingold-fruchterman" 0 afterA_wf eq_refl afterRedraw_eq).
Defined.

(** * Further properties *)

(** ** Node generation: what the loops rebuild *)

Section Rebuild.
Context `{Host}.

Lemma createNode_cases k nodes :
  (∃ r n, createNode k nodes = (r, nodes)
          ∧ nodes !! r = Some n ∧ p_id n = Some k)
  ∨ (Forall (λ n, p_id n ≠ Some k) nodes
     ∧ createNode k nodes = (List.length nodes, nodes ++ [freshNode k])).
Proof.
  unfold createNode.
  destruct (list_find _ nodes) as [[i n] |] eqn:Ef.
  - apply list_find_Some in Ef as (Hi & Hp & _). left. exists i, n. auto.
  - apply list_find_None in Ef. right. split; [exact Ef | reflexivity].
Qed.

(** [ensureNode] leaves the state alone, adopts a node there is, or
    appends a fresh one. *)
Lemma ensureNode_cases k st :
  (ensureNode k st = st
   ∧ (is_Some (g_lookup st !! k) ∨ inherited k = true))
  ∨ (g_lookup st !! k = None ∧ inherited k = false
     ∧ ((∃ r n, g_nodes st !! r = Some n ∧ p_id n = Some k
                ∧ ensureNode k st
                  = {| g_lookup := <[k := r]> (g_lookup st);
                       g_nodes := g_nodes st |})
        ∨ (Forall (λ n, p_id n ≠ Some k) (g_nodes st)
           ∧ ensureNode k st
             = {| g_lookup := <[k := List.length (g_nodes st)]> (g_lookup st);
                  g_nodes := g_nodes st ++ [freshNode k] |}))).
Proof.
  unfold ensureNode, js_get.
  destruct (g_lookup st !! k) as [r |] eqn:El; simpl; [left; eauto |].
  destruct (inherited k) eqn:Hk; simpl; [left; auto |].
  right. split; [reflexivity |]. split; [reflexivity |].
  destruct (createNode_cases k (g_nodes st))
    as [(r & n & Ec & Hn & Hid) | [Hf Ec]]; rewrite Ec.
  - left. exists r, n. auto.
  - right. auto.
Qed.

Lemma ensureNode_lookupOk k st :
  lookupOk st → lookupOk (ensureNode k st) ∧ extends st (ensureNode k st).
Proof.
  intros Hok. destruct (inherited k) eqn:Hk.
  - destruct (ensureNode_cases k st) as [[E _] | (_ & Hk' & _)];
      [| congruence].
    rewrite E. split; [assumption | apply extends_refl].
  - destruct (ensureNode_spec k st Hk Hok) as (H1 & H2 & _). auto.
Qed.

Lemma ids_inj (nodes : list Point) r r' n n' :
  NoDup (p_id <$> nodes) →
  nodes !! r = Some n → nodes !! r' = Some n' → p_id n = p_id n' → r = r'.
Proof.
  intros Hnd Hr Hr' Hid.
  apply (NoDup_lookup (p_id <$> nodes) r r' (p_id n)); [assumption | |].
  - rewrite list_lookup_fmap, Hr. reflexivity.
  - rewrite list_lookup_fmap, Hr', Hid. reflexivity.
Qed.

Lemma lookupOk_NoDup st : lookupOk st → NoDup (p_id <$> g_nodes st).
Proof.
  intros [Hnd _]. unfold bodies in Hnd. rewrite ids_bodies in Hnd. exact Hnd.
Qed.

Lemma rebuilt_ext ids0 F T seen F' T' seen' st :
  (∀ k, F k = F' k) → (∀ k, T k = T' k) →
  (∀ k, k ∈ seen → k ∈ seen') →
  rebuilt ids0 F T seen st → rebuilt ids0 F' T' seen' st.
Proof.
  intros HF HT HS (Hok & [Hl1 Hl2] & Hn & Hpl).
  split; [assumption |]. split; [| split; [| assumption]].
  - split.
    + intros r n Hr. specialize (Hl1 r n Hr). destruct (p_id n) as [k |];
        [rewrite <- HF, <- HT |]; assumption.
    + intros k Hk. rewrite <- HF, <- HT. apply Hl2. assumption.
  - intros x Hx. destruct (Hn x Hx) as [Hin | (k & -> & Hs & Hp)];
      [left; assumption |].
    right. exists k. auto.
Qed.

Lemma ensureNode_rebuilt ids0 F T seen k st :
  rebuilt ids0 F T seen st →
  rebuilt ids0 F T (k :: seen) (ensureNode k st)
  ∧ extends st (ensureNode k st)
  ∧ (inherited k = false → is_Some (g_lookup (ensureNode k st) !! k)).
Proof.
  intros (Hok & [Hl1 Hl2] & Hn & Hpl).
  destruct (ensureNode_lookupOk k st Hok) as [Hok' Hext].
  assert (Hweak : ∀ x, x ∈ p_id <$> g_nodes st →
            x ∈ ids0 ∨ ∃ k', x = Some k' ∧ k' ∈ k :: seen
                             ∧ inherited k' = false).
  { intros x Hx. destruct (Hn x Hx) as [Hin | (k' & -> & Hs & Hp)];
      [left; assumption |].
    right. exists k'. split; [reflexivity |].
    split; [apply elem_of_cons; auto | assumption]. }
  assert (Hins : ∀ r k', inherited k = false →
            is_Some (<[k := r]> (g_lookup st) !! k') → inherited k' = false).
  { intros r k' Hk. destruct (decide (k = k')) as [<- | Hne];
      [intros _; assumption |].
    rewrite lookup_insert_ne by assumption. apply Hpl. }
  assert (Hnone : ∀ (r : nat) k', <[k := r]> (g_lookup st) !! k' = None →
            F k' = [] ∧ T k' = []).
  { intros r k'. destruct (decide (k = k')) as [<- | Hne];
      [rewrite lookup_insert_eq; discriminate |].
    rewrite lookup_insert_ne by assumption. apply Hl2. }
  destruct (ensureNode_cases k st)
    as [[E Hc] | (El & Hk & [(r & n & Hr & Hid & E) | [Hf E]])].
  - rewrite E in *. split; [| split; [assumption |]].
    + split; [assumption |]. split; [split; assumption |].
      split; [exact Hweak | exact Hpl].
    + intros Hk. destruct Hc as [Hs | Hc]; [assumption | congruence].
  - split; [| split; [assumption |]].
    + split; [assumption |]. rewrite E.
      split; [split; [exact Hl1 | intros k'; cbn [g_lookup]; apply Hnone] |].
      split; [exact Hweak |].
      intros k'; cbn [g_lookup]; apply Hins; assumption.
    + intros _. rewrite E. cbn [g_lookup]. rewrite lookup_insert_eq. eauto.
  - split; [| split; [assumption |]].
    + split; [assumption |]. rewrite E.
      split; [split; [| intros k'; cbn [g_lookup]; apply Hnone] |];
        [| split; [| intros k'; cbn [g_lookup]; apply Hins; assumption]].
      * intros r n. cbn [g_nodes]. intros Hr.
        apply lookup_app_Some in Hr as [Hr | [_ Hr]];
          [apply Hl1 in Hr; exact Hr |].
        apply list_lookup_singleton_Some in Hr as [_ <-]. simpl.
        destruct (Hl2 k El) as [-> ->]. split; reflexivity.
      * intros x. cbn [g_nodes]. rewrite fmap_app. intros Hx.
        apply elem_of_app in Hx as [Hx | Hx]; [apply Hweak; assumption |].
        apply list_elem_of_singleton in Hx. subst x. right. exists k.
        split; [reflexivity |]. split; [apply list_elem_of_here | assumption].
    + intros _. rewrite E. cbn [g_lookup]. rewrite lookup_insert_eq. eauto.
Qed.

Lemma pushLink_rebuilt ids0 F T seen (push : nat → Point → Point)
    (gF gT : list nat → list nat) k i st r st' :
  (∀ n, body (push i n) = body n) →
  (∀ n, p_linksFrom (push i n) = gF (p_linksFrom n)) →
  (∀ n, p_linksTo (push i n) = gT (p_linksTo n)) →
  rebuilt ids0 F T seen st →
  pushLink push k i st = Ok (r, st') →
  rebuilt ids0 (λ k', if decide (k' = k) then gF (F k') else F k')
               (λ k', if decide (k' = k) then gT (T k') else T k') seen st'
  ∧ extends st st' ∧ g_lookup st' !! k = Some r ∧ inherited k = false.
Proof.
  intros Hb HgF HgT (Hok & [Hl1 Hl2] & Hn & Hpl). unfold pushLink, js_get.
  destruct (g_lookup st !! k) as [r0 |] eqn:El;
    [| destruct (inherited k); discriminate].
  intros E; inversion E; subst; clear E.
  assert (Eb : bodies {| g_lookup := g_lookup st;
                         g_nodes := alter (push i) r (g_nodes st) |}
               = bodies st)
    by (unfold bodies; cbn [g_nodes]; apply bodies_alter; assumption).
  assert (Hid : ∀ n, p_id (push i n) = p_id n)
    by (intros n; change (p_id (body (push i n)) = p_id (body n));
        rewrite Hb; reflexivity).
  destruct (lookupOk_node _ _ _ Hok El) as (nk & Hnk & Hidk).
  pose proof (lookupOk_NoDup _ Hok) as Hnd.
  split; [| split; [| split; [exact El | apply Hpl; eauto]]].
  - split; [| split; [| split; [| exact Hpl]]].
    + destruct Hok as [Hnd' Hlk]. split; [rewrite Eb; assumption |].
      intros k' r'. cbn [g_lookup]. rewrite Eb. apply Hlk.
    + split.
      * intros r' n'. cbn [g_nodes]. intros Hr'.
        destruct (decide (r = r')) as [<- | Hne].
        -- rewrite list_lookup_alter_eq, Hnk in Hr'. simpl in Hr'.
           inversion Hr'; subst n'; clear Hr'.
           rewrite Hid, Hidk, HgF, HgT.
           specialize (Hl1 _ _ Hnk). rewrite Hidk in Hl1.
           destruct Hl1 as [-> ->].
           destruct (decide (k = k)); [split; reflexivity | congruence].
        -- rewrite list_lookup_alter_ne in Hr' by assumption.
           specialize (Hl1 _ _ Hr'). destruct (p_id n') as [k' |] eqn:Hk';
             [| assumption].
           destruct (decide (k' = k)) as [-> | Hnk']; [| assumption].
           exfalso. apply Hne.
           apply (ids_inj (g_nodes st) r r' nk n'); congruence.
      * intros k'. cbn [g_lookup]. intros Hk'.
        destruct (decide (k' = k)) as [-> | Hnk']; [congruence |].
        apply Hl2. assumption.
    + intros x. cbn [g_nodes]. rewrite ids_alter by assumption. apply Hn.
  - split; [reflexivity | rewrite Eb; reflexivity].
Qed.

(** One endpoint of a link, when it does not throw. *)
Lemma endpoint_rebuilt ids0 F T seen (push : nat → Point → Point)
    (gF gT : list nat → list nat) k i st r st' :
  (∀ n, body (push i n) = body n) →
  (∀ n, p_linksFrom (push i n) = gF (p_linksFrom n)) →
  (∀ n, p_linksTo (push i n) = gT (p_linksTo n)) →
  rebuilt ids0 F T seen st →
  pushLink push k i (ensureNode k st) = Ok (r, st') →
  rebuilt ids0 (λ k', if decide (k' = k) then gF (F k') else F k')
               (λ k', if decide (k' = k) then gT (T k') else T k')
               (k :: seen) st'
  ∧ extends st st' ∧ g_lookup st' !! k = Some r ∧ inherited k = false.
Proof.
  intros Hb HgF HgT Hre Hp.
  destruct (ensureNode_rebuilt ids0 F T seen k st Hre) as (Hre1 & Hx1 & _).
  destruct (pushLink_rebuilt _ _ _ _ _ _ _ _ _ _ _ _ Hb HgF HgT Hre1 Hp)
    as (Hre2 & Hx2 & Hl & Hk).
  split; [assumption |].
  split; [eapply extends_trans; eassumption |]. auto.
Qed.
Lemma dataKeys_one k point :
  k ∈ dataKeys [point] ↔ p_from point = Some k ∨ p_to point = Some k.
Proof.
  unfold dataKeys. rewrite elem_of_app, !list_elem_of_omap. split.
  - intros [(p & Hp & Hk) | (p & Hp & Hk)];
      apply list_elem_of_singleton in Hp; subst p; auto.
  - intros [Hk | Hk]; [left | right]; exists point;
      (split; [apply list_elem_of_here | assumption]).
Qed.

Lemma dataKeys_cons k point rest :
  k ∈ dataKeys (point :: rest) ↔ k ∈ dataKeys [point] ∨ k ∈ dataKeys rest.
Proof.
  unfold dataKeys. rewrite !elem_of_app, !list_elem_of_omap. split.
  - intros [(p & Hp & Hk) | (p & Hp & Hk)];
      apply elem_of_cons in Hp as [-> | Hp].
    + left. left. exists point. split; [apply list_elem_of_here | assumption].
    + right. left. exists p. auto.
    + left. right. exists point. split; [apply list_elem_of_here | assumption].
    + right. right. exists p. auto.
  - intros [[(p & Hp & Hk) | (p & Hp & Hk)] | [(p & Hp & Hk) | (p & Hp & Hk)]].
    + apply list_elem_of_singleton in Hp; subst p. left. exists point.
      split; [apply list_elem_of_here | assumption].
    + apply list_elem_of_singleton in Hp; subst p. right. exists point.
      split; [apply list_elem_of_here | assumption].
    + left. exists p. split; [apply list_elem_of_further |]; assumption.
    + right. exists p. split; [apply list_elem_of_further |]; assumption.
Qed.

Ltac links_ext :=
  intros ?; cbv beta; repeat case_decide; simplify_eq;
  rewrite ?app_nil_r; reflexivity.

(** One round of the loop over the points, when it does not throw: the
    index of the point is added to the links of the nodes of its keys. *)
Lemma linkPoint_rebuilt ids0 F T seen i point st point' st' :
  rebuilt ids0 F T seen st →
  linkPoint i point st = Ok (point', st') →
  rebuilt ids0
    (λ k, F k ++ if decide (p_from point = Some k) then [i] else [])
    (λ k, T k ++ if decide (p_to point = Some k) then [i] else [])
    (dataKeys [point] ++ seen) st'
  ∧ extends st st' ∧ linked st' point' ∧ plainKeys point
  ∧ p_from point' = p_from point ∧ p_to point' = p_to point.
Proof.
  intros Hre. unfold linkPoint, plainKeys.
  destruct (p_from point) as [a |] eqn:Ea; cbv zeta.
  - destruct (pushLink pushLinksFrom a i (ensureNode a st))
      as [[r1 st1] |] eqn:E1; simpl; [| discriminate].
    destruct (endpoint_rebuilt ids0 F T seen pushLinksFrom
                (λ l, l ++ [i]) (λ l, l) a i st r1 st1
                (body_pushLinksFrom i) (λ _, eq_refl) (λ _, eq_refl) Hre E1)
      as (Hre1 & Hx1 & Hl1 & Hka).
    destruct (p_to point) as [b |] eqn:Eb.
    + destruct (pushLink pushLinksTo b i (ensureNode b st1))
        as [[r2 st2] |] eqn:E2; simpl; [| discriminate].
      destruct (endpoint_rebuilt _ _ _ _ pushLinksTo
                  (λ l, l) (λ l, l ++ [i]) b i st1 r2 st2
                  (body_pushLinksTo i) (λ _, eq_refl) (λ _, eq_refl) Hre1 E2)
        as (Hre2 & Hx2 & Hl2 & Hkb).
      intros E; inversion E; subst; clear E.
      split; [eapply rebuilt_ext; [| | | exact Hre2]; [links_ext | links_ext |] |].
      { intros k Hk. apply elem_of_app.
        rewrite dataKeys_one, Ea, Eb.
        apply elem_of_cons in Hk as [-> | Hk]; [auto |].
        apply elem_of_cons in Hk as [-> | Hk]; auto. }
      split; [eapply extends_trans; eassumption |].
      split; [| split; [split; intros k Hk; congruence | simpl; auto]].
      split; simpl; intros k Hk.
      * rewrite Ea in Hk. inversion Hk; subst. exists r1.
        split; [reflexivity |].
        destruct Hx2 as [Hsub _]. eapply lookup_weaken; eassumption.
      * rewrite Eb in Hk. inversion Hk; subst. exists r2.
        split; [reflexivity | assumption].
    + simpl. intros E; inversion E; subst; clear E.
      split; [eapply rebuilt_ext; [| | | exact Hre1]; [links_ext | links_ext |] |].
      { intros k Hk. apply elem_of_app. rewrite dataKeys_one, Ea, Eb.
        apply elem_of_cons in Hk as [-> | Hk]; auto. }
      split; [assumption |].
      split; [| split; [split; intros k Hk; congruence | simpl; auto]].
      split; simpl; intros k Hk.
      * rewrite Ea in Hk. inversion Hk; subst. exists r1.
        split; [reflexivity | assumption].
      * rewrite Eb in Hk. discriminate.
  - simpl. destruct (p_to point) as [b |] eqn:Eb.
    + destruct (pushLink pushLinksTo b i (ensureNode b st))
        as [[r2 st2] |] eqn:E2; simpl; [| discriminate].
      destruct (endpoint_rebuilt _ _ _ _ pushLinksTo
                  (λ l, l) (λ l, l ++ [i]) b i st r2 st2
                  (body_pushLinksTo i) (λ _, eq_refl) (λ _, eq_refl) Hre E2)
        as (Hre2 & Hx2 & Hl2 & Hkb).
      intros E; inversion E; subst; clear E.
      split; [eapply rebuilt_ext; [| | | exact Hre2]; [links_ext | links_ext |] |].
      { intros k Hk. apply elem_of_app. rewrite dataKeys_one, Ea, Eb.
        apply elem_of_cons in Hk as [-> | Hk]; auto. }
      split; [assumption |].
      split; [| split; [split; intros k Hk; congruence | simpl; auto]].
      split; simpl; intros k Hk.
      * rewrite Ea in Hk. discriminate.
      * rewrite Eb in Hk. inversion Hk; subst. exists r2.
        split; [reflexivity | assumption].
    + simpl. intros E; inversion E; subst; clear E.
      split; [eapply rebuilt_ext; [| | | exact Hre]; [links_ext | links_ext |] |].
      { intros k Hk. apply elem_of_app. auto. }
      split; [apply extends_refl |].
      split; [| split; [split; intros k Hk; congruence | simpl; auto]].
      split; simpl; intros k Hk; congruence.
Qed.

Lemma linkPoints_rebuilt ids0 points : ∀ F T seen i st points' st',
  rebuilt ids0 F T seen st →
  linkPoints i points st = Ok (points', st') →
  rebuilt ids0 (λ k, F k ++ incident p_from k i points)
               (λ k, T k ++ incident p_to k i points)
               (dataKeys points ++ seen) st'
  ∧ extends st st' ∧ Forall (linked st') points' ∧ Forall plainKeys points
  ∧ p_from <$> points' = p_from <$> points
  ∧ p_to <$> points' = p_to <$> points.
Proof.
  induction points as [| point rest IH];
    intros F T seen i st points' st' Hre; simpl.
  - intros E; inversion E; subst; clear E.
    split; [eapply rebuilt_ext; [| | | exact Hre]; [links_ext | links_ext |] |].
    { intros k Hk. exact Hk. }
    split; [apply extends_refl |]. split; [constructor |].
    split; [constructor |]. split; reflexivity.
  - destruct (linkPoint i point st) as [[p1 st1] |] eqn:E1; simpl;
      [| discriminate].
    destruct (linkPoint_rebuilt _ _ _ _ _ _ _ _ _ Hre E1)
      as (Hre1 & Hx1 & Hl1 & Hp1 & Hf1 & Ht1).
    destruct (linkPoints (S i) rest st1) as [[rest2 st2] |] eqn:E2; simpl;
      [| discriminate].
    destruct (IH _ _ _ _ _ _ _ Hre1 E2)
      as (Hre2 & Hx2 & Hl2 & Hp2 & Hf2 & Ht2).
    intros E; inversion E; subst; clear E.
    split.
    { eapply rebuilt_ext; [| | | exact Hre2].
      - intros k. cbv beta. rewrite <- app_assoc. reflexivity.
      - intros k. cbv beta. rewrite <- app_assoc. reflexivity.
      - intros k Hk. apply elem_of_app. rewrite dataKeys_cons.
        apply elem_of_app in Hk as [Hk | Hk]; [auto |].
        apply elem_of_app in Hk as [Hk | Hk]; auto. }
    split; [eapply extends_trans; eassumption |].
    split; [constructor;
            [eapply linked_extends; eassumption | assumption] |].
    split; [constructor; assumption |].
    split; rewrite !fmap_cons;
      [rewrite Hf1, Hf2 | rewrite Ht1, Ht2]; reflexivity.
Qed.

Lemma declareNodes_rebuilt ids0 F T nodeOptions : ∀ seen st,
  rebuilt ids0 F T seen st →
  rebuilt ids0 F T ((no_id <$> nodeOptions) ++ seen)
          (declareNodes nodeOptions st)
  ∧ extends st (declareNodes nodeOptions st)
  ∧ ∀ o, o ∈ nodeOptions → inherited (no_id o) = false →
         is_Some (g_lookup (declareNodes nodeOptions st) !! no_id o).
Proof.
  unfold declareNodes.
  induction nodeOptions as [| o rest IH]; intros seen st Hre; simpl.
  - split; [exact Hre |]. split; [apply extends_refl |].
    intros o Ho. inversion Ho.
  - destruct (ensureNode_rebuilt _ _ _ _ (no_id o) st Hre)
      as (Hre1 & Hx1 & Hs1).
    destruct (IH _ _ Hre1) as (Hre2 & Hx2 & Hin2).
    split.
    { eapply rebuilt_ext; [| | | exact Hre2]; try reflexivity.
      intros k Hk. apply elem_of_cons.
      apply elem_of_app in Hk as [Hk | Hk].
      - right. apply elem_of_app. left. exact Hk.
      - apply elem_of_cons in Hk as [-> | Hk]; [left; reflexivity |].
        right. apply elem_of_app. right. exact Hk. }
    split; [eapply extends_trans; eassumption |].
    intros o' Ho' Hk'. apply elem_of_cons in Ho' as [-> | Ho'].
    + destruct (Hs1 Hk') as [r Hr]. exists r. destruct Hx2 as [Hsub _].
      eapply lookup_weaken; eassumption.
    + apply Hin2; assumption.
Qed.
(** When [generatePoints] returns: what holds of the nodes and points
    it leaves. *)
Lemma generatePoints_returns (this this' : Series) :
  let old := default [] (s_nodes this) in
  let points := Series_generatePoints this in
  NoDup (p_id <$> old) →
  generatePoints this = Ok this' →
  ∃ nodes,
    s_nodes this' = Some nodes
    ∧ NoDup (p_id <$> nodes)
    ∧ body <$> old `prefix_of` body <$> nodes
    ∧ (∀ r n, nodes !! r = Some n →
         match p_id n with
         | Some k => p_linksFrom n = incident p_from k 0 points
                     ∧ p_linksTo n = incident p_to k 0 points
         | None => p_linksFrom n = [] ∧ p_linksTo n = []
         end)
    ∧ (∀ x, x ∈ p_id <$> nodes →
         x ∈ p_id <$> old
         ∨ ∃ k, x = Some k ∧ k ∈ dataKeys points ++ optionKeys this
                ∧ inherited k = false)
    ∧ (∀ k, k ∈ dataKeys points ++ optionKeys this → inherited k = false →
         Some k ∈ p_id <$> nodes)
    ∧ Forall plainKeys points
    ∧ Forall (resolved nodes) (s_points this')
    ∧ p_from <$> s_points this' = p_from <$> points
    ∧ p_to <$> s_points this' = p_to <$> points.
Proof.
  intros old points Hnd. unfold generatePoints. fold old. fold points.
  cbv zeta.
  assert (Hre0 : rebuilt (p_id <$> old) (λ _, []) (λ _, []) []
                   {| g_lookup := ∅; g_nodes := resetLinks <$> old |}).
  { split; [| split; [| split]].
    - split.
      + unfold bodies; cbn [g_nodes].
        rewrite bodies_reset, ids_bodies. assumption.
      + intros k r. cbn [g_lookup]. rewrite lookup_empty. discriminate.
    - split; [| auto].
      intros r n. cbn [g_nodes]. intros Hr.
      apply list_lookup_fmap_Some in Hr as (n0 & -> & _). simpl.
      destruct (p_id n0); split; reflexivity.
    - intros x. cbn [g_nodes].
      change (resetLinks <$> old) with (body <$> old).
      rewrite ids_bodies. auto.
    - intros k. cbn [g_lookup]. rewrite lookup_empty.
      intros [? Hk]. discriminate. }
  destruct (linkPoints 0 points _) as [[points' st1] |] eqn:E1; simpl;
    [| discriminate].
  destruct (linkPoints_rebuilt _ _ _ _ _ _ _ _ _ Hre0 E1)
    as (Hre1 & Hx1 & Hl1 & Hp1 & Hf1 & Ht1).
  destruct (declareNodes_rebuilt _ _ _
              (default [] (o_nodes (s_options this))) _ _ Hre1)
    as (Hre2 & Hx2 & Hin2).
  set (st2 := declareNodes (default [] (o_nodes (s_options this))) st1) in *.
  assert (Est : match o_nodes (s_options this) with
                | Some nodeOptions => declareNodes nodeOptions st1
                | None => st1
                end = st2).
  { unfold st2. destruct (o_nodes (s_options this)); reflexivity. }
  rewrite Est. intros E; inversion E; subst this'; clear E.
  exists (g_nodes st2). cbn [set_nodes_points s_nodes s_points].
  destruct Hre2 as (Hok2 & [Hlk1 _] & Hn2 & _).
  split; [reflexivity |]. split; [apply lookupOk_NoDup; assumption |].
  split.
  { destruct (extends_trans _ _ _ Hx1 Hx2) as [_ Hp].
    unfold bodies in Hp; cbn [g_nodes] in Hp.
    rewrite bodies_reset in Hp. exact Hp. }
  split; [exact Hlk1 |].
  split.
  { intros x Hx. destruct (Hn2 x Hx) as [Hin | (k & -> & Hs & Hk)];
      [left; assumption |].
    right. exists k. split; [reflexivity |]. split; [| assumption].
    apply elem_of_app in Hs as [Hs | Hs].
    - apply elem_of_app. right. exact Hs.
    - rewrite app_nil_r in Hs. apply elem_of_app. left. exact Hs. }
  split.
  { intros k Hk Hpl.
    assert (Hs : is_Some (g_lookup st2 !! k)).
    { apply elem_of_app in Hk as [Hk | Hk].
      - rewrite <- (dataKeys_fmap _ _ Hf1 Ht1) in Hk.
        destruct (linked_keys _ _ _ Hl1 Hk) as [r Hr]. exists r.
        destruct Hx2 as [Hsub _]. eapply lookup_weaken; eassumption.
      - unfold optionKeys in Hk.
        apply list_elem_of_fmap in Hk as (o & -> & Ho).
        apply Hin2; assumption. }
    destruct Hs as [r Hr].
    destruct (lookupOk_node _ _ _ Hok2 Hr) as (n & Hn & Hid).
    apply list_elem_of_fmap. exists n. split; [congruence |].
    eapply list_elem_of_lookup_2. exact Hn. }
  split; [assumption |].
  split; [| split; assumption].
  apply Forall_forall. intros p Hp. rewrite Forall_forall in Hl1.
  apply linked_resolved; [assumption |].
  eapply linked_extends; [exact Hx2 | apply Hl1; assumption].
Qed.

Lemma incident_length sel k points : ∀ i,
  List.length (incident sel k i points)
  = List.length (filter (λ point, sel point = Some k) points).
Proof.
  induction points as [| point rest IH]; intros i; simpl; [reflexivity |].
  rewrite filter_cons. rewrite length_app, IH.
  destruct (decide (sel point = Some k)); reflexivity.
Qed.

Lemma incident_nil sel k points : ∀ i,
  k ∉ omap sel points → incident sel k i points = [].
Proof.
  induction points as [| point rest IH]; intros i Hk; simpl; [reflexivity |].
  destruct (decide (sel point = Some k)) as [E | _].
  - exfalso. apply Hk. apply list_elem_of_omap. exists point.
    split; [apply list_elem_of_here | assumption].
  - apply IH. intros Hin. apply Hk.
    apply list_elem_of_omap in Hin as (p & Hp & Hpk).
    apply list_elem_of_omap. exists p.
    split; [apply list_elem_of_further |]; assumption.
Qed.

Lemma incident_fmap sel k (l' : list Point) : ∀ l i,
  sel <$> l' = sel <$> l → incident sel k i l' = incident sel k i l.
Proof.
  induction l' as [| x' l' IH]; intros [| x l] i E; try discriminate;
    [reflexivity |].
  rewrite !fmap_cons in E. inversion E as [[E1 E2]].
  simpl. rewrite E1, (IH l (S i) E2). reflexivity.
Qed.

(** A node is its body together with its links. *)
Lemma node_eq (n n' : Point) :
  body n = body n' → p_linksFrom n = p_linksFrom n' →
  p_linksTo n = p_linksTo n' → n = n'.
Proof.
  destruct n, n'. unfold body, resetLinks. simpl.
  intros E -> ->. inversion E. reflexivity.
Qed.

Lemma plainKeys_dataKeys points :
  Forall plainKeys points ↔ ∀ k, k ∈ dataKeys points → inherited k = false.
Proof.
  rewrite Forall_forall. unfold dataKeys. split.
  - intros Hp k Hk.
    apply elem_of_app in Hk as [Hk | Hk];
      apply list_elem_of_omap in Hk as (p & Hin & Hpk);
      destruct (Hp p Hin) as [Hf Ht]; auto.
  - intros Hk p Hin. split; intros k Hpk; apply Hk, elem_of_app;
      [left | right]; apply list_elem_of_omap; exists p; auto.
Qed.

(** With keys that are not inherited names, the loop over the points
    does not throw, whatever the state. *)
Lemma linkPoints_total points : ∀ i st,
  Forall plainKeys points → ∃ res, linkPoints i points st = Ok res.
Proof.
  assert (Hend : ∀ push k i st, inherited k = false →
            ∃ res, pushLink push k i (ensureNode k st) = Ok res).
  { intros push k i st Hk.
    assert (Hs : is_Some (g_lookup (ensureNode k st) !! k)).
    { destruct (ensureNode_cases k st)
        as [[E [Hs | Hc]] | (_ & _ & [(r & n & _ & _ & E) | [_ E]])];
        rewrite E; cbn [g_lookup];
        [exact Hs | congruence | rewrite lookup_insert_eq; eauto ..]. }
    destruct Hs as [r Hr]. unfold pushLink, js_get. rewrite Hr. eauto. }
  induction points as [| point rest IH]; intros i st Hp; simpl; [eauto |].
  apply Forall_cons in Hp as [[Hf Ht] Hps].
  assert (Hone : ∃ res, linkPoint i point st = Ok res).
  { unfold linkPoint. destruct (p_from point) as [a |]; cbv zeta.
    - destruct (Hend pushLinksFrom a i st (Hf _ eq_refl)) as [[r1 st1] E1].
      rewrite E1. simpl. destruct (p_to point) as [b |].
      + destruct (Hend pushLinksTo b i st1 (Ht _ eq_refl)) as [[r2 st2] E2].
        rewrite E2. simpl. eauto.
      + simpl. eauto.
    - simpl. destruct (p_to point) as [b |].
      + destruct (Hend pushLinksTo b i st (Ht _ eq_refl)) as [[r2 st2] E2].
        rewrite E2. simpl. eauto.
      + simpl. eauto. }
  destruct Hone as [[p1 st1] E1]. rewrite E1. simpl.
  destruct (IH (S i) st1 Hps) as [[rest2 st2] E2]. rewrite E2. simpl. eauto.
Qed.

Lemma generatePoints_total (this : Series) :
  Forall plainKeys (Series_generatePoints this) →
  ∃ this', generatePoints this = Ok this'.
Proof.
  intros Hp. unfold generatePoints. cbv zeta.
  destruct (linkPoints_total (Series_generatePoints this) 0
              {| g_lookup := ∅;
                 g_nodes := resetLinks <$> default [] (s_nodes this) |} Hp)
    as [[points' st1] E1].
  rewrite E1. simpl. eauto.
Qed.
(** X1. When [generatePoints] returns, the links of every node are
    rebuilt from the data: [linksFrom] holds the indices of the points
    whose [from] is the key of the node, in the order of the data, and
    [linksTo] those whose [to] is; links of an earlier run are gone. *)
Theorem generatePoints_links (this this' : Series) (r : nat) (n : Point)
    (k : string) :
  NoDup (p_id <$> default [] (s_nodes this)) →
  generatePoints this = Ok this' →
  default [] (s_nodes this') !! r = Some n → p_id n = Some k →
  p_linksFrom n = incident p_from k 0 (Series_generatePoints this)
  ∧ p_linksTo n = incident p_to k 0 (Series_generatePoints this).
Proof.
  intros Hnd Hg Hr Hid.
  destruct (generatePoints_returns this this' Hnd Hg)
    as (nodes & Hs & _ & _ & Hlk & _).
  rewrite Hs in Hr. simpl in Hr.
  specialize (Hlk r n Hr). rewrite Hid in Hlk. exact Hlk.
Qed.

(** X2. When [generatePoints] returns, the degree of a node is the
    number of link ends at its key (a link from a node to itself counts
    twice), and 1 for a node that no link names. *)
Theorem generatePoints_degree (this this' : Series) (r : nat) (n : Point)
    (k : string) :
  NoDup (p_id <$> default [] (s_nodes this)) →
  generatePoints this = Ok this' →
  default [] (s_nodes this') !! r = Some n → p_id n = Some k →
  p_isNode n = true →
  getDegree n = Nat.max 1 (linkCount k (Series_generatePoints this)).
Proof.
  intros Hnd Hg Hr Hid Hnode.
  destruct (generatePoints_returns this this' Hnd Hg)
    as (nodes & Hs & _ & _ & Hlk & _).
  rewrite Hs in Hr. simpl in Hr.
  specialize (Hlk r n Hr). rewrite Hid in Hlk. destruct Hlk as [Hf Ht].
  unfold getDegree, linkCount. rewrite Hnode, Hf, Ht, !incident_length.
  destruct (Nat.eqb_spec
    (List.length (filter (λ point, p_from point = Some k)
                    (Series_generatePoints this))
     + List.length (filter (λ point, p_to point = Some k)
                      (Series_generatePoints this))) 0) as [E | E].
  - rewrite E. reflexivity.
  - lia.
Qed.

(** X3. Generating the points again from the same data changes no
    node: a series that holds the nodes of a first run, has the same
    [nodes] option and data with the same [from] and [to] keys gets
    back the very same nodes, none added and none altered. *)
Theorem generatePoints_again (this this' again : Series) :
  NoDup (p_id <$> default [] (s_nodes this)) →
  generatePoints this = Ok this' →
  s_nodes again = s_nodes this' →
  o_nodes (s_options again) = o_nodes (s_options this) →
  p_from <$> Series_generatePoints again
    = p_from <$> Series_generatePoints this →
  p_to <$> Series_generatePoints again
    = p_to <$> Series_generatePoints this →
  ∃ again', generatePoints again = Ok again'
            ∧ s_nodes again' = s_nodes this'.
Proof.
  intros Hnd Hg Hn Ho Hf Ht.
  destruct (generatePoints_returns this this' Hnd Hg)
    as (nodes & Hs & Hnd1 & _ & Hlk1 & _ & Hex1 & Hpl1 & _).
  assert (Hkeys : ∀ k, k ∈ dataKeys (Series_generatePoints again)
                          ++ optionKeys again →
                  k ∈ dataKeys (Series_generatePoints this)
                      ++ optionKeys this).
  { intros k. unfold optionKeys. rewrite Ho, (dataKeys_fmap _ _ Hf Ht).
    auto. }
  assert (Hpl2 : Forall plainKeys (Series_generatePoints again)).
  { apply plainKeys_dataKeys. intros k Hk.
    rewrite (dataKeys_fmap _ _ Hf Ht) in Hk.
    revert k Hk. apply plainKeys_dataKeys. assumption. }
  destruct (generatePoints_total again Hpl2) as [again' Hg2].
  exists again'. split; [exact Hg2 |].
  assert (Hold2 : default [] (s_nodes again) = nodes)
    by (rewrite Hn, Hs; reflexivity).
  assert (Hnd2 : NoDup (p_id <$> default [] (s_nodes again)))
    by (rewrite Hold2; assumption).
  destruct (generatePoints_returns again again' Hnd2 Hg2)
    as (nodes2 & Hs2 & Hnd2' & Hpre2 & Hlk2 & Hnamed2 & _).
  rewrite Hold2 in Hpre2, Hnamed2. rewrite Hs2, Hs. f_equal.
  destruct Hpre2 as [extra Hextra].
  assert (extra = []) as ->.
  { destruct extra as [| e extra]; [reflexivity |]. exfalso.
    assert (Hids : p_id <$> nodes2
                   = (p_id <$> nodes) ++ p_id e :: (p_id <$> extra)).
    { rewrite <- (ids_bodies nodes2), Hextra, fmap_app, ids_bodies.
      reflexivity. }
    rewrite Hids in Hnd2'. apply NoDup_app in Hnd2' as (_ & Hdisj & _).
    assert (Hin : p_id e ∈ p_id <$> nodes2)
      by (rewrite Hids; apply elem_of_app; right; apply list_elem_of_here).
    assert (Hold : p_id e ∈ p_id <$> nodes).
    { destruct (Hnamed2 _ Hin) as [Ho' | (k & Ek & Hk & Hp)];
        [assumption |].
      rewrite Ek. apply Hex1; [apply Hkeys |]; assumption. }
    apply (Hdisj _ Hold). apply list_elem_of_here. }
  rewrite app_nil_r in Hextra.
  apply list_eq. intros i.
  assert (Hi : (body <$> nodes2) !! i = (body <$> nodes) !! i)
    by (rewrite Hextra; reflexivity).
  rewrite !list_lookup_fmap in Hi.
  destruct (nodes2 !! i) as [n2 |] eqn:E2;
    destruct (nodes !! i) as [n1 |] eqn:E1;
    unfold fmap, option_fmap, option_map in Hi;
    try discriminate; [| reflexivity].
  assert (Hb : body n2 = body n1) by congruence. f_equal.
  specialize (Hlk2 i n2 E2). specialize (Hlk1 i n1 E1).
  assert (Hid : p_id n2 = p_id n1)
    by (change (p_id (body n2) = p_id (body n1)); rewrite Hb; reflexivity).
  rewrite Hid in Hlk2.
  destruct (p_id n1) as [k |]; destruct Hlk1 as [F1 T1];
    destruct Hlk2 as [F2 T2]; apply node_eq; try assumption.
  - rewrite F1, F2. apply incident_fmap. assumption.
  - rewrite T1, T2. apply incident_fmap. assumption.
  - congruence.
  - congruence.
Qed.

(** X4. [generatePoints] never removes a node: a node there was before
    is still at its index afterwards, all but its links unchanged; and
    when no link of the data names its key any more, it is left with
    empty links. *)
Theorem generatePoints_keeps_nodes (this this' : Series) (r : nat)
    (n : Point) :
  NoDup (p_id <$> default [] (s_nodes this)) →
  generatePoints this = Ok this' →
  default [] (s_nodes this) !! r = Some n →
  ∃ n', default [] (s_nodes this') !! r = Some n'
        ∧ body n' = body n
        ∧ (∀ k, p_id n = Some k →
             k ∉ dataKeys (Series_generatePoints this) →
             n' = resetLinks n).
Proof.
  intros Hnd Hg Hr.
  destruct (generatePoints_returns this this' Hnd Hg)
    as (nodes & Hs & _ & Hpre & Hlk & _).
  rewrite Hs. simpl.
  assert (Hb : (body <$> nodes) !! r = Some (body n)).
  { eapply prefix_lookup_Some; [| exact Hpre].
    rewrite list_lookup_fmap, Hr. reflexivity. }
  apply list_lookup_fmap_Some in Hb as (n' & Hb & Hn').
  exists n'. split; [assumption |]. split; [congruence |].
  intros k Hid Hk.
  specialize (Hlk r n' Hn').
  assert (Hid' : p_id n' = Some k)
    by (change (p_id (body n') = Some k); rewrite <- Hb; exact Hid).
  rewrite Hid' in Hlk. destruct Hlk as [HF HT].
  apply node_eq; [rewrite <- Hb; reflexivity | |].
  - rewrite HF. apply incident_nil. intros Hin. apply Hk.
    unfold dataKeys. apply elem_of_app. auto.
  - rewrite HT. apply incident_nil. intros Hin. apply Hk.
    unfold dataKeys. apply elem_of_app. auto.
Qed.

(** X5. [generatePoints] adds exactly one node for each distinct key
    that the data or the [nodes] option name, that had no node and that
    is not a name a plain object inherits; it adds no other node. *)
Theorem generatePoints_count (this this' : Series) :
  NoDup (p_id <$> default [] (s_nodes this)) →
  generatePoints this = Ok this' →
  List.length (default [] (s_nodes this'))
  = List.length (default [] (s_nodes this)) + List.length (newKeys this).
Proof.
  intros Hnd Hg.
  destruct (generatePoints_returns this this' Hnd Hg)
    as (nodes & Hs & Hnd' & Hpre & _ & Hnamed & Hex & _).
  rewrite Hs. simpl. destruct Hpre as [extra Hextra].
  set (old := default [] (s_nodes this)) in *.
  assert (Hids : p_id <$> nodes = (p_id <$> old) ++ (p_id <$> extra)).
  { rewrite <- (ids_bodies nodes), Hextra, fmap_app, ids_bodies.
    reflexivity. }
  assert (Hlen : List.length nodes
                 = List.length old + List.length (p_id <$> extra)).
  { rewrite <- (length_fmap p_id nodes), Hids, length_app, length_fmap.
    reflexivity. }
  rewrite Hlen. f_equal.
  rewrite Hids in Hnd'. apply NoDup_app in Hnd' as (_ & Hdisj & Hnde).
  rewrite <- (length_fmap Some (newKeys this)).
  apply Permutation_length, NoDup_Permutation; [assumption | |].
  - apply NoDup_fmap_2; [intros x y E; congruence |].
    apply NoDup_remove_dups.
  - intros x. unfold newKeys. split.
    + intros Hx.
      assert (Hin : x ∈ p_id <$> nodes)
        by (rewrite Hids; apply elem_of_app; auto).
      assert (Hnew : x ∉ p_id <$> old)
        by (intros Ho; exact (Hdisj _ Ho Hx)).
      destruct (Hnamed _ Hin) as [Ho | (k & -> & Hk & Hp)];
        [contradiction |].
      apply list_elem_of_fmap. exists k. split; [reflexivity |].
      apply elem_of_remove_dups, list_elem_of_filter. auto.
    + intros Hx. apply list_elem_of_fmap in Hx as (k & -> & Hk).
      apply elem_of_remove_dups, list_elem_of_filter in Hk
        as [[Hp Hnew] Hk].
      pose proof (Hex k Hk Hp) as Hin. rewrite Hids in Hin.
      apply elem_of_app in Hin as [Ho | He]; [contradiction | assumption].
Qed.
Lemma ensureNode_lookupPlain k st :
  lookupPlain st → lookupPlain (ensureNode k st).
Proof.
  intros Hpl.
  assert (Hins : ∀ (r : nat), inherited k = false →
            lookupPlain {| g_lookup := <[k := r]> (g_lookup st);
                           g_nodes := g_nodes st |}).
  { intros r Hk k'. cbn [g_lookup].
    destruct (decide (k = k')) as [<- | Hne]; [intros _; assumption |].
    rewrite lookup_insert_ne by assumption. apply Hpl. }
  destruct (ensureNode_cases k st)
    as [[E _] | (_ & Hk & [(r & n & _ & _ & E) | [_ E]])]; rewrite E.
  - assumption.
  - apply Hins; assumption.
  - intros k'. cbn [g_lookup]. apply (Hins _ Hk k').
Qed.

Lemma pushLink_lookupPlain push k i st r st' :
  lookupPlain st → pushLink push k i st = Ok (r, st') →
  lookupPlain st' ∧ inherited k = false.
Proof.
  intros Hpl. unfold pushLink, js_get.
  destruct (g_lookup st !! k) as [r0 |] eqn:El;
    [| destruct (inherited k); discriminate].
  intros E; inversion E; subst; clear E.
  split; [exact Hpl | apply Hpl; eauto].
Qed.

Lemma linkPoint_lookupPlain i point st point' st' :
  lookupPlain st → linkPoint i point st = Ok (point', st') →
  lookupPlain st' ∧ plainKeys point.
Proof.
  intros Hpl. unfold linkPoint, plainKeys.
  destruct (p_from point) as [a |]; cbv zeta.
  - destruct (pushLink pushLinksFrom a i (ensureNode a st))
      as [[r1 st1] |] eqn:E1; simpl; [| discriminate].
    destruct (pushLink_lookupPlain _ _ _ _ _ _
                (ensureNode_lookupPlain a st Hpl) E1) as [Hpl1 Ha].
    destruct (p_to point) as [b |].
    + destruct (pushLink pushLinksTo b i (ensureNode b st1))
        as [[r2 st2] |] eqn:E2; simpl; [| discriminate].
      destruct (pushLink_lookupPlain _ _ _ _ _ _
                  (ensureNode_lookupPlain b st1 Hpl1) E2) as [Hpl2 Hb].
      intros E; inversion E; subst.
      split; [assumption |]. split; intros k Hk; congruence.
    + simpl. intros E; inversion E; subst.
      split; [assumption |]. split; intros k Hk; congruence.
  - simpl. destruct (p_to point) as [b |].
    + destruct (pushLink pushLinksTo b i (ensureNode b st))
        as [[r2 st2] |] eqn:E2; simpl; [| discriminate].
      destruct (pushLink_lookupPlain _ _ _ _ _ _
                  (ensureNode_lookupPlain b st Hpl) E2) as [Hpl2 Hb].
      intros E; inversion E; subst.
      split; [assumption |]. split; intros k Hk; congruence.
    + simpl. intros E; inversion E; subst.
      split; [assumption |]. split; intros k Hk; congruence.
Qed.

Lemma linkPoints_lookupPlain points : ∀ i st points' st',
  lookupPlain st → linkPoints i points st = Ok (points', st') →
  Forall plainKeys points.
Proof.
  induction points as [| point rest IH]; intros i st points' st' Hpl;
    simpl; [constructor |].
  destruct (linkPoint i point st) as [[p1 st1] |] eqn:E1; simpl;
    [| discriminate].
  destruct (linkPoint_lookupPlain _ _ _ _ _ Hpl E1) as [Hpl1 Hp].
  destruct (linkPoints (S i) rest st1) as [[rest2 st2] |] eqn:E2; simpl;
    [| discriminate].
  intros _. constructor; [assumption |]. eapply IH; eassumption.
Qed.

(** X6. [generatePoints] throws exactly when a [from] or a [to] of the
    data is a name a plain object inherits; the keys of the [nodes]
    option and the nodes there were never make it throw. *)
Theorem generatePoints_throws_iff (this : Series) :
  generatePoints this = TypeError
  ↔ ∃ k, k ∈ dataKeys (Series_generatePoints this) ∧ inherited k = true.
Proof.
  split.
  - intros Hthrow.
    destruct (Forall_Exists_dec (λ k, inherited k = false)
                (λ k, inherited k = true)
                (λ k, match inherited k as b
                            return {b = false} + {b = true} with
                      | true => right eq_refl
                      | false => left eq_refl
                      end)
                (dataKeys (Series_generatePoints this))) as [Hall | Hex].
    + rewrite Forall_forall in Hall.
      apply plainKeys_dataKeys in Hall.
      destruct (generatePoints_total this Hall) as [this' Hok]. congruence.
    + apply Exists_exists in Hex. exact Hex.
  - intros (k & Hin & Hk).
    destruct (generatePoints this) as [this' |] eqn:Hg; [| reflexivity].
    exfalso. unfold generatePoints in Hg. cbv zeta in Hg.
    destruct (linkPoints 0 (Series_generatePoints this) _)
      as [[points' st1] |] eqn:E1; simpl in Hg; [| discriminate].
    assert (Hpl0 : lookupPlain
                     {| g_lookup := ∅;
                        g_nodes := resetLinks <$> default [] (s_nodes this) |}).
    { intros k'. cbn [g_lookup]. rewrite lookup_empty.
      intros [? Hn]. discriminate. }
    pose proof (linkPoints_lookupPlain _ _ _ _ _ Hpl0 E1) as Hplain.
    pose proof (proj1 (plainKeys_dataKeys _) Hplain) as Hkeys.
    rewrite (Hkeys k Hin) in Hk. discriminate.
Qed.
End Rebuild.

Lemma afterGenerate_eq : @generatePoints plainHost triangle = Ok afterGenerate.
Proof. vm_compute. reflexivity. Qed.

Lemma afterStale_eq : @generatePoints plainHost staleSeries = Ok afterStale.
Proof. vm_compute. reflexivity. Qed.

(** X1 on the sample graph: node a holds the links 0 and 1 it starts. *)
Lemma generatePoints_links_witness :
  p_linksFrom (nodeAt afterGenerate 0) = [0; 1]
  ∧ p_linksTo (nodeAt afterGenerate 0) = [].
Proof.
  apply (@generatePoints_links plainHost triangle afterGenerate 0
           (nodeAt afterGenerate 0) "a").
  - apply NoDup_nil_2.
  - exact afterGenerate_eq.
  - vm_compute. reflexivity.
  - reflexivity.
Defined.

(** X2 on the sample graph: node c ends one link and is both ends of
    another, so its degree is 3. *)
Lemma generatePoints_degree_witness :
  getDegree (nodeAt afterGenerate 2) = 3.
Proof.
  apply (@generatePoints_degree plainHost triangle afterGenerate 2
           (nodeAt afterGenerate 2) "c").
  - apply NoDup_nil_2.
  - exact afterGenerate_eq.
  - vm_compute. reflexivity.
  - reflexivity.
  - reflexivity.
Defined.

(** X3 on the sample graph: a second run gives back the same nodes. *)
Lemma generatePoints_again_witness :
  ∃ again', @generatePoints plainHost afterGenerate = Ok again'
            ∧ s_nodes again' = s_nodes afterGenerate.
Proof.
  apply (@generatePoints_again plainHost triangle afterGenerate
           afterGenerate).
  - apply NoDup_nil_2.
  - exact afterGenerate_eq.
  - reflexivity.
  - reflexivity.
  - vm_compute. reflexivity.
  - vm_compute. reflexivity.
Defined.

(** X4 on the series with a stale node: z stays first, at (1, 2), with
    no links. *)
Lemma generatePoints_keeps_nodes_witness :
  ∃ n', default [] (s_nodes afterStale) !! 0 = Some n'
        ∧ n' = resetLinks staleNode.
Proof.
  destruct (@generatePoints_keeps_nodes plainHost staleSeries afterStale 0
              staleNode) as (n' & Hn' & _ & Hstale).
  - apply NoDup_singleton.
  - exact afterStale_eq.
  - reflexivity.
  - exists n'. split; [exact Hn' |].
    apply (Hstale "z"); [reflexivity |].
    vm_compute. intros Hin.
    repeat (inversion Hin as [| ? ? ? Hin']; subst; clear Hin;
            rename Hin' into Hin).
Defined.

(** X5 on the sample graph: four nodes are added, for a, b, c and d. *)
Lemma generatePoints_count_witness :
  List.length (default [] (s_nodes afterGenerate)) = 0 + 4.
Proof.
  apply (@generatePoints_count plainHost triangle afterGenerate).
  - apply NoDup_nil_2.
  - exact afterGenerate_eq.
Defined.

(** ** Masses of generated links *)

Section Masses.
Context `{Host}.

(** X7. Once [generatePoints] has returned, [getMass] does not throw on
    a link that has both a [from] and a [to]: its endpoints are the
    nodes of these keys, and the shares are computed, in binary64, from
    their masses. On a point that lacks an endpoint node it throws. *)
Theorem getMass_after_generatePoints (this this' : Series) (point : Point)
    (a b : string) :
  NoDup (p_id <$> default [] (s_nodes this)) →
  generatePoints this = Ok this' →
  point ∈ s_points this' →
  p_from point = Some a → p_to point = Some b →
  (∃ na nb,
     na ∈ default [] (s_nodes this') ∧ p_id na = Some a
     ∧ nb ∈ default [] (s_nodes this') ∧ p_id nb = Some b
     ∧ getMass (default [] (s_nodes this')) point
       = Ok {| m_fromNode :=
                 sub64 (Finite 1)
                   (div64 (number (p_mass na))
                      (add64 (number (p_mass na)) (number (p_mass nb))));
               m_toNode :=
                 sub64 (Finite 1)
                   (div64 (number (p_mass nb))
                      (add64 (number (p_mass na)) (number (p_mass nb)))) |})
  ∧ ∀ nodes other,
      p_fromNode other = None ∨ p_toNode other = None →
      getMass nodes other = TypeError.
Proof.
  intros Hnd Hg Hin Ha Hb. split.
  - destruct (generatePoints_returns this this' Hnd Hg)
      as (nodes & Hs & _ & _ & _ & _ & _ & _ & Hres & _).
    rewrite Hs. change (default [] (Some nodes)) with nodes.
    rewrite Forall_forall in Hres.
    destruct (Hres point Hin) as [Hf Ht].
    destruct (Hf a Ha) as (ra & na & Hfa & Hna & Hida).
    destruct (Ht b Hb) as (rb & nb & Htb & Hnb & Hidb).
    exists na, nb.
    split; [eapply list_elem_of_lookup_2; exact Hna |].
    split; [assumption |].
    split; [eapply list_elem_of_lookup_2; exact Hnb |].
    split; [assumption |].
    unfold getMass, deref. rewrite Hfa, Hna. cbn [mbind Result_bind].
    rewrite Htb, Hnb. reflexivity.
  - intros nodes other [Hn | Hn]; unfold getMass, deref; rewrite Hn.
    + reflexivity.
    + destruct (p_fromNode other) as [i |]; [| reflexivity].
      destruct (nodes !! i); reflexivity.
Qed.
End Masses.

(** X8. Turning a link round swaps its two shares. Between two nodes
    of the same mass whose sum is computed without rounding each share
    is one half; when the sum of the masses overflows, both shares are
    1. *)
Theorem getMass_swap (nodes : list Point) (this fromNode toNode : Point)
    (i j : nat) :
  p_fromNode this = Some i → nodes !! i = Some fromNode →
  p_toNode this = Some j → nodes !! j = Some toNode →
  ∃ m m',
    getMass nodes this = Ok m
    ∧ getMass nodes (set_toNode i (set_fromNode j this)) = Ok m'
    ∧ m_fromNode m' = m_toNode m ∧ m_toNode m' = m_fromNode m
    ∧ ((0 < p_mass fromNode)%Q →
       (p_mass fromNode == p_mass toNode)%Q →
       (nearest (p_mass fromNode + p_mass toNode)
        == p_mass fromNode + p_mass toNode)%Q →
       (p_mass fromNode + p_mass toNode < pow2 1024)%Q →
       m_fromNode m = Finite (1 # 2) ∧ m_toNode m = Finite (1 # 2))
    ∧ ((0 < p_mass fromNode)%Q → (0 < p_mass toNode)%Q →
       (pow2 1024 <= nearest (p_mass fromNode + p_mass toNode))%Q →
       m_fromNode m = Finite 1 ∧ m_toNode m = Finite 1).
Proof.
  intros Hf Hi Ht Hj.
  eexists. eexists.
  split; [unfold getMass, deref; rewrite Hf, Hi; cbn [mbind Result_bind];
          rewrite Ht, Hj; reflexivity |].
  split; [unfold getMass, deref;
          cbn [set_toNode set_fromNode p_fromNode p_toNode];
          rewrite Hj; cbn [mbind Result_bind]; rewrite Hi; reflexivity |].
  cbn [m_fromNode m_toNode].
  rewrite (add64_comm (number (p_mass toNode)) (number (p_mass fromNode))).
  split; [reflexivity |]. split; [reflexivity |]. split.
  - intros H1 E He Hb. apply shares_half; assumption.
  - intros H1 H2 Ho. apply shares_overflow; assumption.
Qed.

(** X8 on the link from b, of mass 6, to a, of mass 2, on a link
    between two nodes of mass 4, and on a link between two nodes of
    mass 2 ^ 1023, whose sum overflows. *)
Lemma getMass_swap_witness :
  (∃ m m',
     getMass massNodes massLink = Ok m
     ∧ getMass massNodes (set_toNode 1 (set_fromNode 0 massLink)) = Ok m'
     ∧ m_fromNode m' = m_toNode m ∧ m_toNode m' = m_fromNode m
     ∧ m_fromNode m = Finite (1 # 4) ∧ m_toNode m = Finite (3 # 4))
  ∧ (∃ m, getMass evenNodes linkAB = Ok m
          ∧ m_fromNode m = Finite (1 # 2) ∧ m_toNode m = Finite (1 # 2))
  ∧ ∃ m, getMass hugeNodes linkAB = Ok m
         ∧ m_fromNode m = Finite 1 ∧ m_toNode m = Finite 1.
Proof.
  split; [| split].
  - destruct (getMass_swap massNodes massLink
                (node "b" 6 None None [0] []) (node "a" 2 None None [] [0])
                1 0 eq_refl eq_refl eq_refl eq_refl)
      as (m & m' & H1 & H2 & H3 & H4 & _).
    exists m, m'. split; [exact H1 |]. split; [exact H2 |].
    split; [exact H3 |]. split; [exact H4 |].
    assert (E : Ok m = Ok {| m_fromNode := Finite (1 # 4);
                             m_toNode := Finite (3 # 4) |})
      by (rewrite <- H1; vm_compute; reflexivity).
    inversion E. split; reflexivity.
  - destruct (getMass_swap evenNodes linkAB
                (node "a" 4 None None [0] []) (node "b" 4 None None [] [0])
                0 1 eq_refl eq_refl eq_refl eq_refl)
      as (m & _ & H1 & _ & _ & _ & Hhalf & _).
    exists m. split; [exact H1 |].
    apply Hhalf; vm_compute; reflexivity.
  - destruct (getMass_swap hugeNodes linkAB
                (node "a" (inject_Z (2 ^ 1023)) None None [0] [])
                (node "b" (inject_Z (2 ^ 1023)) None None [] [0])
                0 1 eq_refl eq_refl eq_refl eq_refl)
      as (m & _ & H1 & _ & _ & _ & _ & Hover).
    exists m. split; [exact H1 |].
    apply Hover; vm_compute; try reflexivity; discriminate.
Defined.

(** X7 on the first link of the sample graph, between two nodes of mass
    4: each share is one half. *)
Lemma getMass_after_generatePoints_witness :
  (∃ na nb,
     p_id na = Some "a" ∧ p_id nb = Some "b"
     ∧ getMass (default [] (s_nodes afterGenerate))
               (default (link None None) (s_points afterGenerate !! 0))
       = Ok {| m_fromNode :=
                 sub64 (Finite 1)
                   (div64 (number (p_mass na))
                      (add64 (number (p_mass na)) (number (p_mass nb))));
               m_toNode :=
                 sub64 (Finite 1)
                   (div64 (number (p_mass nb))
                      (add64 (number (p_mass na)) (number (p_mass nb)))) |})
  ∧ getMass (default [] (s_nodes afterGenerate))
            (default (link None None) (s_points afterGenerate !! 0))
    = Ok {| m_fromNode := Finite (1 # 2); m_toNode := Finite (1 # 2) |}.
Proof.
  assert (Hin : default (link None None) (s_points afterGenerate !! 0)
                ∈ s_points afterGenerate)
    by (apply (list_elem_of_lookup_2 _ 0); vm_compute; reflexivity).
  destruct (proj1 (@getMass_after_generatePoints plainHost
              triangle afterGenerate
              (default (link None None) (s_points afterGenerate !! 0))
              "a" "b" NoDup_nil_2 afterGenerate_eq Hin eq_refl eq_refl))
    as (na & nb & _ & Ha & _ & Hb & Hm).
  split; [exists na, nb; auto |].
  vm_compute. reflexivity.
Defined.

(** ** Gestures: press, moves, release *)

Section Gestures.
Context `{Layouts} `{Host}.

Lemma set_plot_same (point : Point) :
  set_plot (p_plotX point) (p_plotY point) point = point.
Proof. destruct point. reflexivity. Qed.

(** A move changes nothing of the point but its position, and nothing
    of the world but the layouts, whose number it keeps. *)
Lemma onMouseMove_frame series point e w point' w' :
  onMouseMove series point e w = Ok (point', w') →
  point' = set_plot (p_plotX point') (p_plotY point') point
  ∧ w_chart w' = w_chart w
  ∧ List.length (w_layouts w') = List.length (w_layouts w).
Proof.
  unfold onMouseMove.
  assert (Hsame : Ok (point, w) = Ok (point', w') →
            point' = set_plot (p_plotX point') (p_plotY point') point
            ∧ w_chart w' = w_chart w
            ∧ List.length (w_layouts w') = List.length (w_layouts w)).
  { intros E; inversion E; subst. rewrite set_plot_same. auto. }
  destruct (p_fixedPosition point) as [fp |]; [| exact Hsame].
  destruct (p_inDragMode point); [| exact Hsame].
  destruct (_ || _); [| exact Hsame].
  destruct (isInsidePlot _ _ _); [| exact Hsame].
  unfold runOrExtend, deref, callOn.
  destruct (s_layout series) as [r |]; simpl; [| discriminate].
  destruct (w_layouts w !! r) as [l |]; simpl; [| discriminate].
  destruct (simulation (l_state l)), (enableSimulation (l_state l));
    simpl; intros E; inversion E; subst;
    (split; [reflexivity |]); (split; [reflexivity |]);
    rewrite ?call_length; reflexivity.
Qed.

Lemma drag_app series moves1 : ∀ moves2 point w,
  drag series point (moves1 ++ moves2) w
  = '(point, w) ← drag series point moves1 w; drag series point moves2 w.
Proof.
  induction moves1 as [| e moves1 IH]; intros moves2 point w; simpl;
    [reflexivity |].
  destruct (onMouseMove series point e w) as [[p1 w1] |]; simpl;
    [apply IH | reflexivity].
Qed.

Lemma drag_frame series moves : ∀ point w point' w',
  drag series point moves w = Ok (point', w') →
  point' = set_plot (p_plotX point') (p_plotY point') point
  ∧ w_chart w' = w_chart w
  ∧ List.length (w_layouts w') = List.length (w_layouts w).
Proof.
  induction moves as [| e moves IH]; intros point w point' w'; simpl.
  - intros E; inversion E; subst. rewrite set_plot_same. auto.
  - destruct (onMouseMove series point e w) as [[p1 w1] |] eqn:Em; simpl;
      [| discriminate].
    intros Ed.
    destruct (onMouseMove_frame _ _ _ _ _ _ Em) as (Hp1 & Hc1 & Hl1).
    destruct (IH _ _ _ _ Ed) as (Hp2 & Hc2 & Hl2).
    split; [| split; congruence].
    rewrite Hp2, Hp1. reflexivity.
Qed.

(** X10. The position of a dragged node depends on the last move only:
    after any moves, a move that passes the threshold to a place inside
    the plot puts the node where that move alone would have put it. *)
Theorem drag_last_move (series : Series) (point point' : Point)
    (fp : FixedPosition) (moves : list MouseEvent) (e : MouseEvent)
    (w w' : World) :
  p_fixedPosition point = Some fp → p_inDragMode point = true →
  let diffX := (fp_chartX fp - e_chartX e)%Q in
  let diffY := (fp_chartY fp - e_chartY e)%Q in
  (5 < Qabs diffX)%Q ∨ (5 < Qabs diffY)%Q →
  isInsidePlot (w_chart w) (minus (fp_plotX fp) diffX)
                           (minus (fp_plotY fp) diffY) = true →
  drag series point (moves ++ [e]) w = Ok (point', w') →
  point' = set_plot (minus (fp_plotX fp) diffX) (minus (fp_plotY fp) diffY)
             point.
Proof.
  intros Hf Hd diffX diffY Hex Hin. subst diffX diffY.
  rewrite drag_app.
  destruct (drag series point moves w) as [[p1 w1] |] eqn:E1; simpl;
    [| discriminate].
  destruct (drag_frame _ _ _ _ _ _ E1) as (Hp1 & Hc1 & _).
  assert (Hf1 : p_fixedPosition p1 = Some fp) by (rewrite Hp1; exact Hf).
  assert (Hd1 : p_inDragMode p1 = true) by (rewrite Hp1; exact Hd).
  unfold onMouseMove. rewrite Hf1, Hd1, Hc1, Hin.
  assert (Hb : Qgtb (Qabs (fp_chartX fp - e_chartX e)) 5
               || Qgtb (Qabs (fp_chartY fp - e_chartY e)) 5 = true).
  { apply orb_true_iff. destruct Hex as [Hx | Hy];
      [left | right]; apply Qgtb_lt; assumption. }
  rewrite Hb.
  destruct (runOrExtend series w1) as [w2 |]; simpl; [| discriminate].
  intros E; inversion E; subst. rewrite Hp1. reflexivity.
Qed.


(** X12. After the release no move has any effect: whatever [onMouseUp]
    returns, every later sequence of moves leaves the node and the
    layouts as they are. *)
Theorem released_ignores_moves (this : Series) (point point' : Point)
    (w w' : World) (moves : list MouseEvent) :
  onMouseUp this point w = Ok (point', w') →
  drag this point' moves w' = Ok (point', w').
Proof.
  intros Hup.
  assert (Hidle : p_fixedPosition point' = None
                  ∨ p_inDragMode point' = false).
  { unfold onMouseUp in Hup.
    destruct (p_fixedPosition point) as [fp |] eqn:Hf.
    - destruct (callOn (s_layout this) Run w) as [w1 |]; simpl in Hup;
        [| discriminate].
      destruct (negb (o_fixedDraggable (s_options this)));
        inversion Hup; subst; simpl; auto.
    - inversion Hup; subst. auto. }
  induction moves as [| e moves IH]; simpl; [reflexivity |].
  assert (Hm : onMouseMove this point' e w' = Ok (point', w')).
  { unfold onMouseMove. destruct Hidle as [Hn | Hn]; rewrite Hn;
      [reflexivity |].
    destruct (p_fixedPosition point'); reflexivity. }
  rewrite Hm. simpl. exact IH.
Qed.

(** X13. The handlers throw exactly when they have to call a layout and
    the series has none: [onMouseUp] on a pinned node, and [onMouseMove]
    on a move that passes the threshold to a place inside the plot. *)
Theorem handlers_throw_iff (this : Series) (point : Point) (e : MouseEvent)
    (w : World) :
  (∀ r, s_layout this = Some r → is_Some (w_layouts w !! r)) →
  (onMouseUp this point w = TypeError
   ↔ is_Some (p_fixedPosition point) ∧ s_layout this = None)
  ∧ (onMouseMove this point e w = TypeError
     ↔ ∃ fp, p_fixedPosition point = Some fp ∧ p_inDragMode point = true
             ∧ ((5 < Qabs (fp_chartX fp - e_chartX e))%Q
                ∨ (5 < Qabs (fp_chartY fp - e_chartY e))%Q)
             ∧ isInsidePlot (w_chart w)
                 (minus (fp_plotX fp) (fp_chartX fp - e_chartX e))
                 (minus (fp_plotY fp) (fp_chartY fp - e_chartY e)) = true
             ∧ s_layout this = None).
Proof.
  intros Hvalid. split.
  - unfold onMouseUp, callOn. split.
    + destruct (p_fixedPosition point) as [fp |]; [| discriminate].
      destruct (s_layout this) as [r |]; simpl.
      * destruct (negb (o_fixedDraggable (s_options this))); discriminate.
      * intros _. split; [eauto | reflexivity].
    + intros [[fp Hf] Hs]. rewrite Hf, Hs. reflexivity.
  - unfold onMouseMove. split.
    + destruct (p_fixedPosition point) as [fp |]; [| discriminate].
      destruct (p_inDragMode point); [| discriminate].
      destruct (Qgtb (Qabs (fp_chartX fp - e_chartX e)) 5
                || Qgtb (Qabs (fp_chartY fp - e_chartY e)) 5) eqn:Hb;
        [| discriminate].
      destruct (isInsidePlot _ _ _) eqn:Hin; [| discriminate].
      intros Hthrow. exists fp. split; [reflexivity |].
      split; [reflexivity |].
      split; [apply orb_true_iff in Hb as [Hb | Hb];
              [left | right]; apply Qgtb_lt; assumption |].
      split; [exact Hin |].
      destruct (s_layout this) as [r |] eqn:Hs; [| reflexivity].
      exfalso. destruct (Hvalid r eq_refl) as [l Hl].
      destruct (runOrExtend_calls this w r l Hs Hl) as (w1 & Er & _).
      rewrite Er in Hthrow. discriminate.
    + intros (fp & Hf & Hd & Hex & Hin & Hs). rewrite Hf, Hd, Hin.
      assert (Hb : Qgtb (Qabs (fp_chartX fp - e_chartX e)) 5
                   || Qgtb (Qabs (fp_chartY fp - e_chartY e)) 5 = true).
      { apply orb_true_iff. destruct Hex as [Hx | Hy];
          [left | right]; apply Qgtb_lt; assumption. }
      rewrite Hb. unfold runOrExtend, deref. rewrite Hs. reflexivity.
Qed.
End Gestures.

Lemma afterMoves_eq :
  @drag recordingLayouts plainHost dragSeries dragPoint
    ([ {| e_chartX := 150; e_chartY := 120 |} ]
     ++ [ {| e_chartX := 160; e_chartY := 130 |} ]) dragWorld
  = Ok (fst afterMoves, snd afterMoves).
Proof. vm_compute. reflexivity. Qed.

(** X10 on two moves: the node is where the second alone puts it. *)
Lemma drag_last_move_witness :
  fst afterMoves
  = set_plot (Some (100 - (110 - 160))%Q) (Some (100 - (120 - 130))%Q)
      dragPoint.
Proof.
  apply (@drag_last_move recordingLayouts plainHost dragSeries dragPoint
           (fst afterMoves) dragStart
           [ {| e_chartX := 150; e_chartY := 120 |} ]
           {| e_chartX := 160; e_chartY := 130 |} dragWorld (snd afterMoves)).
  - reflexivity.
  - reflexivity.
  - left. vm_compute. reflexivity.
  - vm_compute. reflexivity.
  - exact afterMoves_eq.
Defined.


(** X12 on the dragged node once released. *)
Lemma released_ignores_moves_witness :
  @drag recordingLayouts plainHost dragSeries (set_drag None false dragPoint)
    [ {| e_chartX := 150; e_chartY := 120 |};
      {| e_chartX := 160; e_chartY := 130 |} ] (call Run 0 dragWorld)
  = Ok (set_drag None false dragPoint, call Run 0 dragWorld).
Proof.
  apply (@released_ignores_moves recordingLayouts plainHost dragSeries
           dragPoint (set_drag None false dragPoint) dragWorld
           (call Run 0 dragWorld)).
  vm_compute. reflexivity.
Defined.

(** X13 on the dragged node of a series that has a layout: neither
    handler throws. *)
Lemma handlers_throw_iff_witness :
  @onMouseUp recordingLayouts dragSeries dragPoint dragWorld ≠ TypeError
  ∧ @onMouseMove recordingLayouts plainHost dragSeries dragPoint
      {| e_chartX := 140; e_chartY := 120 |} dragWorld ≠ TypeError.
Proof.
  destruct (@handlers_throw_iff recordingLayouts plainHost dragSeries
              dragPoint {| e_chartX := 140; e_chartY := 120 |} dragWorld)
    as [Hup Hmove].
  - intros r E. vm_compute in E. inversion E. subst r.
    eexists. reflexivity.
  - split.
    + intros Ht. apply Hup in Ht as [_ Hs]. discriminate.
    + intros Ht. apply Hmove in Ht as (fp & _ & _ & _ & _ & Hs).
      discriminate.
Defined.

(** ** The registry of layouts *)

Section Registry.
Context `{Layouts}.

(** X14. [deferLayout] throws exactly on a visible series whose type
    has no layout yet and either names an inherited member of the
    storage object or is not a layout class; a hidden series never makes
    it throw. *)
Theorem deferLayout_throws_iff (this : Series) (w : World) :
  deferLayout this w = TypeError
  ↔ s_visible this = true
    ∧ storage w !! layoutType this = None
    ∧ (inherited (layoutType this) = true
       ∨ construct (layoutType this)
           (exportAware (w_chart w) (o_layoutAlgorithm (s_options this)))
         = None).
Proof.
  unfold deferLayout, js_get, layoutType.
  destruct (s_visible this); simpl;
    [| split; [discriminate | intros [Hv _]; discriminate]].
  destruct (storage w !! lo_type (o_layoutAlgorithm (s_options this)))
    as [r |]; simpl;
    [split; [discriminate | intros (_ & Hn & _); discriminate] |].
  destruct (inherited (lo_type (o_layoutAlgorithm (s_options this))));
    simpl; [split; auto |].
  destruct (construct _ _) as [state |].
  - split; [discriminate |].
    intros (_ & _ & [Hi | Hc]); discriminate.
  - split; auto.
Qed.

Lemma deferLayout_registry this w this' w' :
  wf w → size (storage w) = List.length (w_layouts w) →
  deferLayout this w = Ok (this', w') →
  size (storage w') = List.length (w_layouts w')
  ∧ List.length (w_layouts w) ≤ List.length (w_layouts w').
Proof.
  intros Hwf Hsize Hd. destruct (s_visible this) eqn:Hv.
  - destruct (deferLayout_visible _ _ _ _ Hwf Hv Hd)
      as (r & _ & _ & _ & _ & [(_ & Hs & Hl) | (Hn & _ & Hs & Hl)]).
    + rewrite Hs, Hl. split; [assumption | lia].
    + rewrite Hs, Hl, map_size_insert_None by assumption.
      split; lia.
  - rewrite deferLayout_hidden in Hd by assumption.
    inversion Hd; subst. split; [assumption | lia].
Qed.

Context `{Host}.

(** X15. Translating any series keeps the registry of layouts sound:
    every stored reference is a layout, no two types share one, there
    are as many layouts as stored types, no type loses its layout, no
    layout is dropped, and the calls a layout has received are only
    added to. *)
Theorem translateAll_registry (series : list Series) :
  ∀ (w w' : World) (series' : list Series),
    wf w → size (storage w) = List.length (w_layouts w) →
    translateAll series w = Ok (series', w') →
    wf w'
    ∧ size (storage w') = List.length (w_layouts w')
    ∧ storage w ⊆ storage w'
    ∧ List.length (w_layouts w) ≤ List.length (w_layouts w')
    ∧ ∀ r, calls w r `prefix_of` calls w' r.
Proof.
  induction series as [| s rest IH]; intros w w' series' Hwf Hsize; simpl.
  - intros E; inversion E; subst.
    split; [assumption |]. split; [assumption |].
    split; [reflexivity |]. split; [lia |]. intros r. reflexivity.
  - destruct (translate s w) as [[s1 w1] |] eqn:Et; simpl; [| discriminate].
    destruct (translateAll rest w1) as [[rest1 w2] |] eqn:Er; simpl;
      [| discriminate].
    intros E; inversion E; subst; clear E.
    unfold translate in Et.
    destruct (generatePoints s) as [s0 |]; simpl in Et; [| discriminate].
    destruct (deferLayout_wf _ _ _ _ Hwf Et) as (Hwf1 & Hm1 & Hc1).
    destruct (deferLayout_registry _ _ _ _ Hwf Hsize Et) as [Hsize1 Hlen1].
    destruct (IH _ _ _ Hwf1 Hsize1 Er) as (Hwf2 & Hsize2 & Hsub2 & Hlen2 & Hc2).
    split; [assumption |]. split; [assumption |].
    split; [| split; [lia |]].
    + etransitivity; [| exact Hsub2].
      apply map_subseteq_spec. exact Hm1.
    + intros r. etransitivity; [| apply Hc2].
      destruct (Hc1 r) as (sent & -> & _). apply prefix_app_r. reflexivity.
Qed.

(** X16. Only the series that creates a layout has its options
    rewritten: the options handed to the constructor, and stored back on
    the series, have [enableSimulation] switched to [!forExport] when the
    chart defines [forExport]; a series that finds a layout of its type
    keeps its options, and the layout is not constructed again. *)
Theorem deferLayout_options (this this' : Series) (w w' : World) :
  s_visible this = true →
  deferLayout this w = Ok (this', w') →
  let layoutOptions := o_layoutAlgorithm (s_options this) in
  (storage w !! layoutType this = None →
     ∃ state,
       construct (layoutType this)
         {| lo_type := lo_type layoutOptions;
            lo_enableSimulation :=
              match c_forExport (w_chart w) with
              | Some forExport => negb forExport
              | None => lo_enableSimulation layoutOptions
              end |} = Some state
       ∧ o_layoutAlgorithm (s_options this')
         = {| lo_type := lo_type layoutOptions;
              lo_enableSimulation :=
                match c_forExport (w_chart w) with
                | Some forExport => negb forExport
                | None => lo_enableSimulation layoutOptions
                end |}
       ∧ List.length (w_layouts w') = S (List.length (w_layouts w)))
  ∧ (is_Some (storage w !! layoutType this) →
       s_options this' = s_options this
       ∧ List.length (w_layouts w') = List.length (w_layouts w)).
Proof.
  intros Hv. unfold deferLayout, js_get, layoutType. rewrite Hv. simpl.
  destruct (storage w !! lo_type (o_layoutAlgorithm (s_options this)))
    as [r |] eqn:Es; simpl.
  - intros E; inversion E; subst; clear E. split; [discriminate |].
    intros _. split.
    + unfold set_layout; simpl. destruct (s_options this). reflexivity.
    + rewrite register_length. reflexivity.
  - destruct (inherited _); simpl; [discriminate |].
    unfold exportAware.
    destruct (c_forExport (w_chart w)) as [forExport |]; simpl;
      (destruct (construct _ _) as [state |] eqn:Ec; [| discriminate]);
      intros E; inversion E; subst; clear E;
      (split; [| intros [? Hn]; discriminate]);
      intros _; exists state;
      (split; [reflexivity |]); (split; [reflexivity |]);
      rewrite register_length; cbn [set_storage w_layouts];
      rewrite length_app; simpl; lia.
Qed.

End Registry.

Lemma afterTranslate_eq :
  @translateAll recordingLayouts plainHost [sampleA; sampleB]
    (freshWorld 400 300)
  = Ok (fst afterTranslate, snd afterTranslate).
Proof. vm_compute. reflexivity. Qed.

(** X15 on the two sample series: one layout, one stored type. *)
Lemma translateAll_registry_witness :
  wf (snd afterTranslate)
  ∧ size (storage (snd afterTranslate))
    = List.length (w_layouts (snd afterTranslate))
  ∧ storage (@freshWorld recordingLayouts 400 300)
    ⊆ storage (snd afterTranslate)
  ∧ List.length (w_layouts (@freshWorld recordingLayouts 400 300))
    ≤ List.length (w_layouts (snd afterTranslate))
  ∧ ∀ r, calls (@freshWorld recordingLayouts 400 300) r
         `prefix_of` calls (snd afterTranslate) r.
Proof.
  apply (@translateAll_registry recordingLayouts plainHost
           [sampleA; sampleB] (freshWorld 400 300) (snd afterTranslate)
           (fst afterTranslate)).
  - exact (wf_fresh 400 300).
  - vm_compute. reflexivity.
  - exact afterTranslate_eq.
Defined.

(** X16 on the first sample series, which creates the layout. *)
Lemma deferLayout_options_witness :
  (storage (@freshWorld recordingLayouts 400 300) !! layoutType sampleA
   = None →
     ∃ state,
       @construct recordingLayouts (layoutType sampleA)
         {| lo_type := "reingold-fruchterman";
            lo_enableSimulation := false |} = Some state
       ∧ o_layoutAlgorithm (s_options (fst afterA))
         = {| lo_type := "reingold-fruchterman";
              lo_enableSimulation := false |}
       ∧ List.length (w_layouts (snd afterA)) = 1)
  ∧ (is_Some (storage (@freshWorld recordingLayouts 400 300)
               !! layoutType sampleA) →
       s_options (fst afterA) = s_options sampleA
       ∧ List.length (w_layouts (snd afterA)) = 0).
Proof.
  exact (@deferLayout_options recordingLayouts sampleA (fst afterA)
           (freshWorld 400 300) (snd afterA) eq_refl afterA_eq).
Defined.

(** ** Links on screen *)

Lemma renderPoint_two_ended linkOptions nodes (this : LinkPoint)
    (rf rt : nat) (f t : Point) :
  p_fromNode (lp_point this) = Some rf → nodes !! rf = Some f →
  p_toNode (lp_point this) = Some rt → nodes !! rt = Some t →
  renderPoint linkOptions nodes this
  = Ok {| lp_point := lp_point this;
          lp_graphic :=
            Some match lp_graphic this with
                 | Some graphic =>
                     {| gr_d := gr_d graphic; gr_attr := gr_attr graphic;
                        gr_animations :=
                          gr_animations graphic ++ [getLinkPath f t] |}
                 | None =>
                     {| gr_d := getLinkPath f t;
                        gr_attr := getLinkAttribues linkOptions;
                        gr_animations := [getLinkPath f t] |}
                 end |}.
Proof.
  intros Hf Hrf Ht Hrt. unfold renderPoint, renderLink, redrawLink, deref.
  rewrite Hf, Ht. simpl.
  destruct (lp_graphic this) as [graphic |] eqn:Hg; simpl;
    repeat (first [rewrite Hg | rewrite Hf | rewrite Hrf | rewrite Ht
                  | rewrite Hrt]; simpl);
    reflexivity.
Qed.

Lemma renderPoint_one_ended linkOptions nodes (this : LinkPoint) :
  p_fromNode (lp_point this) = None ∨ p_toNode (lp_point this) = None →
  renderPoint linkOptions nodes this = Ok this.
Proof.
  intros [Hn | Hn]; unfold renderPoint; rewrite Hn; simpl;
    [reflexivity |].
  rewrite andb_false_r. reflexivity.
Qed.

(** X18. [render] draws the links that have both endpoints, and only
    those: it does not throw when the endpoints are nodes of the
    series, it keeps the points, a point with both endpoints ends up
    with a graphic whose latest path is [M x y L x' y'], from the
    position of its [fromNode] to that of its [toNode], and any other
    point is left as it was. *)
Theorem renderLinks_draws (linkOptions : LinkOptions) (nodes : list Point)
    (points : list LinkPoint) :
  Forall (λ point, wellLinked nodes (lp_point point)) points →
  ∃ points',
    renderLinks linkOptions nodes points = Ok points'
    ∧ lp_point <$> points' = lp_point <$> points
    ∧ ∀ i point point',
        points !! i = Some point → points' !! i = Some point' →
        (∀ rf rt f t,
           p_fromNode (lp_point point) = Some rf → nodes !! rf = Some f →
           p_toNode (lp_point point) = Some rt → nodes !! rt = Some t →
           ∃ graphic, lp_graphic point' = Some graphic
                      ∧ last (gr_animations graphic)
                        = Some [ MoveTo; Num (p_plotX f); Num (p_plotY f);
                                 LineTo; Num (p_plotX t); Num (p_plotY t) ])
        ∧ (p_fromNode (lp_point point) = None
           ∨ p_toNode (lp_point point) = None →
           point' = point).
Proof.
  induction 1 as [| point rest [Hwf Hwt] _ IH]; simpl.
  - exists []. split; [reflexivity |]. split; [reflexivity |].
    intros i point point' Hi. discriminate.
  - destruct IH as (rest' & Er & Hp & Hrest).
    assert (Hone : ∃ point',
              renderPoint linkOptions nodes point = Ok point'
              ∧ lp_point point' = lp_point point
              ∧ (∀ rf rt f t,
                   p_fromNode (lp_point point) = Some rf →
                   nodes !! rf = Some f →
                   p_toNode (lp_point point) = Some rt →
                   nodes !! rt = Some t →
                   ∃ graphic, lp_graphic point' = Some graphic
                              ∧ last (gr_animations graphic)
                        = Some [ MoveTo; Num (p_plotX f); Num (p_plotY f);
                                 LineTo; Num (p_plotX t); Num (p_plotY t) ])
              ∧ (p_fromNode (lp_point point) = None
                 ∨ p_toNode (lp_point point) = None → point' = point)).
    { destruct (p_fromNode (lp_point point)) as [rf |] eqn:Hf;
        [destruct (p_toNode (lp_point point)) as [rt |] eqn:Ht |].
      - destruct (Hwf rf eq_refl) as [f Hrf].
        destruct (Hwt rt eq_refl) as [t Hrt].
        eexists. split;
          [apply (renderPoint_two_ended _ _ _ rf rt f t); assumption |].
        split; [reflexivity |]. split.
        + intros rf' rt' f' t' E1 Hf' E2 Ht'.
          inversion E1; inversion E2; subst rf' rt'.
          assert (f' = f) by congruence. assert (t' = t) by congruence.
          subst f' t'. eexists. split; [reflexivity |].
          destruct (lp_graphic point) as [graphic |];
            cbn [gr_animations]; [rewrite last_snoc |]; reflexivity.
        + intros [Hn | Hn]; discriminate.
      - exists point. split; [apply renderPoint_one_ended; auto |].
        split; [reflexivity |]. split; [| reflexivity].
        intros rf' rt' f' t' _ _ E2. discriminate.
      - exists point. split; [apply renderPoint_one_ended; auto |].
        split; [reflexivity |]. split; [| reflexivity].
        intros rf' rt' f' t' E1. discriminate. }
    destruct Hone as (point' & Ep & Hpp & Htwo & Hone).
    exists (point' :: rest'). rewrite Ep. simpl. rewrite Er. simpl.
    split; [reflexivity |].
    split; [cbn [fmap list_fmap]; f_equal; [exact Hpp | exact Hp] |].
    intros [| i] p p' Hi Hi'; simpl in Hi, Hi'.
    + inversion Hi; inversion Hi'; subst. split; assumption.
    + apply (Hrest i); assumption.
Qed.

(** X19. The graphic of a link is created once: a later [render] keeps
    the element, with the path and the attributes it was created with,
    even when the link options have changed since, and only asks it to
    animate to the segment between the nodes where they are now. *)
Theorem renderPoint_again (linkOptions linkOptions' : LinkOptions)
    (nodes nodes' : list Point) (this first second : LinkPoint)
    (rf rt : nat) (f t f' t' : Point) :
  lp_graphic this = None →
  p_fromNode (lp_point this) = Some rf → p_toNode (lp_point this) = Some rt →
  nodes !! rf = Some f → nodes !! rt = Some t →
  nodes' !! rf = Some f' → nodes' !! rt = Some t' →
  renderPoint linkOptions nodes this = Ok first →
  renderPoint linkOptions' nodes' first = Ok second →
  lp_point second = lp_point this
  ∧ lp_graphic second
    = Some {| gr_d := getLinkPath f t;
              gr_attr := getLinkAttribues linkOptions;
              gr_animations := [getLinkPath f t; getLinkPath f' t'] |}.
Proof.
  intros Hg Hf Ht Hrf Hrt Hrf' Hrt' E1.
  rewrite (renderPoint_two_ended _ _ _ rf rt f t Hf Hrf Ht Hrt), Hg in E1.
  inversion E1; subst first; clear E1.
  rewrite (renderPoint_two_ended _ _ _ rf rt f' t'); simpl; try assumption.
  intros E2; inversion E2; subst second. split; reflexivity.
Qed.

(** X18 on a link from a, at (10, 20), to b, at (30, 40), and a point
    that has no [from]. *)
Lemma renderLinks_draws_witness :
  ∃ points',
    renderLinks thinLinks drawnNodes [drawnLink; looseLink] = Ok points'
    ∧ (∃ point' graphic,
         points' !! 0 = Some point'
         ∧ lp_graphic point' = Some graphic
         ∧ last (gr_animations graphic)
           = Some [ MoveTo; Num (Some 10%Q); Num (Some 20%Q);
                    LineTo; Num (Some 30%Q); Num (Some 40%Q) ])
    ∧ points' !! 1 = Some looseLink.
Proof.
  destruct (renderLinks_draws thinLinks drawnNodes [drawnLink; looseLink])
    as (points' & Hr & Hp & Hall).
  - repeat constructor; intros r E; vm_compute in E; inversion E; subst r;
      eexists; reflexivity.
  - exists points'. split; [exact Hr |].
    assert (Hlen : List.length points' = 2).
    { rewrite <- (length_fmap lp_point points'), Hp. reflexivity. }
    destruct points' as [| p0 [| p1 [| p2 rest]]]; try discriminate Hlen.
    split.
    + destruct (proj1 (Hall 0 drawnLink p0 eq_refl eq_refl) 0 1
                  (node "a" 4 (Some 10%Q) (Some 20%Q) [0] [])
                  (node "b" 4 (Some 30%Q) (Some 40%Q) [] [0; 1])
                  eq_refl eq_refl eq_refl eq_refl) as (graphic & Hg & Hlast).
      exists p0, graphic. split; [reflexivity |]. split; assumption.
    + rewrite (proj2 (Hall 1 looseLink p1 eq_refl eq_refl)
                 (or_introl eq_refl)).
      reflexivity.
Defined.

(** X19 on the link from a to b, drawn thin, then drawn again with
    thick links once the nodes have moved. *)
Lemma renderPoint_again_witness :
  lp_point drawnTwice = lp_point drawnLink
  ∧ lp_graphic drawnTwice
    = Some {| gr_d :=
                [MoveTo; Num (Some 10%Q); Num (Some 20%Q);
                 LineTo; Num (Some 30%Q); Num (Some 40%Q)];
              gr_attr := getLinkAttribues thinLinks;
              gr_animations :=
                [ [MoveTo; Num (Some 10%Q); Num (Some 20%Q);
                   LineTo; Num (Some 30%Q); Num (Some 40%Q)];
                  [MoveTo; Num (Some 15%Q); Num (Some 25%Q);
                   LineTo; Num (Some 35%Q); Num (Some 45%Q)] ] |}.
Proof.
  apply (renderPoint_again thinLinks thickLinks drawnNodes movedNodes
           drawnLink drawnOnce drawnTwice 0 1
           (node "a" 4 (Some 10%Q) (Some 20%Q) [0] [])
           (node "b" 4 (Some 30%Q) (Some 40%Q) [] [0; 1])
           (node "a" 4 (Some 15%Q) (Some 25%Q) [0] [])
           (node "b" 4 (Some 35%Q) (Some 45%Q) [] [0; 1]));
    vm_compute; reflexivity.
Defined.

(** ** Destroying the nodes of a generated series *)

Section Destroy.
Context `{Host}.

Lemma ensureNode_isNode k st :
  Forall (λ n, p_isNode n = true) (g_nodes st) →
  Forall (λ n, p_isNode n = true) (g_nodes (ensureNode k st)).
Proof.
  intros Hn.
  destruct (ensureNode_cases k st)
    as [[E _] | (_ & _ & [(r & n & _ & _ & E) | [_ E]])]; rewrite E;
    cbn [g_nodes]; try assumption.
  apply Forall_app. split; [assumption |].
  constructor; [reflexivity | constructor].
Qed.

Lemma pushLink_isNode push k i st r st' :
  (∀ j n, p_isNode (push j n) = p_isNode n) →
  Forall (λ n, p_isNode n = true) (g_nodes st) →
  pushLink push k i st = Ok (r, st') →
  Forall (λ n, p_isNode n = true) (g_nodes st').
Proof.
  intros Hpush Hn. unfold pushLink.
  destruct (js_get (g_lookup st) k) as [r0 | |]; try discriminate.
  intros E; inversion E; subst; clear E. cbn [g_nodes].
  apply Forall_alter; [assumption |].
  intros n _ Hi. rewrite Hpush. exact Hi.
Qed.

Lemma linkPoint_isNode i point st point' st' :
  Forall (λ n, p_isNode n = true) (g_nodes st) →
  linkPoint i point st = Ok (point', st') →
  Forall (λ n, p_isNode n = true) (g_nodes st').
Proof.
  intros Hn. unfold linkPoint.
  assert (Hto : ∀ st0 (p0 : Point),
            Forall (λ n, p_isNode n = true) (g_nodes st0) →
            ('(point, st) ←
               match p_to point with
               | Some to =>
                   '(node, st) ← pushLink pushLinksTo to i
                                    (ensureNode to st0);
                   Ok (set_toNode node p0, st)
               | None => Ok (p0, st0)
               end;
             Ok (set_name point, st)) = Ok (point', st') →
            Forall (λ n, p_isNode n = true) (g_nodes st')).
  { intros st0 p0 Hn0. destruct (p_to point) as [b |].
    - destruct (pushLink pushLinksTo b i (ensureNode b st0))
        as [[r2 st2] |] eqn:E2; simpl; [| discriminate].
      intros E; inversion E; subst; clear E.
      eapply pushLink_isNode; [| apply ensureNode_isNode; exact Hn0
                               | exact E2].
      reflexivity.
    - simpl. intros E; inversion E; subst. exact Hn0. }
  destruct (p_from point) as [a |]; cbv zeta.
  - destruct (pushLink pushLinksFrom a i (ensureNode a st))
      as [[r1 st1] |] eqn:E1; simpl; [| discriminate].
    apply Hto.
    eapply pushLink_isNode; [| apply ensureNode_isNode; exact Hn | exact E1].
    reflexivity.
  - simpl. apply Hto. exact Hn.
Qed.

Lemma linkPoints_isNode points : ∀ i st points' st',
  Forall (λ n, p_isNode n = true) (g_nodes st) →
  linkPoints i points st = Ok (points', st') →
  Forall (λ n, p_isNode n = true) (g_nodes st').
Proof.
  induction points as [| point rest IH]; intros i st points' st' Hn; simpl.
  - intros E; inversion E; subst. exact Hn.
  - destruct (linkPoint i point st) as [[p1 st1] |] eqn:E1; simpl;
      [| discriminate].
    destruct (linkPoints (S i) rest st1) as [[rest2 st2] |] eqn:E2; simpl;
      [| discriminate].
    intros E; inversion E; subst; clear E.
    eapply IH; [| exact E2]. eapply linkPoint_isNode; eassumption.
Qed.

Lemma declareNodes_isNode nodeOptions : ∀ st,
  Forall (λ n, p_isNode n = true) (g_nodes st) →
  Forall (λ n, p_isNode n = true) (g_nodes (declareNodes nodeOptions st)).
Proof.
  unfold declareNodes.
  induction nodeOptions as [| o rest IH]; intros st Hn; simpl;
    [exact Hn |].
  apply IH. apply ensureNode_isNode. exact Hn.
Qed.

(** The nodes [generatePoints] adds are marked as nodes. *)
Lemma generatePoints_isNode (this this' : Series) :
  Forall (λ n, p_isNode n = true) (default [] (s_nodes this)) →
  generatePoints this = Ok this' →
  Forall (λ n, p_isNode n = true) (default [] (s_nodes this')).
Proof.
  intros Hn. unfold generatePoints. cbv zeta.
  destruct (linkPoints 0 _ _) as [[points' st1] |] eqn:E1; simpl;
    [| discriminate].
  intros E; inversion E; subst; clear E.
  cbn [set_nodes_points s_nodes default].
  assert (H1 : Forall (λ n, p_isNode n = true) (g_nodes st1)).
  { eapply linkPoints_isNode; [| exact E1]. cbn [g_nodes].
    apply Forall_fmap. eapply Forall_impl; [exact Hn |].
    intros n Hi. exact Hi. }
  destruct (o_nodes (s_options this));
    [apply declareNodes_isNode |]; exact H1.
Qed.

Lemma destroyGraphic_eq (linkFrom : LinkPoint) :
  destroyGraphic linkFrom
  = {| lp_point := lp_point linkFrom; lp_graphic := None |}.
Proof. destruct linkFrom as [point [graphic |]]; reflexivity. Qed.

Lemma foldl_alter_lookup {A} (f : A → A) (js : list nat) : ∀ (l : list A) i,
  (∀ x, f (f x) = f x) →
  foldl (λ l j, alter f j l) l js !! i
  = if decide (i ∈ js) then f <$> l !! i else l !! i.
Proof.
  induction js as [| j js IH]; intros l i Hid; simpl.
  - destruct (decide (i ∈ [])) as [Hin | _]; [inversion Hin | reflexivity].
  - rewrite IH by assumption.
    destruct (decide (i = j)) as [-> | Hne].
    + rewrite list_lookup_alter_eq.
      rewrite (decide_True (P := j ∈ j :: js)) by apply list_elem_of_here.
      destruct (decide (j ∈ js)); [| reflexivity].
      destruct (l !! j); simpl; [rewrite Hid |]; reflexivity.
    + rewrite list_lookup_alter_ne by congruence.
      destruct (decide (i ∈ js)) as [Hin | Hin].
      * rewrite decide_True by (apply elem_of_cons; auto). reflexivity.
      * rewrite decide_False; [reflexivity |].
        intros Hc. apply elem_of_cons in Hc as [Hc | Hc]; auto.
Qed.

Lemma destroyLinks_lookup (node : Point) (points : list LinkPoint) i :
  destroyLinks node points !! i
  = if decide (p_isNode node = true ∧ i ∈ p_linksFrom node)
    then destroyGraphic <$> points !! i else points !! i.
Proof.
  unfold destroyLinks. destruct (p_isNode node).
  - rewrite foldl_alter_lookup
      by (intros x; rewrite !destroyGraphic_eq; reflexivity).
    destruct (decide (i ∈ p_linksFrom node)) as [Hin | Hin].
    + rewrite decide_True by auto. reflexivity.
    + rewrite decide_False by (intros [_ Hc]; auto). reflexivity.
  - rewrite decide_False by (intros [Hc _]; discriminate). reflexivity.
Qed.

Lemma destroyNodes_lookup (nodes : list Point) : ∀ (points : list LinkPoint) i,
  destroyNodes nodes points !! i
  = if decide (Exists (λ n, p_isNode n = true ∧ i ∈ p_linksFrom n) nodes)
    then destroyGraphic <$> points !! i else points !! i.
Proof.
  unfold destroyNodes.
  induction nodes as [| n rest IH]; intros points i; cbn [foldl].
  - rewrite decide_False by (intros Hc; inversion Hc). reflexivity.
  - rewrite IH, destroyLinks_lookup.
    destruct (decide (p_isNode n = true ∧ i ∈ p_linksFrom n)) as [Hn | Hn];
      destruct (decide (Exists (λ n, p_isNode n = true ∧ i ∈ p_linksFrom n)
                          rest)) as [Hr | Hr].
    + rewrite decide_True by (apply Exists_cons; auto).
      destruct (points !! i); simpl; [rewrite !destroyGraphic_eq |];
        reflexivity.
    + rewrite decide_True by (apply Exists_cons; auto). reflexivity.
    + rewrite decide_True by (apply Exists_cons; auto). reflexivity.
    + rewrite decide_False; [reflexivity |].
      intros Hc. apply Exists_cons in Hc as [Hc | Hc]; auto.
Qed.

Lemma incident_elem sel k points : ∀ j i,
  i ∈ incident sel k j points
  ↔ ∃ p, j ≤ i ∧ points !! (i - j) = Some p ∧ sel p = Some k.
Proof.
  induction points as [| point rest IH]; intros j i; simpl.
  - split; [intros Hin; inversion Hin |].
    intros (p & _ & Hp & _). discriminate.
  - rewrite elem_of_app, IH. split.
    + intros [Hin | (p & Hle & Hp & Hs)].
      * destruct (decide (sel point = Some k)) as [E | _];
          [| inversion Hin].
        apply elem_of_cons in Hin as [-> | Hin]; [| inversion Hin].
        exists point. rewrite Nat.sub_diag. auto.
      * exists p. split; [lia |].
        replace (i - j) with (S (i - S j)) by lia. auto.
    + intros (p & Hle & Hp & Hs).
      destruct (decide (i = j)) as [-> | Hne].
      * left. rewrite Nat.sub_diag in Hp. simpl in Hp.
        inversion Hp; subst. rewrite decide_True by assumption.
        apply list_elem_of_here.
      * right. exists p. split; [lia |].
        replace (i - j) with (S (i - S j)) in Hp by lia. auto.
Qed.

(** X20. Destroying the nodes of a series whose points have just been
    generated destroys the graphic of every point that has a [from],
    whichever node the point starts at, and leaves every other point
    with the graphic it had; no point is lost or altered otherwise. *)
Theorem destroyNodes_after_generatePoints (this this' : Series)
    (links : list LinkPoint) (i : nat) (linkFrom : LinkPoint) :
  NoDup (p_id <$> default [] (s_nodes this)) →
  Forall (λ n, p_isNode n = true) (default [] (s_nodes this)) →
  generatePoints this = Ok this' →
  lp_point <$> links = s_points this' →
  links !! i = Some linkFrom →
  destroyNodes (default [] (s_nodes this')) links !! i
  = Some {| lp_point := lp_point linkFrom;
            lp_graphic := match p_from (lp_point linkFrom) with
                          | Some _ => None
                          | None => lp_graphic linkFrom
                          end |}.
Proof.
  intros Hnd Hnodes Hg Hpts Hi.
  pose proof (generatePoints_isNode _ _ Hnodes Hg) as Hall.
  destruct (generatePoints_returns this this' Hnd Hg)
    as (nodes & Hs & _ & _ & Hlk & _ & Hex & Hplain & _ & Hf & _).
  rewrite Hs in *. simpl in Hall. simpl.
  rewrite destroyNodes_lookup, Hi. simpl.
  assert (Hpi : ∃ p, Series_generatePoints this !! i = Some p
                     ∧ p_from p = p_from (lp_point linkFrom)).
  { assert (E : (p_from <$> s_points this') !! i
                = Some (p_from (lp_point linkFrom))).
    { rewrite <- Hpts, !list_lookup_fmap, Hi. reflexivity. }
    rewrite Hf in E. apply list_lookup_fmap_Some in E as (p & Ep & Hp).
    exists p. auto. }
  destruct Hpi as (p & Hp & Hpf).
  destruct (p_from (lp_point linkFrom)) as [k |] eqn:Hfrom.
  - rewrite decide_True; [rewrite destroyGraphic_eq; reflexivity |].
    rewrite Forall_forall in Hplain.
    assert (Hin : p ∈ Series_generatePoints this)
      by (eapply list_elem_of_lookup_2; exact Hp).
    assert (Hsome : Some k ∈ p_id <$> nodes).
    { apply Hex; [| exact (proj1 (Hplain p Hin) k Hpf)].
      apply elem_of_app. left. unfold dataKeys. apply elem_of_app. left.
      apply list_elem_of_omap. exists p. auto. }
    apply list_elem_of_fmap in Hsome as (n & Hid & Hn).
    apply Exists_exists. exists n. split; [exact Hn |].
    rewrite Forall_forall in Hall. split; [apply Hall; exact Hn |].
    apply list_elem_of_lookup in Hn as [r Hr].
    specialize (Hlk r n Hr). rewrite <- Hid in Hlk.
    destruct Hlk as [-> _]. apply incident_elem.
    exists p. split; [lia |]. rewrite Nat.sub_0_r. auto.
  - rewrite decide_False; [destruct linkFrom; reflexivity |].
    intros Hc. apply Exists_exists in Hc as (n & Hn & _ & Hin).
    apply list_elem_of_lookup in Hn as [r Hr].
    specialize (Hlk r n Hr). destruct (p_id n) as [k |].
    + destruct Hlk as [E _]. rewrite E in Hin.
      apply incident_elem in Hin as (p' & _ & Hp' & Hk).
      rewrite Nat.sub_0_r in Hp'. congruence.
    + destruct Hlk as [E _]. rewrite E in Hin. inversion Hin.
Qed.
End Destroy.

(** X20 on the sample graph: every link has a [from], so no graphic is
    left. *)
Lemma destroyNodes_after_generatePoints_witness :
  lp_graphic
    <$> (destroyNodes (default [] (s_nodes afterGenerate)) generatedLinks
         !! 2)
  = Some None.
Proof.
  rewrite (@destroyNodes_after_generatePoints plainHost triangle
             afterGenerate generatedLinks 2
             {| lp_point := default (link None None)
                              (s_points afterGenerate !! 2);
                lp_graphic :=
                  Some {| gr_d := [];
                          gr_attr := getLinkAttribues thinLinks;
                          gr_animations := [] |} |}).
  - reflexivity.
  - apply NoDup_nil_2.
  - constructor.
  - exact afterGenerate_eq.
  - vm_compute. reflexivity.
  - vm_compute. reflexivity.
Defined.
